(** * p5.js DOM addon (src/dom/dom.js): a shallow embedding

    The embedding follows the JavaScript source function by function.
    Host (browser) objects are records of the fields the code reads and
    writes; objects with identity (handles, option nodes) carry a numeric
    reference; user callbacks are references whose invocations are
    recorded in a call log, and what a cue callback does to the handle it
    is scheduled on (calls of the scheduler's methods, an exception) is
    given by the user code the scheduler is run with. *)

From Stdlib Require Import QArith.
From stdpp Require Import base list strings gmap.

Local Open Scope nat_scope.

(** ** JavaScript values *)

(** The JavaScript values passed where the code takes a string, a flag
    or nothing: option values, radio values, cue payloads. *)
Inductive jsval : Type :=
  | JUndefined
  | JNull
  | JBool (b : bool)
  | JStr (s : string).

Global Instance jsval_eq_dec : EqDecision jsval.
Proof. solve_decision. Defined.

(** Numbers (playback positions, cue times, playback rates) are finite
    and modelled as rationals: the code only compares them and never
    does arithmetic on them.  [a < b], [a <= b] and [a === b]: *)
Definition num_lt (a b : Q) : bool := (Qnum a * QDen b <? Qnum b * QDen a)%Z.
Definition num_le (a b : Q) : bool := Qle_bool a b.
Definition num_eq (a b : Q) : bool := Qeq_bool a b.

(** ToBoolean on a number: 0 is falsy. *)
Definition num_truthy (a : Q) : bool := negb (num_eq a 0).

(** ToBoolean: [undefined], [null], [false] and the empty string are
    falsy. *)
Definition truthy (v : jsval) : bool :=
  match v with
  | JUndefined | JNull => false
  | JBool b => b
  | JStr s => negb (String.eqb s "")
  end.

(** Strict equality [===] on the modelled values. *)
Definition strict_eq (a b : jsval) : bool :=
  match a, b with
  | JUndefined, JUndefined => true
  | JNull, JNull => true
  | JBool x, JBool y => Bool.eqb x y
  | JStr x, JStr y => String.eqb x y
  | _, _ => false
  end.

(** ** Media handles and the cue scheduler *)

Module Media.

(** A user function, by identity. *)
Definition CallbackRef := nat.

(** [var Cue = function(callback, time, id, val)]. *)
Record Cue : Type := mkCue {
  cue_callback : CallbackRef;
  cue_time : Q;
  cue_id : nat;
  cue_val : jsval;
}.

(** What may sit in [elt.ontimeupdate]: the handle's bound
    [_onTimeUpdate], or some function installed by other code. *)
Inductive TimeUpdateHandler : Type :=
  | Bound_onTimeUpdate
  | ForeignHandler (f : CallbackRef).

(** A live track of a capture stream; [true] once [stop()] was called. *)
Record Track : Type := mkTrack { track_id : nat; track_stopped : bool }.

(** A [p5.MediaElement] together with the fields of its host node
    [this.elt] that the modelled methods touch.  [elt_duration = None] is
    the host's [NaN] (no media data yet); [presetPlaybackRate = None] and
    [elt_srcObject = None] stand for an absent property and [null]. *)
Record MediaElement : Type := mkMedia {
  elt_currentTime : Q;
  elt_duration : option Q;
  elt_readyState : nat;
  elt_playbackRate : Q;
  elt_ontimeupdate : option TimeUpdateHandler;
  elt_srcObject : option (list Track);
  _prevTime : Q;
  _cueIDCounter : nat;
  _cues : list Cue;
  loadedmetadata : bool;
  presetPlaybackRate : option Q;
}.

Definition set_cues (m : MediaElement) (cs : list Cue) : MediaElement :=
  mkMedia (elt_currentTime m) (elt_duration m) (elt_readyState m)
    (elt_playbackRate m) (elt_ontimeupdate m) (elt_srcObject m)
    (_prevTime m) (_cueIDCounter m) cs (loadedmetadata m)
    (presetPlaybackRate m).

Definition set_cueIDCounter (m : MediaElement) (n : nat) : MediaElement :=
  mkMedia (elt_currentTime m) (elt_duration m) (elt_readyState m)
    (elt_playbackRate m) (elt_ontimeupdate m) (elt_srcObject m)
    (_prevTime m) n (_cues m) (loadedmetadata m) (presetPlaybackRate m).

Definition set_ontimeupdate (m : MediaElement)
    (h : option TimeUpdateHandler) : MediaElement :=
  mkMedia (elt_currentTime m) (elt_duration m) (elt_readyState m)
    (elt_playbackRate m) h (elt_srcObject m)
    (_prevTime m) (_cueIDCounter m) (_cues m) (loadedmetadata m)
    (presetPlaybackRate m).

Definition set_prevTime (m : MediaElement) (t : Q) : MediaElement :=
  mkMedia (elt_currentTime m) (elt_duration m) (elt_readyState m)
    (elt_playbackRate m) (elt_ontimeupdate m) (elt_srcObject m)
    t (_cueIDCounter m) (_cues m) (loadedmetadata m)
    (presetPlaybackRate m).

Definition set_currentTime (m : MediaElement) (t : Q) : MediaElement :=
  mkMedia t (elt_duration m) (elt_readyState m)
    (elt_playbackRate m) (elt_ontimeupdate m) (elt_srcObject m)
    (_prevTime m) (_cueIDCounter m) (_cues m) (loadedmetadata m)
    (presetPlaybackRate m).

Definition set_playbackRate (m : MediaElement) (r : Q) : MediaElement :=
  mkMedia (elt_currentTime m) (elt_duration m) (elt_readyState m)
    r (elt_ontimeupdate m) (elt_srcObject m)
    (_prevTime m) (_cueIDCounter m) (_cues m) (loadedmetadata m)
    (presetPlaybackRate m).

Definition set_loadedmetadata (m : MediaElement) (b : bool) : MediaElement :=
  mkMedia (elt_currentTime m) (elt_duration m) (elt_readyState m)
    (elt_playbackRate m) (elt_ontimeupdate m) (elt_srcObject m)
    (_prevTime m) (_cueIDCounter m) (_cues m) b (presetPlaybackRate m).

Definition set_presetPlaybackRate (m : MediaElement)
    (p : option Q) : MediaElement :=
  mkMedia (elt_currentTime m) (elt_duration m) (elt_readyState m)
    (elt_playbackRate m) (elt_ontimeupdate m) (elt_srcObject m)
    (_prevTime m) (_cueIDCounter m) (_cues m) (loadedmetadata m) p.

(** The constructor [p5.MediaElement = function(elt, pInst)] around a
    fresh host node, followed by [c.loadedmetadata = false] of
    [createMedia]: position 0, rate 1, no handler, no stream. *)
Definition new_MediaElement : MediaElement :=
  mkMedia 0 None 0 1 None None 0 0 [] false None.

(** [p5.MediaElement.prototype.time] without argument. *)
Definition time (m : MediaElement) : Q := elt_currentTime m.

(** [addCue(time, callback, val)]: returns the id and the new state. *)
Definition addCue (m : MediaElement) (t : Q) (cb : CallbackRef)
    (v : jsval) : nat * MediaElement :=
  let id := _cueIDCounter m in
  let m1 := set_cueIDCounter m (S id) in
  let cue := mkCue cb t id v in
  let m2 := set_cues m1 (_cues m1 ++ [cue]) in
  let m3 := match elt_ontimeupdate m2 with
            | None => set_ontimeupdate m2 (Some Bound_onTimeUpdate)
            | Some _ => m2
            end in
  (id, m3).

(** The loop of [removeCue]:
    [for (i = 0; i < this._cues.length; i++)
       if (this._cues[i].id === id) this._cues.splice(i, 1);]
    [kept] holds the cues at indices below [i], [rest] those from [i] on.
    After a splice the tail moves down one place and [i++] then steps over
    the cue that took the removed one's place. *)
Fixpoint removeCue_loop (id : nat) (kept rest : list Cue) : list Cue :=
  match rest with
  | [] => kept
  | c :: rest' =>
      if cue_id c =? id then
        match rest' with
        | [] => kept
        | c' :: rest'' => removeCue_loop id (kept ++ [c']) rest''
        end
      else removeCue_loop id (kept ++ [c]) rest'
  end.

(** [removeCue(id)]; the [console.log(id)] of the loop is left out. *)
Definition removeCue (m : MediaElement) (id : nat) : MediaElement :=
  let m1 := set_cues m (removeCue_loop id [] (_cues m)) in
  match _cues m1 with
  | [] => set_ontimeupdate m1 None
  | _ :: _ => m1
  end.

(** [clearCues()]. *)
Definition clearCues (m : MediaElement) : MediaElement :=
  set_ontimeupdate (set_cues m []) None.

(** One invocation [callback(val)] of a cue's callback. *)
Definition Call : Type := CallbackRef * jsval.

(** What a cue's callback can do to the handle it is scheduled on while
    it runs: call [addCue], [removeCue] or [clearCues] on it. *)
Inductive Action : Type :=
  | CallAddCue (t : Q) (cb : CallbackRef) (v : jsval)
  | CallRemoveCue (id : nat)
  | CallClearCues.

(** One run of a callback: the calls it makes on the handle, in order,
    and whether it then raises an exception instead of returning. *)
Record Effect : Type := mkEffect {
  actions : list Action;
  raises : bool;
}.

(** The user's functions: what the callback does when called with the
    payload on the handle in the given state. *)
Definition UserCode : Type := CallbackRef → jsval → MediaElement → Effect.

(** A callback that returns normally and leaves the handle alone. *)
Definition inert : Effect := mkEffect [] false.

Definition perform (m : MediaElement) (a : Action) : MediaElement :=
  match a with
  | CallAddCue t cb v => (addCue m t cb v).2
  | CallRemoveCue id => removeCue m id
  | CallClearCues => clearCues m
  end.

(** The user code leaves the handle alone and returns, for the callbacks
    of these cues. *)
Definition quiet (user : UserCode) (cues : list Cue) : Prop :=
  ∀ c m, c ∈ cues → user (cue_callback c) (cue_val c) m = inert.

(** The test of [_onTimeUpdate]:
    [this._prevTime < callbackTime && callbackTime <= playbackTime]. *)
Definition cue_due (prev playbackTime : Q) (c : Cue) : bool :=
  num_lt prev (cue_time c) && num_le (cue_time c) playbackTime.

(** How a run of the handler ends: it returns, a callback raised (the
    exception leaves the handler), or the model's fuel gave out. *)
Inductive Ending : Type :=
  | Completed
  | Raised
  | Unfinished.

(** A run: the callback invocations made, the handle's state when the run
    ended, and how it ended. *)
Record Run : Type := mkRun {
  calls : list Call;
  state : MediaElement;
  ending : Ending;
}.

(** The loop of [_onTimeUpdate]:
    [for (var i = 0; i < this._cues.length; i++)
       if (this._prevTime < this._cues[i].time
           && this._cues[i].time <= playbackTime)
         this._cues[i].callback(this._cues[i].val);]
    [this._cues] and its length are read again on every round, so the
    loop sees what the callbacks did to the cue list: after a [removeCue]
    the cues behind the removed one have moved down, after [clearCues]
    the list is empty, after [addCue] it is longer.  An exception of a
    callback ends the loop and the handler. *)
Fixpoint onTimeUpdate_loop (user : UserCode) (fuel i : nat)
    (playbackTime : Q) (m : MediaElement) (log : list Call) : Run :=
  match _cues m !! i with
  | None => mkRun log m Completed
  | Some cue =>
      match fuel with
      | 0 => mkRun log m Unfinished
      | S fuel' =>
          if cue_due (_prevTime m) playbackTime cue then
            let effect := user (cue_callback cue) (cue_val cue) m in
            let m' := foldl perform m (actions effect) in
            let log' := log ++ [(cue_callback cue, cue_val cue)] in
            if raises effect then mkRun log' m' Raised
            else onTimeUpdate_loop user fuel' (S i) playbackTime m' log'
          else onTimeUpdate_loop user fuel' (S i) playbackTime m log
      end
  end.

(** [_onTimeUpdate()]: [this._prevTime = playbackTime] is reached only
    when the loop has run to its end. *)
Definition _onTimeUpdate (user : UserCode) (fuel : nat)
    (m : MediaElement) : Run :=
  let playbackTime := time m in
  let r := onTimeUpdate_loop user fuel 0 playbackTime m [] in
  match ending r with
  | Completed => mkRun (calls r) (set_prevTime (state r) playbackTime) Completed
  | Raised | Unfinished => r
  end.

(** The host's time-update notification: the playback position has become
    [t], and the function in [elt.ontimeupdate], if it is the handle's own,
    runs. *)
Definition timeupdate (user : UserCode) (fuel : nat) (m : MediaElement)
    (t : Q) : Run :=
  let m1 := set_currentTime m t in
  match elt_ontimeupdate m1 with
  | Some Bound_onTimeUpdate => _onTimeUpdate user fuel m1
  | _ => mkRun [] m1 Completed
  end.

(** The scheduler's operations as seen from outside, for statements about
    every state a handle can reach from its constructor. *)
Inductive CueOp : Type :=
  | OpAddCue (t : Q) (cb : CallbackRef) (v : jsval)
  | OpRemoveCue (id : nat)
  | OpClearCues
  | OpTimeUpdate (t : Q).

(** One operation on the handle; after a time-update the state is the
    one in which the handler returned, raised, or was when the fuel gave
    out. *)
Definition cue_step (user : UserCode) (fuel : nat) (m : MediaElement)
    (op : CueOp) : MediaElement :=
  match op with
  | OpAddCue t cb v => (addCue m t cb v).2
  | OpRemoveCue id => removeCue m id
  | OpClearCues => clearCues m
  | OpTimeUpdate t => state (timeupdate user fuel m t)
  end.

Definition cue_run (user : UserCode) (fuel : nat) (m : MediaElement)
    (ops : list CueOp) : MediaElement :=
  foldl (cue_step user fuel) m ops.

(** The calls made by a run of notifications, in order. *)
Fixpoint timeupdates (user : UserCode) (fuel : nat) (m : MediaElement)
    (ts : list Q) : list (list Call) :=
  match ts with
  | [] => []
  | t :: ts' =>
      let r := timeupdate user fuel m t in
      calls r :: timeupdates user fuel (state r) ts'
  end.

(** A subscription of the handle's own [_onTimeUpdate] is installed. *)
Definition subscribed (m : MediaElement) : Prop :=
  elt_ontimeupdate m = Some Bound_onTimeUpdate.

(** The scheduler is armed with cues, or idle without. *)
Definition sched_inv (m : MediaElement) : Prop :=
  (subscribed m ∧ _cues m ≠ []) ∨ (elt_ontimeupdate m = None ∧ _cues m = []).

(** The trigger time lies in the half-open window [(prev, cur]]. *)
Definition in_window (prev cur : Q) (c : Cue) : Prop :=
  (prev < cue_time c)%Q ∧ (cue_time c <= cur)%Q.

Global Instance in_window_dec prev cur c : Decision (in_window prev cur c).
Proof.
  unfold in_window.
  destruct (Qlt_le_dec prev (cue_time c)) as [Hlt | Hge].
  - destruct (Qlt_le_dec cur (cue_time c)) as [Hlt' | Hle].
    + right. intros [_ H]. exact (Qlt_not_le _ _ Hlt' H).
    + left. split; assumption.
  - right. intros [H _]. exact (Qle_not_lt _ _ Hge H).
Defined.

(** *** Playback rate *)

(** [speed()] without argument:
    [this.presetPlaybackRate || this.elt.playbackRate]; an absent preset
    is [undefined], and a preset of 0 is falsy as well. *)
Definition speed_get (m : MediaElement) : Q :=
  match presetPlaybackRate m with
  | Some p => if num_truthy p then p else elt_playbackRate m
  | None => elt_playbackRate m
  end.

(** [speed(val)] with a number. *)
Definition speed_set (m : MediaElement) (val : Q) : MediaElement :=
  if loadedmetadata m
  then set_playbackRate m val
  else set_presetPlaybackRate m (Some val).

(** The [loadedmetadata] listener installed by [createMedia]
    ([createVideo], [createAudio]); the width and height copies are not
    part of the model. *)
Definition createMedia_onloadedmetadata (c : MediaElement) : MediaElement :=
  let c1 :=
    match presetPlaybackRate c with
    | Some p =>
        if num_truthy p
        then set_presetPlaybackRate (set_playbackRate c p) None
        else c
    | None => c
    end in
  set_loadedmetadata c1 true.

(** The [loadedmetadata] listener installed by [createCapture]: it starts
    playback, copies the size and sets the flag; it does not look at
    [presetPlaybackRate]. *)
Definition createCapture_onloadedmetadata (c : MediaElement) : MediaElement :=
  set_loadedmetadata c true.

(** *** play() *)

(** Calls made on the host node. *)
Inductive HostCall : Type :=
  | HostLoad
  | HostPlay.

(** [this.elt.currentTime === this.elt.duration]; a [NaN] duration is
    equal to nothing. *)
Definition at_end (m : MediaElement) : bool :=
  match elt_duration m with
  | Some d => num_eq (elt_currentTime m) d
  | None => false
  end.

(** The synchronous part of [play()]: the host calls in order and the
    state; the method then returns [this]. *)
Definition play (m : MediaElement) : list HostCall * MediaElement :=
  let m1 := if at_end m then set_currentTime m 0 else m in
  if 1 <? elt_readyState m1
  then ([HostPlay], m1)
  else ([HostLoad; HostPlay], m1).

(** What the host's [play()] handed back: nothing (old hosts), or a
    promise that is later fulfilled or rejected with an error of the given
    [name]. *)
Inductive PlayPromise : Type :=
  | NoPromise
  | Fulfilled
  | Rejected (name : string).

(** The [this] of a function call: [undefined], or an object whose [src]
    property reads as given. *)
Inductive ThisArg : Type :=
  | ThisUndefined
  | ThisObject (src : jsval).

(** What the rejection handler does. *)
Inductive CatchOutcome : Type :=
  | FriendlyAutoplayError (src : jsval)
  | ConsoleError (name : string)
  | ThrewTypeError.

(** The handler [function(e) { ... }] passed to [promise.catch].  It is
    an ordinary function, so [this] inside it is whatever its caller
    supplies; reading [this.src] on [undefined] raises a [TypeError]. *)
Definition play_catch (this : ThisArg) (e_name : string) : CatchOutcome :=
  if String.eqb e_name "NotAllowedError" then
    match this with
    | ThisUndefined => ThrewTypeError
    | ThisObject src => FriendlyAutoplayError src
    end
  else ConsoleError e_name.

(** The promise machinery runs a reaction handler with [this] undefined,
    and the file is an ES module, hence strict code: [this] stays
    undefined in the handler. *)
Definition play_settled (p : PlayPromise) : option CatchOutcome :=
  match p with
  | Rejected name => Some (play_catch ThisUndefined name)
  | NoPromise | Fulfilled => None
  end.

End Media.

(** ** The registry of handles and removal *)

(** An entry of [pInst._elements]: a [p5.Element] (held by reference), or
    a bare host node: the select capability pushes its option nodes
    unwrapped. *)
Inductive RegEntry : Type :=
  | Wrapped (h : nat)
  | RawNode (n : nat).

Global Instance RegEntry_eq_dec : EqDecision RegEntry.
Proof. solve_decision. Defined.

Module Element.

Import Media.

(** A handle with the part of its host node that [remove] touches.
    [is_media] is [this instanceof p5.MediaElement], [is_canvas] is
    [this.elt instanceof HTMLCanvasElement]; [_events] is the handle's
    table of bound handlers, [listeners] the host node's listener list. *)
Record Handle : Type := mkHandle {
  is_media : bool;
  is_canvas : bool;
  srcObject : option (list Track);
  _events : gmap string CallbackRef;
  listeners : list (string * CallbackRef);
  parentNode : option nat;
}.

(** The runtime instance: its objects by reference, the bare nodes still
    attached to a parent, and the registry. *)
Record World : Type := mkWorld {
  handles : gmap nat Handle;
  attached_raw : gset nat;
  _elements : list RegEntry;
}.

(** How a call ends: it returns, or it raises an exception; either way
    the world is the one the call leaves behind. *)
Inductive Outcome : Type :=
  | Returned (w : World)
  | Threw (error : string) (w : World)
  | OutOfFuel.

(** [track.stop()]. *)
Definition stop (t : Track) : Track := mkTrack (track_id t) true.

(** [Array.prototype.indexOf] on the registry. *)
Definition indexOf (l : list RegEntry) (x : RegEntry) : option nat :=
  fst <$> list_find (λ y, y = x) l.

(** [elt.removeEventListener(ev, this._events[ev])] for every [ev]. *)
Definition deregister (events : gmap string CallbackRef)
    (ls : list (string * CallbackRef)) : list (string * CallbackRef) :=
  List.filter (λ l, negb (bool_decide (events !! l.1 = Some l.2))) ls.

(** [p5.Element.prototype.remove]. *)
Definition remove (w : World) (this : nat) : Outcome :=
  match handles w !! this with
  | None => Threw "ReferenceError" w
  | Some h =>
      let stopped :=
        if is_media h then
          match srcObject h with
          | None => None
          | Some tracks => Some (Some (stop <$> tracks))
          end
        else Some (srcObject h) in
      match stopped with
      | None => Threw "TypeError" w
      | Some src =>
          let elements :=
            match indexOf (_elements w) (Wrapped this) with
            | Some index => delete index (_elements w)
            | None => _elements w
            end in
          let h' := mkHandle (is_media h) (is_canvas h) src (_events h)
                      (deregister (_events h) (listeners h)) None in
          Returned (mkWorld (<[this := h']> (handles w)) (attached_raw w)
                      elements)
      end
  end.

(** [node.remove()] of the host on a bare node. *)
Definition host_remove (w : World) (n : nat) : World :=
  mkWorld (handles w) (attached_raw w ∖ {[n]}) (_elements w).

(** The loop of [removeElements]; the bound [this._elements.length] is
    read again on every round. *)
Fixpoint removeElements_loop (fuel i : nat) (w : World) : Outcome :=
  match _elements w !! i with
  | None => Returned w
  | Some entry =>
      match fuel with
      | 0 => OutOfFuel
      | S fuel' =>
          match entry with
          | RawNode n => removeElements_loop fuel' (S i) (host_remove w n)
          | Wrapped h =>
              match handles w !! h with
              | None => Threw "ReferenceError" w
              | Some hd =>
                  if is_canvas hd then removeElements_loop fuel' (S i) w
                  else
                    match remove w h with
                    | Returned w' => removeElements_loop fuel' (S i) w'
                    | other => other
                    end
              end
          end
      end
  end.

(** [p5.prototype.removeElements]. *)
Definition removeElements (w : World) : Outcome :=
  removeElements_loop (length (_elements w)) 0 w.

(** [addElement(elt, pInst, media)]: the node is appended to the page and
    the new handle is pushed on the registry. *)
Definition addElement (w : World) (ref parent : nat) (media canvas : bool)
    : World :=
  mkWorld (<[ref := mkHandle media canvas None ∅ [] (Some parent)]> (handles w))
    (attached_raw w) (_elements w ++ [Wrapped ref]).

End Element.

(** ** The wrap-and-augment dispatcher *)

Module Dispatch.

(** A host node as the dispatcher sees it: tag, input type, children. *)
#[warnings="-register-all"]
Inductive Node : Type :=
  | mkNode (tag : string) (input_type : string) (kids : list Node).

Definition tagName (n : Node) : string :=
  match n with mkNode t _ _ => t end.
Definition type (n : Node) : string :=
  match n with mkNode _ ty _ => ty end.
Definition children (n : Node) : list Node :=
  match n with mkNode _ _ ks => ks end.

(** The capability attached to the returned handle. *)
Inductive Capability : Type :=
  | Checkbox
  | MediaHandle
  | Select
  | RadioGroup
  | PlainElement.

(** A handle: its capability and the host node it wraps ([.elt]). *)
Record Handle : Type := mkHandle { capability : Capability; elt : Node }.

(** [new p5.Element(elt, this)] and [new p5.MediaElement(elt, this)]. *)
Definition new_Element (elt : Node) : Handle := mkHandle PlainElement elt.
Definition new_MediaElement (elt : Node) : Handle := mkHandle MediaHandle elt.

(** [createSelect(arg)] called with a handle: the handle is kept when its
    node is a select ([arg.elt.nodeName === 'SELECT']), otherwise a new
    select node is created. *)
Definition createSelect (arg : Handle) : Handle :=
  if String.eqb (tagName (elt arg)) "SELECT"
  then mkHandle Select (elt arg)
  else mkHandle Select (mkNode "SELECT" "select-one" []).

(** [createRadio(existing_radios)] called with a handle
    ([typeof existing_radios === 'object']): the handle is kept. *)
Definition createRadio (existing_radios : Handle) : Handle :=
  mkHandle RadioGroup (elt existing_radios).

(** The callback of [children.every(...)]. *)
Definition input_or_label (c : Node) : bool :=
  String.eqb (tagName c) "INPUT" || String.eqb (tagName c) "LABEL".

(** [p5.prototype._wrapElement]. *)
Definition _wrapElement (elt : Node) : Handle :=
  let children := children elt in
  if String.eqb (tagName elt) "INPUT" && String.eqb (type elt) "checkbox" then
    mkHandle Checkbox elt
  else if String.eqb (tagName elt) "VIDEO" || String.eqb (tagName elt) "AUDIO" then
    new_MediaElement elt
  else if String.eqb (tagName elt) "SELECT" then
    createSelect (new_Element elt)
  else if (0 <? length children) && forallb input_or_label children then
    createRadio (new_Element elt)
  else
    new_Element elt.

End Dispatch.

(** ** The select capability *)

(** Conversion of a value assigned to a host string attribute. *)
Definition to_DOMString (v : jsval) : string :=
  match v with
  | JUndefined => "undefined"
  | JNull => "null"
  | JBool true => "true"
  | JBool false => "false"
  | JStr s => s
  end.

(** The same for [innerHTML], where [null] becomes the empty string. *)
Definition to_innerHTML (v : jsval) : string :=
  match v with
  | JNull => ""
  | _ => to_DOMString v
  end.

Module SelectCap.

(** An option node of the select: its identity, what its [innerHTML]
    reads, and its value. *)
Record OptionNode : Type := mkOption {
  node : nat;
  innerHTML : string;
  value : string;
}.

(** The select handle's world: the option children of its node (what
    [this.elt[i]] indexes), the document's supply of fresh nodes, and the
    registry. *)
Record World : Type := mkWorld {
  options : list OptionNode;
  next_node : nat;
  _elements : list RegEntry;
}.

(** A fresh select in a document that has handed out [n] nodes. *)
Definition empty_select (n : nat) : World := mkWorld [] n [].

(** The host's serialisation of a text node, as [innerHTML] gives it:
    [&], [<] and [>] are written as character references. *)
Fixpoint escape_text (s : string) : string :=
  match s with
  | EmptyString => EmptyString
  | String c s' =>
      (if String.eqb (String c EmptyString) "&" then "&amp;"
       else if String.eqb (String c EmptyString) "<" then "&lt;"
       else if String.eqb (String c EmptyString) ">" then "&gt;"
       else String c EmptyString) +:+ escape_text s'
  end.

Section Host.

(** What [innerHTML] reads after [s] was assigned to it: the host parses
    [s] as markup and serialises the resulting nodes.  Where [s] is parsed
    as plain text (it has no [<] and no character reference) this is
    [escape_text s]. *)
Variable readback : string → string.

(** [self.option = function(name, value)]; [value = None] is a call with
    one argument, where [value] reads as [undefined]. *)
Definition self_option (w : World) (name : string)
    (value_arg : Datatypes.option jsval) : World :=
  let v := default JUndefined value_arg in
  match list_find (λ o, innerHTML o = name) (options w) with
  | Some (index, o) =>
      if strict_eq v (JBool false) then
        mkWorld (delete index (options w)) (next_node w) (_elements w)
      else if String.eqb (innerHTML o) (value o) then
        mkWorld (<[index := mkOption (node o) (readback (to_innerHTML v))
                              (to_DOMString v)]>
                   (options w))
          (next_node w) (_elements w)
      else
        mkWorld (<[index := mkOption (node o) (innerHTML o) (to_DOMString v)]>
                   (options w))
          (next_node w) (_elements w)
  | None =>
      let opt :=
        mkOption (next_node w) (readback name)
          match value_arg with
          | Some v' => to_DOMString v'
          | None => name
          end in
      mkWorld (options w ++ [opt]) (S (next_node w))
        (_elements w ++ [RawNode (node opt)])
  end.

(** A sequence of [option] calls. *)
Definition option_calls (w : World)
    (calls : list (string * Datatypes.option jsval)) : World :=
  foldl (λ w c, self_option w c.1 c.2) w calls.

End Host.

(** [o], at index [i], is the first option whose [innerHTML] reads
    [name]. *)
Definition first_match (opts : list OptionNode) (name : string)
    (i : nat) (o : OptionNode) : Prop :=
  opts !! i = Some o ∧ innerHTML o = name
  ∧ ∀ j o', opts !! j = Some o' → j < i → innerHTML o' ≠ name.

(** The option nodes are distinct and were handed out by the document. *)
Definition wf (w : World) : Prop :=
  NoDup (node <$> options w) ∧ Forall (λ o, node o < next_node w) (options w).

(** Node [k] was handed out earlier and is not among the options. *)
Definition gone (k : nat) (w : World) : Prop :=
  k < next_node w ∧ k ∉ node <$> options w.

End SelectCap.

(** ** The radio-group capability *)

Module RadioCap.

(** A child of the group's container: an input or a label (or anything
    else found there), with what the host reads for its [type] and [name]
    (the empty string where there is none). *)
Record Child : Type := mkChild {
  tagName : string;
  type : string;
  name : string;
  value : string;
  checked : bool;
}.

(** What a method hands back: the handle itself (chaining), or a value. *)
Inductive Ret : Type :=
  | RetThis
  | RetValue (v : jsval).

(** [self._getInputChildrenArray]. *)
Definition _getInputChildrenArray (children : list Child) : list Child :=
  List.filter (λ c, String.eqb (tagName c) "INPUT") children.

Definition set_checked (c : Child) (b : bool) : Child :=
  mkChild (tagName c) (type c) (name c) (value c) b.

(** The host's radio button groups: two children are buttons of one group
    when both are inputs of type [radio] and carry the same non-empty
    name; the children of one container are taken to have the same form
    owner.  (The inputs made by [option] all carry the group's name.
    Buttons of the group outside the container are not part of the
    model.) *)
Definition is_radio (c : Child) : bool :=
  String.eqb (tagName c) "INPUT" && String.eqb (type c) "radio".

Definition same_group (a b : Child) : bool :=
  is_radio a && is_radio b
  && negb (String.eqb (name a) "") && String.eqb (name a) (name b).

(** The host's part in [c.checked = true]: the other buttons of the group
    of [c] lose their mark. *)
Definition uncheck_group (c : Child) (others : list Child) : list Child :=
  (λ d, if same_group c d then set_checked d false else d) <$> others.

(** The test of the writing loop on a child [c] that is in
    [inputChildren]: [c.value === value]. *)
Definition matches (v : jsval) (c : Child) : bool :=
  String.eqb (tagName c) "INPUT" && strict_eq (JStr (value c)) v.

(** The writing loop,
    [for (i = 0; i < inputChildren.length; i++)
       if (inputChildren[i].value === value) inputChildren[i].checked = true;]
    over the container's children in order, the ones that are not inputs
    being passed over: [done] are the children behind the loop's position,
    [todo] those from it on, [rounds] the rounds left.  The array holds
    the container's own nodes, so the container sees each assignment, and
    so does the host, which unchecks the other buttons of the group at
    once. *)
Fixpoint check_loop (v : jsval) (rounds : nat)
    (done todo : list Child) : list Child :=
  match rounds, todo with
  | S rounds', c :: todo' =>
      if matches v c then
        check_loop v rounds' (uncheck_group c done ++ [set_checked c true])
          (uncheck_group c todo')
      else check_loop v rounds' (done ++ [c]) todo'
  | _, _ => done ++ todo
  end.

(** One round for every child. *)
Definition check_matching (v : jsval) (children : list Child) : list Child :=
  check_loop v (length children) [] children.

(** [e] is an input child with the value [v], and [d] is a button of its
    group: the assignment to [e] takes the mark off [d]. *)
Definition rival (v : jsval) (d e : Child) : bool :=
  matches v e && same_group e d.

(** The reading loop: the value of the first checked input, if any. *)
Definition first_checked (inputChildren : list Child) : Datatypes.option string :=
  value <$> List.find (λ c, Bool.eqb (checked c) true) inputChildren.

(** [self.selected = function(value)]; [None] is a call without
    argument. *)
Definition self_selected (children : list Child)
    (value_arg : Datatypes.option jsval) : Ret * list Child :=
  let v := default JUndefined value_arg in
  let inputChildren := _getInputChildrenArray children in
  if truthy v then (RetThis, check_matching v children)
  else
    match first_checked inputChildren with
    | Some s => (RetValue (JStr s), children)
    | None => (RetValue JUndefined, children)
    end.

(** [self.value = function(value)]. *)
Definition self_value (children : list Child)
    (value_arg : Datatypes.option jsval) : Ret * list Child :=
  let v := default JUndefined value_arg in
  let inputChildren := _getInputChildrenArray children in
  if truthy v then (RetThis, check_matching v children)
  else
    match first_checked inputChildren with
    | Some s => (RetValue (JStr s), children)
    | None => (RetValue (JStr ""), children)
    end.

End RadioCap.

(** ** More on the registry *)

Module Cleanup.

Import Element.

(** [this._elements[i].elt instanceof HTMLCanvasElement] for a handle. *)
Definition canvas_in (w : World) (h : nat) : bool :=
  match handles w !! h with
  | Some hd => is_canvas hd
  | None => false
  end.

(** [tracks.forEach(track => track.stop())] on a stream, if any. *)
Definition stop_all (src : option (list Media.Track))
    : option (list Media.Track) :=
  match src with
  | Some tracks => Some (stop <$> tracks)
  | None => None
  end.

(** A handle on which [remove] gets past its first statement: not a media
    handle, or one with a stream. *)
Definition removable (hd : Handle) : Prop :=
  is_media hd = true → srcObject hd ≠ None.

(** The handles an index walk leaves behind on a registry from which
    every visited handle that is not a canvas cuts itself out: the handle
    after a removed one takes its index and is stepped over. *)
Fixpoint survivors (canvas : nat → bool) (hs : list nat) : list nat :=
  match hs with
  | [] => []
  | h :: rest =>
      if canvas h then h :: survivors canvas rest
      else
        match rest with
        | [] => []
        | h' :: rest' => h' :: survivors canvas rest'
        end
  end.

End Cleanup.

(** ** More on the cue scheduler *)

Module CueIds.

Import Media.

(** The cue ids are distinct and were all handed out by the counter. *)
Definition cue_ids_inv (m : MediaElement) : Prop :=
  NoDup (cue_id <$> _cues m)
  ∧ Forall (λ c, cue_id c < _cueIDCounter m) (_cues m).

End CueIds.

(** ** attribute() and removeAttribute() *)

Module Attributes.

(** A node of [elt.childNodes]: an element with its tag and its
    attributes, or a node that is no element (a text node, a comment).
    Attributes are stored under the name the host keeps them by. *)
Inductive ChildNode : Type :=
  | ElementChild (tag : string) (attrs : gmap string string)
  | TextChild (data : string).

(** The host node: its own attributes and its child nodes. *)
Record Elt : Type := mkElt {
  own : gmap string string;
  childNodes : list ChildNode;
}.

(** The host folds the name of an attribute of an HTML element to lower
    case (the letters A to Z only) before it looks it up or stores it. *)
Definition lower_ascii (c : Ascii.ascii) : Ascii.ascii :=
  let n := Ascii.nat_of_ascii c in
  if (65 <=? n) && (n <=? 90) then Ascii.ascii_of_nat (n + 32) else c.

Fixpoint lower (s : string) : string :=
  match s with
  | EmptyString => EmptyString
  | String c s' => String (lower_ascii c) (lower s')
  end.

(** The keywords of an input's [type]. *)
Definition input_types : list string :=
  ["hidden"; "text"; "search"; "tel"; "url"; "email"; "password"; "date";
   "month"; "week"; "time"; "datetime-local"; "number"; "range"; "color";
   "checkbox"; "radio"; "file"; "submit"; "image"; "reset"; "button"].

(** The [type] property of an input: its [type] attribute folded to a
    keyword, ["text"] when the attribute is absent or no keyword; of the
    elements with other tags used here (labels, divs, spans), which have
    no such property: [undefined]. *)
Definition input_type_property (tag : string)
    (attrs : gmap string string) : option string :=
  if String.eqb tag "INPUT" then
    match attrs !! "type" with
    | Some t => if bool_decide (lower t ∈ input_types) then Some (lower t)
                else Some "text"
    | None => Some "text"
    end
  else None.

(** What a call hands back: the handle, nothing, or the attribute read
    ([None] is [null]). *)
Inductive Ret : Type :=
  | RetThis
  | RetUndefined
  | RetAttr (v : option string).

(** A call returns, or raises a [TypeError] (a call of a method the node
    does not have), or an [InvalidCharacterError] (the host refuses the
    attribute name); either way the node is left in some state. *)
Inductive Outcome : Type :=
  | Returned (r : Ret) (e : Elt)
  | ThrewTypeError (e : Elt)
  | ThrewInvalidCharacterError (e : Elt).

(** How a loop over the child nodes ends. *)
Inductive LoopEnd : Type :=
  | LoopDone
  | LoopTypeError
  | LoopInvalidCharacterError.

(** [firstChild.type === 'checkbox' || firstChild.type === 'radio']. *)
Definition is_option_type (t : option string) : bool :=
  match t with
  | Some s => String.eqb s "checkbox" || String.eqb s "radio"
  | None => false
  end.

Section Host.

(** Whether the host takes the string for an attribute name in
    [setAttribute]. *)
Variable valid_name : string → bool.

(** The host's [type] property of an element with this tag and these
    attributes; [None] is [undefined]. *)
Variable type_property : string → gmap string string → option string.

(** [this.elt.firstChild != null && (this.elt.firstChild.type ===
    'checkbox' || this.elt.firstChild.type === 'radio')]; a first child
    that is no element has no [type]. *)
Definition option_container (e : Elt) : bool :=
  match childNodes e with
  | ElementChild tag attrs :: _ => is_option_type (type_property tag attrs)
  | _ => false
  end.

(** The host's [setAttribute], [getAttribute] and [removeAttribute] on
    the attributes of an element. *)
Definition host_setAttribute (attrs : gmap string string)
    (name v : string) : option (gmap string string) :=
  if valid_name name then Some (<[lower name := v]> attrs) else None.

Definition host_getAttribute (attrs : gmap string string)
    (name : string) : option string :=
  attrs !! lower name.

Definition host_removeAttribute (attrs : gmap string string)
    (name : string) : gmap string string :=
  delete (lower name) attrs.

(** [for (i ...) this.elt.childNodes[i].setAttribute(attr, value)]: a
    node that is no element has no [setAttribute], and the call on it
    raises; the nodes before it have been changed by then. *)
Fixpoint set_on_children (attr v : string) (cs : list ChildNode)
    : LoopEnd * list ChildNode :=
  match cs with
  | [] => (LoopDone, [])
  | ElementChild tag attrs :: cs' =>
      match host_setAttribute attrs attr v with
      | Some attrs' =>
          let r := set_on_children attr v cs' in
          (r.1, ElementChild tag attrs' :: r.2)
      | None => (LoopInvalidCharacterError, cs)
      end
  | TextChild d :: cs' => (LoopTypeError, cs)
  end.

(** The same loop with [removeAttribute(attr)]. *)
Fixpoint remove_on_children (attr : string) (cs : list ChildNode)
    : LoopEnd * list ChildNode :=
  match cs with
  | [] => (LoopDone, [])
  | ElementChild tag attrs :: cs' =>
      let r := remove_on_children attr cs' in
      (r.1, ElementChild tag (host_removeAttribute attrs attr) :: r.2)
  | TextChild d :: cs' => (LoopTypeError, cs)
  end.

(** [firstChild.getAttribute(attr)] in the branch for option containers,
    where the first child is an element. *)
Definition first_child_attribute (attr : string) (e : Elt) : option string :=
  match childNodes e with
  | ElementChild _ attrs :: _ => host_getAttribute attrs attr
  | _ => None
  end.

(** [p5.Element.prototype.attribute]; [value = JUndefined] is a call
    with one argument. *)
Definition attribute (e : Elt) (attr : string) (value : jsval) : Outcome :=
  if option_container e then
    match value with
    | JUndefined => Returned (RetAttr (first_child_attribute attr e)) e
    | _ =>
        let r := set_on_children attr (to_DOMString value) (childNodes e) in
        match r.1 with
        | LoopDone => Returned RetUndefined (mkElt (own e) r.2)
        | LoopTypeError => ThrewTypeError (mkElt (own e) r.2)
        | LoopInvalidCharacterError =>
            ThrewInvalidCharacterError (mkElt (own e) r.2)
        end
    end
  else
    match value with
    | JUndefined => Returned (RetAttr (host_getAttribute (own e) attr)) e
    | _ =>
        match host_setAttribute (own e) attr (to_DOMString value) with
        | Some own' => Returned RetThis (mkElt own' (childNodes e))
        | None => ThrewInvalidCharacterError e
        end
    end.

(** [p5.Element.prototype.removeAttribute]. *)
Definition removeAttribute (e : Elt) (attr : string) : Outcome :=
  if option_container e then
    let r := remove_on_children attr (childNodes e) in
    match r.1 with
    | LoopDone =>
        Returned RetThis (mkElt (host_removeAttribute (own e) attr) r.2)
    | _ => ThrewTypeError (mkElt (own e) r.2)
    end
  else
    Returned RetThis (mkElt (host_removeAttribute (own e) attr) (childNodes e)).

End Host.

Definition is_element (c : ChildNode) : Prop :=
  match c with
  | ElementChild _ _ => True
  | TextChild _ => False
  end.

(** The child with the attribute written, or removed. *)
Definition with_attr (k v : string) (c : ChildNode) : ChildNode :=
  match c with
  | ElementChild tag attrs => ElementChild tag (<[k := v]> attrs)
  | TextChild d => TextChild d
  end.

Definition without_attr (k : string) (c : ChildNode) : ChildNode :=
  match c with
  | ElementChild tag attrs => ElementChild tag (delete k attrs)
  | TextChild d => TextChild d
  end.

(** A host that takes every non-empty string for an attribute name. *)
Definition nonempty_name (n : string) : bool := negb (String.eqb n "").

(** The node of a checkbox as [createCheckbox] builds it: a container
    with an input of type checkbox and a label. *)
Definition checkbox_box : Elt :=
  mkElt {[ "title" := "t" ]}
    [ElementChild "INPUT" {[ "type" := "checkbox" ]}; ElementChild "LABEL" ∅].

End Attributes.

(** ** The select capability: selected() and disable() *)

Module SelectMore.

Import SelectCap.

(** The select node beyond its options: the [multiple] attribute
    ([None] when absent), the indices of the options whose selectedness is
    on, in order, the nodes of the disabled options, and the control's own
    [disabled] flag. *)
Record Select : Type := mkSelect {
  sel_options : list OptionNode;
  multiple_attr : option string;
  selection : list nat;
  disabled_options : gset nat;
  elt_disabled : bool;
}.

(** The host's [elt.selectedIndex = i]: option [i] alone is selected. *)
Definition set_selectedIndex (i : nat) : list nat := [i].

(** The host's [elt.value]: the value of the first selected option, or
    the empty string. *)
Definition elt_value (s : Select) : string :=
  match selection s with
  | i :: _ => default "" (value <$> sel_options s !! i)
  | [] => ""
  end.

(** The values of the host's [elt.selectedOptions]. *)
Definition selectedOptions_values (s : Select) : list string :=
  omap (λ i, value <$> sel_options s !! i) (selection s).

(** [value.toString()]: [undefined] and [null] have no methods. *)
Definition toString (v : jsval) : option string :=
  match v with
  | JUndefined | JNull => None
  | JBool _ => Some (to_DOMString v)
  | JStr s => Some s
  end.

Inductive Ret : Type :=
  | RetThis
  | RetUndefined
  | RetString (s : string)
  | RetArray (l : list string).

Inductive Outcome : Type :=
  | Returned (r : Ret) (s : Select)
  | ThrewTypeError (s : Select).

(** The loop of the setter, from index [i] on:
    [if (value.toString() === this.elt[i].value) this.elt.selectedIndex = i]. *)
Fixpoint selected_loop (v : string) (i : nat) (opts : list OptionNode)
    (sel : list nat) : list nat :=
  match opts with
  | [] => sel
  | o :: opts' =>
      selected_loop v (S i) opts'
        (if String.eqb v (value o) then set_selectedIndex i else sel)
  end.

(** [self.selected = function(value)] of [createSelect]; [None] is a
    call without argument.  [value.toString()] is evaluated in the loop
    body, so a select without options never evaluates it. *)
Definition self_selected (s : Select) (value_arg : option jsval) : Outcome :=
  match value_arg with
  | Some v =>
      match sel_options s with
      | [] => Returned RetThis s
      | _ :: _ =>
          match toString v with
          | None => ThrewTypeError s
          | Some str =>
              Returned RetThis
                (mkSelect (sel_options s) (multiple_attr s)
                   (selected_loop str 0 (sel_options s) (selection s))
                   (disabled_options s) (elt_disabled s))
          end
      end
  | None =>
      match multiple_attr s with
      | Some a =>
          if negb (String.eqb a "")
          then Returned (RetArray (selectedOptions_values s)) s
          else Returned (RetString (elt_value s)) s
      | None => Returned (RetString (elt_value s)) s
      end
  end.

(** The nodes of the options whose value is [v]. *)
Definition nodes_of_value (v : string) (opts : list OptionNode) : gset nat :=
  list_to_set (node <$> List.filter (λ o, String.eqb (value o) v) opts).

(** [self.disable = function(value)]; [None] is a call without
    argument. *)
Definition self_disable (s : Select) (value_arg : option jsval) : Ret * Select :=
  match value_arg with
  | Some (JStr v) =>
      (RetThis,
       mkSelect (sel_options s) (multiple_attr s) (selection s)
         (disabled_options s ∪ nodes_of_value v (sel_options s))
         (elt_disabled s))
  | None =>
      (RetThis,
       mkSelect (sel_options s) (multiple_attr s) (selection s)
         (disabled_options s) true)
  | Some _ => (RetUndefined, s)
  end.

End SelectMore.

(** ** The sources of a media node *)

Module MediaSrc.

Section Sources.

(** The host's resolution of a URL attribute against the document, and
    [window.location.href]. *)
Variable resolve : string → string.
Variable href : string.

(** The media node: the [src] content attribute of each child element
    and of the node itself ([None] when absent), and the handle's
    [modified] property. *)
Record MediaNode : Type := mkNode {
  children : list (option string);
  elt_src : option string;
  modified : bool;
}.

(** Reading a [src] property: the empty string when the attribute is
    absent, the resolved URL otherwise. *)
Definition read_src (attr : option string) : string :=
  match attr with
  | Some u => resolve u
  | None => ""
  end.

(** The loop of [createMedia]: one [source] child for each address;
    [src] is what is left of the argument after [src = src || ''] and the
    wrapping of a string in an array. *)
Definition createMedia_sources (src : list string) : MediaNode :=
  mkNode ((λ u, Some u) <$> src) None false.

(** The getter of [src]; reading [children[0].src] on a node without
    children raises a [TypeError], here [None]. *)
Definition get_src (m : MediaNode) : option string :=
  match children m with
  | [] => None
  | first :: _ =>
      let firstChildSrc := read_src first in
      let srcVal :=
        if String.eqb (read_src (elt_src m)) href then ""
        else read_src (elt_src m) in
      Some (if String.eqb firstChildSrc href then srcVal else firstChildSrc)
  end.

(** The loop of the setter over the live collection:
    [for (i = 0; i < self.elt.children.length; i++)
       self.elt.removeChild(self.elt.children[i]);]
    [kept] holds the children at indices below [i], [rest] those from [i]
    on; after a removal the next child takes index [i] and [i++] steps over
    it. *)
Fixpoint remove_children_loop (kept rest : list (option string))
    : list (option string) :=
  match rest with
  | [] => kept
  | _ :: rest' =>
      match rest' with
      | [] => kept
      | c' :: rest'' => remove_children_loop (kept ++ [c']) rest''
      end
  end.

(** The entries at the odd indices 1, 3, 5, ... *)
Fixpoint odd_indexed {A} (l : list A) : list A :=
  match l with
  | _ :: x :: l' => x :: odd_indexed l'
  | _ => []
  end.

(** The setter of [src]. *)
Definition set_src (m : MediaNode) (newValue : string) : MediaNode :=
  mkNode (remove_children_loop [] (children m) ++ [Some newValue])
    (Some newValue) true.

End Sources.

End MediaSrc.

(** ** The arguments of createCapture *)

Module Capture.

(** An argument of [createCapture]: a string, an object taken as
    constraints, [null] (an object too, for [typeof]), a function taken as
    callback, or anything else. *)
Inductive Arg : Type :=
  | ArgString (s : string)
  | ArgObject (constraints : nat)
  | ArgNull
  | ArgFunction (f : nat)
  | ArgOther.

(** The constraints handed to [getUserMedia]: the caller's object, or
    the pair of flags. *)
Inductive Constraints : Type :=
  | Given (constraints : nat)
  | Flags (video audio : bool).

(** The variables of the argument loop. *)
Record Parsed : Type := mkParsed {
  useVideo : bool;
  useAudio : bool;
  constraints : option nat;
  cb : option nat;
}.

(** One round of the loop; [p5.prototype.VIDEO] is ['video'],
    [p5.prototype.AUDIO] is ['audio']. *)
Definition parse_step (p : Parsed) (a : Arg) : Parsed :=
  match a with
  | ArgString s =>
      if String.eqb s "video"
      then mkParsed (useVideo p) false (constraints p) (cb p)
      else if String.eqb s "audio"
      then mkParsed false (useAudio p) (constraints p) (cb p)
      else p
  | ArgObject c => mkParsed (useVideo p) (useAudio p) (Some c) (cb p)
  | ArgNull => mkParsed (useVideo p) (useAudio p) None (cb p)
  | ArgFunction f => mkParsed (useVideo p) (useAudio p) (constraints p) (Some f)
  | ArgOther => p
  end.

Definition parse_arguments (args : list Arg) : Parsed :=
  foldl parse_step (mkParsed true true None None) args.

(** The argument is the string [s]. *)
Definition is_string (s : string) (a : Arg) : bool :=
  match a with
  | ArgString s' => String.eqb s' s
  | _ => false
  end.

(** The argument is an object or [null]. *)
Definition is_object (a : Arg) : bool :=
  match a with
  | ArgObject _ | ArgNull => true
  | _ => false
  end.

(** [if (!constraints) constraints = { video: useVideo, audio: useAudio }]. *)
Definition requested (args : list Arg) : Constraints :=
  let p := parse_arguments args in
  match constraints p with
  | Some c => Given c
  | None => Flags (useVideo p) (useAudio p)
  end.

End Capture.

(** ** Files *)

Module File.

(** [s.split('/')]: the pieces of [s] between slashes; never empty. *)
Fixpoint split_slash (s : string) : list string :=
  match s with
  | EmptyString => [""]
  | String c s' =>
      if String.eqb (String c "") "/" then "" :: split_slash s'
      else
        match split_slash s' with
        | piece :: pieces => String c piece :: pieces
        | [] => [String c ""]
        end
  end.

(** The host's file object, as far as the code reads it. *)
Record RawFile : Type := mkRaw {
  raw_type : string;
  raw_name : string;
  raw_size : nat;
}.

Section Loading.

(** The result of [JSON.parse] on a text, [None] where it raises a
    [SyntaxError]; the document the XML parser makes of a text. *)
Variable JSON : Type.
Variable XML : Type.
Variable JSON_parse : string → option JSON.
Variable parseFromString : string → XML.

(** What ends up in [data]. *)
Inductive Data : Type :=
  | DataUndefined
  | DataJSON (j : JSON)
  | DataXML (x : XML)
  | DataResult (result : string)
  | DataObjectURL.

(** A [p5.File]; [subtype] is [typeList[1]], [None] when it is
    [undefined]. *)
Record p5File : Type := mkFile {
  file : RawFile;
  type : string;
  subtype : option string;
  name : string;
  size : nat;
  data : Data;
}.

(** The constructor [p5.File = function(file, pInst)]. *)
Definition new_File (f : RawFile) : p5File :=
  let typeList := split_slash (raw_type f) in
  mkFile f (default "" (typeList !! 0)) (typeList !! 1)
    (raw_name f) (raw_size f) DataUndefined.

Definition set_data (p : p5File) (d : Data) : p5File :=
  mkFile (file p) (type p) (subtype p) (name p) (size p) d.

(** The [onload] handler of [p5.File._createLoader], run with the
    reader's result: the file handed to the callback, or [None] when the
    handler raises before calling it. *)
Definition loader_onload (theFile : RawFile) (result : string)
    : option p5File :=
  let p5file := new_File theFile in
  if String.eqb (raw_type (file p5file)) "application/json" then
    match JSON_parse result with
    | Some j => Some (set_data p5file (DataJSON j))
    | None => None
    end
  else if String.eqb (raw_type (file p5file)) "text/xml" then
    Some (set_data p5file (DataXML (parseFromString result)))
  else Some (set_data p5file (DataResult result)).

(** The way [p5.File._load] takes. *)
Inductive Route : Type :=
  | ReadAsText
  | ReadAsDataURL
  | ObjectURL.

(** The tests of [p5.File._load]: [/^text\//], [=== 'application/json'],
    [/^(video|audio)\//]. *)
Definition route (f : RawFile) : Route :=
  if String.prefix "text/" (raw_type f)
     || String.eqb (raw_type f) "application/json"
  then ReadAsText
  else if negb (String.prefix "video/" (raw_type f)
                || String.prefix "audio/" (raw_type f))
  then ReadAsDataURL
  else ObjectURL.

(** [p5.File._load(f, callback)]: the file the callback receives, given
    what the reader will read ([as_text], [as_data_url]); [None] when the
    callback is never called. *)
Definition _load (f : RawFile) (as_text as_data_url : string)
    : option p5File :=
  match route f with
  | ReadAsText => loader_onload f as_text
  | ReadAsDataURL => loader_onload f as_data_url
  | ObjectURL => Some (set_data (new_File f) DataObjectURL)
  end.

End Loading.

Arguments file {JSON XML} _.
Arguments type {JSON XML} _.
Arguments subtype {JSON XML} _.
Arguments name {JSON XML} _.
Arguments size {JSON XML} _.
Arguments data {JSON XML} _.
Arguments DataUndefined {JSON XML}.
Arguments DataResult {JSON XML} _.
Arguments DataObjectURL {JSON XML}.
Arguments DataJSON {JSON XML} _.
Arguments DataXML {JSON XML} _.

(** A string without slash. *)
Fixpoint slash_free (s : string) : bool :=
  match s with
  | EmptyString => true
  | String c s' => negb (String.eqb (String c "") "/") && slash_free s'
  end.

End File.

(** ** connect() and disconnect() *)

Module AudioRouting.

(** Where the source node of a media handle can be connected: the master
    output ([None]) or a node of the audio graph. *)
Definition Target : Type := option nat.

(** The argument of [connect]: an audio object with its node, its
    [context] property (present or not) and its [input] property, if it has
    one. *)
Record AudioObject : Type := mkAudio {
  node : nat;
  has_context : bool;
  input : option nat;
}.

(** The handle's [audioSourceNode]: absent, or a node with its set of
    outgoing connections (the host ignores a connection made twice). *)
Record Handle : Type := mkHandle {
  audioSourceNode : option (gset Target);
}.

Inductive Outcome : Type :=
  | Returned (h : Handle)
  | Threw (message : string).

(** [audioSourceNode.connect(t)]. *)
Definition connect_to (h : Handle) (t : Target) : Handle :=
  match audioSourceNode h with
  | Some cs => mkHandle (Some (cs ∪ {[t]}))
  | None => h
  end.

(** [p5.MediaElement.prototype.connect]; [sound] tells whether p5.sound
    is loaded ([typeof p5.prototype.getAudioContext === 'function']).
    Without it, reading [obj.context.destination] fails on a missing [obj]
    or context, and the [catch] raises the message. *)
Definition connect (sound : bool) (h : Handle) (obj : option AudioObject)
    : Outcome :=
  let context_found :=
    sound || match obj with
             | Some o => has_context o
             | None => false
             end in
  if negb context_found then
    Threw "connect() is meant to be used with Web Audio API or p5.sound.js"
  else
    let h1 :=
      match audioSourceNode h with
      | None => mkHandle (Some {[None]})
      | Some _ => h
      end in
    Returned
      match obj with
      | Some o =>
          match input o with
          | Some i => connect_to h1 (Some i)
          | None => connect_to h1 (Some (node o))
          end
      | None => connect_to h1 None
      end.

(** [p5.MediaElement.prototype.disconnect]. *)
Definition disconnect (h : Handle) : Outcome :=
  match audioSourceNode h with
  | Some _ => Returned (mkHandle (Some ∅))
  | None => Threw "nothing to disconnect"
  end.

(** The target [connect(obj)] aims at. *)
Definition target_of (obj : option AudioObject) : Target :=
  match obj with
  | Some o =>
      match input o with
      | Some i => Some i
      | None => Some (node o)
      end
  | None => None
  end.

End AudioRouting.

(** ** createRadio: the group name and option() *)

Module RadioCreate.

(** The [name] of a radio input found on the page: ['defaultradio' + k]
    as [createRadio] gives it, or another string, taken not to be of that
    form. *)
Inductive RadioName : Type :=
  | DefaultRadio (k : nat)
  | OtherName (s : string).

Global Instance RadioName_eq_dec : EqDecision RadioName.
Proof. solve_decision. Defined.

(** The counting loop of [createRadio], from index 1 on:
    [current = radios[i].name; if (prev !== current) count++; prev = current]. *)
Fixpoint count_loop (prev : RadioName) (rest : list RadioName)
    (count : nat) : nat :=
  match rest with
  | [] => count
  | current :: rest' =>
      count_loop current rest' (if decide (prev = current) then count else S count)
  end.

(** The [count] of [createRadio] from the names of the radio inputs of
    the page, in document order. *)
Definition radio_count (radios : list RadioName) : nat :=
  match radios with
  | [] => 0
  | [_] => 1
  | prev :: rest => count_loop prev rest 1
  end.

(** A child of the group's container: a radio input with its [name],
    [value] and [id] (['defaultradio' + count + '-' + times], here the
    pair), or a label with its [htmlFor] and text. *)
Inductive RNode : Type :=
  | RadioInput (name : RadioName) (value : string) (id : option (nat * nat))
  | Label (htmlFor : nat * nat) (text : string).

(** The closure of a group: [count], [times + 1], and the children of
    its container. *)
Record Radio : Type := mkRadio {
  count : nat;
  next_times : nat;
  elt_children : list RNode;
}.

(** [createRadio()] on a page whose radio inputs have the given names:
    a new container, [times = -1]. *)
Definition createRadio (page_radios : list RadioName) : Radio :=
  mkRadio (radio_count page_radios) 0 [].

(** Conversion of what is assigned to the [value] of an input: the
    host takes [null] as the empty string there. *)
Definition to_input_value (v : jsval) : string :=
  match v with
  | JNull => ""
  | _ => to_DOMString v
  end.

(** [self.option = function(name, value)] of [createRadio]; an argument
    left out reads as [undefined]. *)
Definition self_option (r : Radio) (name value : jsval) : Radio :=
  let v := if truthy value then to_input_value value
           else to_input_value name in
  let group := DefaultRadio (count r) in
  if truthy name then
    let id := (count r, next_times r) in
    mkRadio (count r) (S (next_times r))
      (elt_children r ++ [RadioInput group v (Some id);
                          Label id (to_DOMString name)])
  else
    mkRadio (count r) (next_times r)
      (elt_children r ++ [RadioInput group v None]).

Definition option_calls (r : Radio) (calls : list (jsval * jsval)) : Radio :=
  foldl (λ r c, self_option r c.1 c.2) r calls.

(** The inputs among the children: their names, values and ids. *)
Definition input_names (cs : list RNode) : list RadioName :=
  omap (λ c, match c with RadioInput n _ _ => Some n | Label _ _ => None end) cs.

Definition input_values (cs : list RNode) : list string :=
  omap (λ c, match c with RadioInput _ v _ => Some v | Label _ _ => None end) cs.

Definition input_ids (cs : list RNode) : list (nat * nat) :=
  omap (λ c, match c with RadioInput _ _ i => i | Label _ _ => None end) cs.

(** The number of places where a name differs from the next one. *)
Definition transitions (l : list RadioName) : nat :=
  length (List.filter (λ p : RadioName * RadioName,
                         negb (bool_decide (p.1 = p.2)))
            (zip l (tail l))).

(** The names of a page made of groups, each with its name and its
    number of radio inputs. *)
Definition group_names (groups : list (RadioName * nat)) : list RadioName :=
  concat ((λ g : RadioName * nat, replicate g.2 g.1) <$> groups).

End RadioCreate.

(** ** autoplay() and its watchdog *)

Module Autoplay.

(** The media node and the host's timers, as far as [autoplay] and
    [_setupAutoplayFailDetection] are concerned: the [autoplay] content
    attribute, [readyState], the number of pending once-listeners for
    [canplay] (each sets up a detection), the timers that the pending
    once-listeners for [play] clear, the timers still running, the next
    timer id, and the number of warnings shown by
    [p5._friendlyAutoplayError]. *)
Record State : Type := mkState {
  autoplay_attr : option string;
  readyState : nat;
  canplay_once : nat;
  play_once : list nat;
  timers : list nat;
  next_timer : nat;
  warnings : nat;
}.

(** A media node just made. *)
Definition initial (readyState : nat) : State :=
  mkState None readyState 0 [] [] 0 0.

(** [_setupAutoplayFailDetection]: a timer of 500 ms that warns, and a
    once-listener for [play] that clears it. *)
Definition _setupAutoplayFailDetection (s : State) : State :=
  let timeout := next_timer s in
  mkState (autoplay_attr s) (readyState s) (canplay_once s)
    (play_once s ++ [timeout]) (timers s ++ [timeout]) (S timeout)
    (warnings s).

(** [!oldVal] for what [getAttribute] gives: [null] or a string. *)
Definition attr_falsy (a : option string) : bool :=
  match a with
  | None => true
  | Some str => String.eqb str ""
  end.

(** [p5.MediaElement.prototype.autoplay]. *)
Definition autoplay (s : State) (val : jsval) : State :=
  let oldVal := autoplay_attr s in
  let s1 := mkState (Some (to_DOMString val)) (readyState s) (canplay_once s)
              (play_once s) (timers s) (next_timer s) (warnings s) in
  if truthy val && attr_falsy oldVal then
    if readyState s1 =? 4 then _setupAutoplayFailDetection s1
    else mkState (autoplay_attr s1) (readyState s1) (S (canplay_once s1))
           (play_once s1) (timers s1) (next_timer s1) (warnings s1)
  else s1.

(** What the host does. *)
Inductive Event : Type :=
  | Canplay
  | Play
  | Timeout (timer : nat)
  | SetReadyState (n : nat).

(** The once-listeners for [canplay] run, one detection each. *)
Fixpoint run_canplay (n : nat) (s : State) : State :=
  match n with
  | 0 => s
  | S n' => run_canplay n' (_setupAutoplayFailDetection s)
  end.

(** The host delivers an event: [canplay] and [play] run their
    once-listeners and drop them, [clearTimeout] stops a timer, a timer
    that is still running when its time is up shows the warning. *)
Definition deliver (s : State) (e : Event) : State :=
  match e with
  | Canplay =>
      run_canplay (canplay_once s)
        (mkState (autoplay_attr s) (readyState s) 0 (play_once s) (timers s)
           (next_timer s) (warnings s))
  | Play =>
      mkState (autoplay_attr s) (readyState s) (canplay_once s) []
        (List.filter (λ t, negb (bool_decide (t ∈ play_once s))) (timers s))
        (next_timer s) (warnings s)
  | Timeout t =>
      if bool_decide (t ∈ timers s)
      then mkState (autoplay_attr s) (readyState s) (canplay_once s)
             (play_once s)
             (List.filter (λ t', negb (bool_decide (t' = t))) (timers s))
             (next_timer s) (S (warnings s))
      else s
  | SetReadyState n =>
      mkState (autoplay_attr s) n (canplay_once s) (play_once s) (timers s)
        (next_timer s) (warnings s)
  end.

(** A step of a session: a call of [autoplay], or an event. *)
Inductive Step : Type :=
  | Call (val : jsval)
  | Host (e : Event).

Definition step (s : State) (x : Step) : State :=
  match x with
  | Call val => autoplay s val
  | Host e => deliver s e
  end.

Definition run (s : State) (xs : list Step) : State := foldl step s xs.

(** The bookkeeping of a state, listed. *)
Definition books (s : State) (next canplay : nat) (running clearing : list nat)
    (shown : nat) : Prop :=
  next_timer s = next ∧ canplay_once s = canplay ∧ timers s = running
  ∧ play_once s = clearing ∧ warnings s = shown.

(** The phases of a session: nothing set up yet, with the attribute
    absent or set; waiting for [canplay]; the timer running; the timer
    cleared by [play]; the warning shown, before and after a [play]. *)
Definition phase (s : State) : Prop :=
  (autoplay_attr s = None ∧ books s 0 0 [] [] 0)
  ∨ (attr_falsy (autoplay_attr s) = false
     ∧ (books s 0 0 [] [] 0 ∨ books s 0 1 [] [] 0 ∨ books s 1 0 [0] [0] 0
        ∨ books s 1 0 [] [] 0 ∨ books s 1 0 [] [0] 1 ∨ books s 1 0 [] [] 1)).

End Autoplay.

(** * Properties *)

(** ** Numbers *)

Lemma num_lt_iff (a b : Q) : num_lt a b = true ↔ (a < b)%Q.
Proof. unfold num_lt, Qlt. apply Z.ltb_lt. Qed.

Lemma num_le_iff (a b : Q) : num_le a b = true ↔ (a <= b)%Q.
Proof. apply Qle_bool_iff. Qed.

Lemma num_eq_iff (a b : Q) : num_eq a b = true ↔ (a == b)%Q.
Proof. apply Qeq_bool_iff. Qed.

Lemma num_eq_false_iff (a b : Q) : num_eq a b = false ↔ ¬ (a == b)%Q.
Proof.
  rewrite <- num_eq_iff. destruct (num_eq a b); split; intros; congruence.
Qed.

(** ** The cue scheduler *)

Section CueScheduler.

Import Media.

Lemma cue_due_iff prev cur c :
  cue_due prev cur c = true ↔ in_window prev cur c.
Proof.
  unfold cue_due, in_window.
  rewrite andb_true_iff, num_lt_iff, num_le_iff. reflexivity.
Qed.

(** Where the callbacks of the due cues leave the handle alone and
    return, the loop calls back the due cues from index [i] on, and only
    them, in list order, and runs to its end. *)
Lemma onTimeUpdate_loop_due user cur m :
  (∀ c, c ∈ _cues m → in_window (_prevTime m) cur c →
        user (cue_callback c) (cue_val c) m = inert) →
  ∀ fuel i log, length (_cues m) ≤ i + fuel →
  onTimeUpdate_loop user fuel i cur m log
  = mkRun (log ++ ((λ c, (cue_callback c, cue_val c))
                     <$> filter (in_window (_prevTime m) cur)
                           (drop i (_cues m))))
      m Completed.
Proof.
  intros Hquiet.
  induction fuel as [| fuel IH]; intros i log Hlen; cbn [onTimeUpdate_loop].
  - rewrite lookup_ge_None_2 by lia. rewrite drop_ge by lia.
    rewrite filter_nil, fmap_nil, app_nil_r. reflexivity.
  - destruct (_cues m !! i) as [c |] eqn:Hi.
    + rewrite (drop_S _ _ _ Hi), filter_cons.
      destruct (cue_due (_prevTime m) cur c) eqn:Hdue.
      * apply cue_due_iff in Hdue. rewrite decide_True by assumption.
        rewrite (Hquiet c (list_elem_of_lookup_2 _ _ _ Hi) Hdue).
        cbn [inert actions raises foldl].
        rewrite IH by lia. rewrite fmap_cons, <- app_assoc. reflexivity.
      * rewrite decide_False
          by (intros Hw; apply cue_due_iff in Hw; congruence).
        apply IH. lia.
    + apply lookup_ge_None_1 in Hi. rewrite drop_ge by lia.
      rewrite filter_nil, fmap_nil, app_nil_r. reflexivity.
Qed.

(** No cue is due when the position moved backwards. *)
Lemma backward_window_empty prev cur cues :
  (cur < prev)%Q → filter (in_window prev cur) cues = [].
Proof.
  intros Hback. induction cues as [| c cues IH]; [reflexivity |].
  rewrite filter_cons, decide_False; [exact IH |].
  intros [Hlt Hle].
  apply (Qlt_irrefl prev).
  eapply Qlt_le_trans; [exact Hlt |].
  eapply Qle_trans; [exact Hle |]. apply Qlt_le_weak. exact Hback.
Qed.

(** The handler on a handle whose due callbacks leave it alone. *)
Lemma onTimeUpdate_due user fuel m :
  length (_cues m) ≤ fuel →
  (∀ c, c ∈ _cues m → in_window (_prevTime m) (elt_currentTime m) c →
        user (cue_callback c) (cue_val c) m = inert) →
  _onTimeUpdate user fuel m
  = mkRun ((λ c, (cue_callback c, cue_val c))
             <$> filter (in_window (_prevTime m) (elt_currentTime m)) (_cues m))
      (set_prevTime m (elt_currentTime m)) Completed.
Proof.
  intros Hfuel Hquiet. unfold _onTimeUpdate, time.
  rewrite (onTimeUpdate_loop_due user _ m Hquiet) by lia.
  rewrite drop_0. reflexivity.
Qed.

(** C1. On a time-update at position [currentTime] of a handle whose due
    cues have callbacks that return normally and make no call of [addCue],
    [removeCue] or [clearCues] on the handle, the callbacks invoked are
    exactly those of the cues whose trigger time [t] satisfies
    [previousTime < t <= currentTime], each with its payload, in the order
    of the cue list, which is the order of the [addCue] calls; the handler
    returns, and afterwards [previousTime] is [currentTime] and the cue
    list is untouched.  A backward update invokes nothing and sets
    [previousTime], whatever the callbacks would do. *)
Theorem onTimeUpdate_fires_window (user : UserCode) (fuel : nat)
    (m : MediaElement) :
  length (_cues m) ≤ fuel →
  let currentTime := elt_currentTime m in
  let r := _onTimeUpdate user fuel m in
  ((∀ c, c ∈ _cues m → in_window (_prevTime m) currentTime c →
         user (cue_callback c) (cue_val c) m = inert) →
   calls r = (λ c, (cue_callback c, cue_val c))
               <$> filter (in_window (_prevTime m) currentTime) (_cues m)
   ∧ ending r = Completed
   ∧ state r = set_prevTime m currentTime
   ∧ _prevTime (state r) = currentTime
   ∧ _cues (state r) = _cues m)
  ∧ (∀ t cb v,
       _cues (addCue m t cb v).2 = _cues m ++ [mkCue cb t (_cueIDCounter m) v])
  ∧ ((currentTime < _prevTime m)%Q →
     calls r = [] ∧ ending r = Completed ∧ _prevTime (state r) = currentTime
     ∧ _cues (state r) = _cues m).
Proof.
  intros Hfuel. cbn zeta.
  split; [| split].
  - intros Hquiet. rewrite (onTimeUpdate_due user fuel m Hfuel Hquiet).
    repeat split; reflexivity.
  - intros t cb v. unfold addCue. cbn. destruct (elt_ontimeupdate m); reflexivity.
  - intros Hback.
    assert (Hnone : filter (in_window (_prevTime m) (elt_currentTime m)) (_cues m) = [])
      by (apply backward_window_empty; exact Hback).
    rewrite (onTimeUpdate_due user fuel m Hfuel).
    + rewrite Hnone. repeat split; reflexivity.
    + intros c Hc Hw. exfalso.
      assert (Hin : c ∈ filter (in_window (_prevTime m) (elt_currentTime m)) (_cues m))
        by (apply list_elem_of_filter; split; assumption).
      rewrite Hnone in Hin. exact (not_elem_of_nil _ Hin).
Qed.

(** The same for a notification of the host at position [t], on a
    subscribed handle whose callbacks leave it alone. *)
Lemma timeupdate_fires_window user fuel (m : MediaElement) (t : Q) :
  quiet user (_cues m) → length (_cues m) ≤ fuel → subscribed m →
  timeupdate user fuel m t
  = mkRun ((λ c, (cue_callback c, cue_val c))
             <$> filter (in_window (_prevTime m) t) (_cues m))
      (set_prevTime (set_currentTime m t) t) Completed.
Proof.
  intros Hquiet Hfuel Hsub. unfold timeupdate.
  cbn [elt_ontimeupdate set_currentTime].
  unfold subscribed in Hsub. rewrite Hsub.
  rewrite onTimeUpdate_due; [reflexivity | exact Hfuel |].
  intros c Hc _. apply Hquiet. exact Hc.
Qed.

(** Cues at 0.5, 1 and 2.5 with callbacks that only return, and an
    update from position 0 to 1.2: the first two fire, in order. *)
Lemma onTimeUpdate_fires_window_witness :
  let user : UserCode := λ _ _ _, inert in
  let m := mkMedia (6 # 5) None 4 1 (Some Bound_onTimeUpdate) None 0 3
             [mkCue 10 (1 # 2) 0 (JStr "a"); mkCue 11 1 1 (JStr "b");
              mkCue 12 (5 # 2) 2 (JStr "c")] true None in
  calls (_onTimeUpdate user 3 m)
  = (λ c, (cue_callback c, cue_val c))
      <$> filter (in_window 0 (6 # 5)) (_cues m)
  ∧ _prevTime (state (_onTimeUpdate user 3 m)) = (6 # 5)%Q.
Proof.
  intros user m.
  assert (Hfuel : length (_cues m) ≤ 3) by (cbn; lia).
  destruct (proj1 (onTimeUpdate_fires_window user 3 m Hfuel))
    as (Hcalls & _ & _ & Hprev & _).
  - intros c _ _. reflexivity.
  - split; [exact Hcalls | exact Hprev].
Defined.

(** C1, the claim as the specification has it, fails where a callback
    calls back into the scheduler or raises.  A cue at 1 whose callback
    removes it (a one-shot cue) and a cue at 1.8, both due at an update
    from 0 to 2: the removal moves the second cue to index 0, the loop
    goes on at index 1, and the second callback is never invoked.  A cue
    whose callback raises: [previousTime] stays where it was. *)
Lemma onTimeUpdate_reentrant_callback :
  let user : UserCode := λ cb _ _,
    if cb =? 10 then mkEffect [CallRemoveCue 0] false
    else if cb =? 12 then mkEffect [] true
    else inert in
  let m := set_currentTime
             (addCue (addCue new_MediaElement 1 10 (JStr "a")).2
                (9 # 5) 11 (JStr "b")).2 2 in
  let m' := set_currentTime (addCue new_MediaElement 1 12 (JStr "c")).2 2 in
  (Forall (in_window (_prevTime m) (elt_currentTime m)) (_cues m)
   ∧ (cue_callback <$> _cues m) = [10; 11]
   ∧ calls (_onTimeUpdate user 2 m) = [(10, JStr "a")]
   ∧ ending (_onTimeUpdate user 2 m) = Completed)
  ∧ (ending (_onTimeUpdate user 1 m') = Raised
     ∧ _prevTime (state (_onTimeUpdate user 1 m')) = 0%Q
     ∧ elt_currentTime m' = 2%Q).
Proof.
  cbn zeta. split.
  - split; [| repeat split].
    repeat constructor; cbn; discriminate.
  - repeat split.
Qed.

(** Cues at 0.5, 1 and 2.5, added in the order 2.5, 0.5, 1, and the
    updates 0, 0.6, 1.2, 2.6: each cue fires once, at the first update that
    passes it. *)
Example cue_firing_sequence :
  let m1 := (addCue new_MediaElement (5 # 2) 12 (JStr "c")).2 in
  let m2 := (addCue m1 (1 # 2) 10 (JStr "a")).2 in
  let m3 := (addCue m2 1 11 (JStr "b")).2 in
  timeupdates (λ _ _ _, inert) 3 m3 [0; 6 # 10; 12 # 10; 26 # 10]%Q
  = [[]; [(10, JStr "a")]; [(11, JStr "b")]; [(12, JStr "c")]].
Proof. reflexivity. Qed.

(** Two cues passed by one update fire in the order they were added, not
    in the order of their times. *)
Example cue_firing_insertion_order :
  let m1 := (addCue new_MediaElement 1 11 (JStr "late")).2 in
  let m2 := (addCue m1 (1 # 2) 10 (JStr "early")).2 in
  timeupdates (λ _ _ _, inert) 2 m2 [2]%Q
  = [[(11, JStr "late"); (10, JStr "early")]].
Proof. reflexivity. Qed.

(** After a backward seek the window restarts at the new position. *)
Example cue_backward_seek :
  let m1 := (addCue new_MediaElement 1 11 JUndefined).2 in
  timeupdates (λ _ _ _, inert) 1 m1 [12 # 10; 3 # 10; 11 # 10]%Q
  = [[(11, JUndefined)]; []; [(11, JUndefined)]].
Proof. reflexivity. Qed.

(** A callback that adds a cue which is due at once is called again in
    the same run, and so on: the handler does not return. *)
Example cue_callback_adds_due_cue (fuel : nat) :
  let user : UserCode := λ _ _ _, mkEffect [CallAddCue 1 10 JUndefined] false in
  let m := (addCue new_MediaElement 1 10 JUndefined).2 in
  ending (timeupdate user fuel m 2) = Unfinished.
Proof.
  cbn zeta. unfold timeupdate. cbn [elt_ontimeupdate set_currentTime addCue snd
    new_MediaElement set_cues set_cueIDCounter set_ontimeupdate _cues
    _cueIDCounter].
  unfold _onTimeUpdate, time. cbn [elt_currentTime].
  match goal with
  | |- ending (match ending ?r with _ => _ end) = _ =>
      assert (H : ending r = Unfinished); [| destruct r as [l st []]; cbn in H |- *; congruence]
  end.
  assert (Hloop : ∀ fuel i n log extra,
            length extra = i →
            ending (onTimeUpdate_loop (λ _ _ _, mkEffect [CallAddCue 1 10 JUndefined] false)
                      fuel i 2
                      (mkMedia 2 None 0 1 (Some Bound_onTimeUpdate) None 0 n
                         (extra ++ [mkCue 10 1 (n - 1) JUndefined]) false None) log)
            = Unfinished).
  { clear. induction fuel as [| fuel IH]; intros i n log extra Hlen;
      cbn [onTimeUpdate_loop _cues].
    - rewrite lookup_app_r by lia. rewrite Hlen, Nat.sub_diag. reflexivity.
    - rewrite lookup_app_r by lia. rewrite Hlen, Nat.sub_diag.
      cbn [lookup list_lookup]. cbn [_prevTime cue_time].
      change (cue_due 0 2 (mkCue 10 1 (n - 1) JUndefined)) with true.
      cbn [actions raises foldl perform addCue snd set_cues set_cueIDCounter
           set_ontimeupdate _cues _cueIDCounter elt_ontimeupdate
           elt_currentTime elt_duration elt_readyState elt_playbackRate
           elt_srcObject _prevTime loadedmetadata presetPlaybackRate
           cue_callback cue_val].
      specialize (IH (S i) (S n) (log ++ [(10, JUndefined)])
                    (extra ++ [mkCue 10 1 (n - 1) JUndefined])).
      rewrite Nat.sub_succ, Nat.sub_0_r in IH.
      apply IH. rewrite length_app. cbn. lia. }
  apply (Hloop fuel 0 1 [] []). reflexivity.
Qed.

(** Where no cue has the id, the loop keeps the whole list. *)
Lemma removeCue_loop_absent id kept rest :
  id ∉ cue_id <$> rest → removeCue_loop id kept rest = kept ++ rest.
Proof.
  revert kept. induction rest as [| c rest IH]; intros kept Hid.
  - cbn. rewrite app_nil_r. reflexivity.
  - rewrite fmap_cons in Hid. apply not_elem_of_cons in Hid as [Hc Hid].
    cbn [removeCue_loop].
    destruct (Nat.eqb_spec (cue_id c) id) as [Heq | _]; [congruence |].
    rewrite IH by exact Hid. rewrite <- app_assoc. reflexivity.
Qed.

Lemma filter_other_ids_absent id (rest : list Cue) :
  id ∉ cue_id <$> rest → filter (λ c, cue_id c ≠ id) rest = rest.
Proof.
  induction rest as [| c rest IH]; intros Hid; [reflexivity |].
  rewrite fmap_cons in Hid. apply not_elem_of_cons in Hid as [Hc Hid].
  rewrite filter_cons, decide_True by congruence.
  rewrite IH by exact Hid. reflexivity.
Qed.

(** With distinct ids, as [addCue] hands them out, the loop removes the
    cue of that id and keeps the others in order. *)
Lemma removeCue_loop_unique id kept rest :
  NoDup (cue_id <$> rest) →
  removeCue_loop id kept rest = kept ++ filter (λ c, cue_id c ≠ id) rest.
Proof.
  revert kept. induction rest as [| c rest IH]; intros kept Hnd.
  - cbn. rewrite app_nil_r. reflexivity.
  - rewrite fmap_cons in Hnd. apply NoDup_cons in Hnd as [Hc Hnd].
    cbn [removeCue_loop]. rewrite filter_cons.
    destruct (Nat.eqb_spec (cue_id c) id) as [Heq | Hne].
    + subst id. rewrite decide_False by (intros H; exact (H eq_refl)).
      rewrite filter_other_ids_absent by exact Hc.
      destruct rest as [| c' rest']; [rewrite app_nil_r; reflexivity |].
      rewrite fmap_cons in Hc. apply not_elem_of_cons in Hc as [_ Hc].
      rewrite removeCue_loop_absent by exact Hc.
      rewrite <- app_assoc. reflexivity.
    + rewrite decide_True by exact Hne.
      rewrite IH by exact Hnd. rewrite <- app_assoc. reflexivity.
Qed.

End CueScheduler.

(** ** The subscription of the scheduler *)

Section CueSubscription.

Import Media.

Lemma snoc_not_nil {A} (l : list A) (x : A) : l ++ [x] ≠ [].
Proof. destruct l; discriminate. Qed.

Lemma sched_inv_new : sched_inv new_MediaElement.
Proof. right. split; reflexivity. Qed.

Lemma sched_inv_addCue m t cb v : sched_inv m → sched_inv (addCue m t cb v).2.
Proof.
  intros Hinv. left. unfold addCue, subscribed. cbn.
  destruct Hinv as [[Hsub _] | [Hnone _]].
  - unfold subscribed in Hsub. rewrite Hsub. cbn.
    split; [exact Hsub | apply snoc_not_nil].
  - rewrite Hnone. cbn. split; [reflexivity | apply snoc_not_nil].
Qed.

Lemma sched_inv_removeCue m id : sched_inv m → sched_inv (removeCue m id).
Proof.
  intros Hinv. unfold removeCue. cbn.
  destruct (removeCue_loop id [] (_cues m)) as [| c cs] eqn:Hloop.
  - right. split; reflexivity.
  - left. destruct Hinv as [[Hsub _] | [_ Hnil]].
    + split; [exact Hsub | cbn; congruence].
    + rewrite Hnil in Hloop. discriminate Hloop.
Qed.

Lemma sched_inv_clearCues m : sched_inv (clearCues m).
Proof. right. split; reflexivity. Qed.

(** What every call a callback can make keeps, the callback's whole run
    keeps. *)
Lemma foldl_perform_preserves (P : MediaElement → Prop) :
  (∀ m a, P m → P (perform m a)) →
  ∀ acts m, P m → P (foldl perform m acts).
Proof.
  intros Hstep. induction acts as [| a acts IH]; intros m Hm; [exact Hm |].
  cbn. apply IH, Hstep, Hm.
Qed.

(** ... and so does the loop of the handler, however it ends. *)
Lemma onTimeUpdate_loop_preserves (P : MediaElement → Prop) user cur :
  (∀ m a, P m → P (perform m a)) →
  ∀ fuel i m log, P m → P (state (onTimeUpdate_loop user fuel i cur m log)).
Proof.
  intros Hstep.
  induction fuel as [| fuel IH]; intros i m log Hm; cbn [onTimeUpdate_loop].
  - destruct (_cues m !! i); exact Hm.
  - destruct (_cues m !! i) as [c |]; [| exact Hm].
    destruct (cue_due (_prevTime m) cur c); [| apply IH, Hm].
    destruct (raises (user (cue_callback c) (cue_val c) m)).
    + cbn [state]. apply foldl_perform_preserves; assumption.
    + apply IH. apply foldl_perform_preserves; assumption.
Qed.

Lemma timeupdate_preserves (P : MediaElement → Prop) user fuel m t :
  (∀ m a, P m → P (perform m a)) →
  (∀ m q, P m → P (set_prevTime m q)) →
  (∀ m q, P m → P (set_currentTime m q)) →
  P m → P (state (timeupdate user fuel m t)).
Proof.
  intros Hstep Hprev Hcur Hm. unfold timeupdate.
  destruct (elt_ontimeupdate (set_currentTime m t)) as [[| f] |];
    [| apply Hcur, Hm | apply Hcur, Hm].
  unfold _onTimeUpdate.
  pose proof (onTimeUpdate_loop_preserves P user (time (set_currentTime m t))
                Hstep fuel 0 (set_currentTime m t) [] (Hcur _ _ Hm)) as Hloop.
  destruct (onTimeUpdate_loop user fuel 0 (time (set_currentTime m t))
              (set_currentTime m t) []) as [log st []];
    cbn [ending state] in *; [apply Hprev |..]; exact Hloop.
Qed.

Lemma sched_inv_perform m a : sched_inv m → sched_inv (perform m a).
Proof.
  intros Hinv. destruct a; cbn [perform].
  - apply sched_inv_addCue, Hinv.
  - apply sched_inv_removeCue, Hinv.
  - apply sched_inv_clearCues.
Qed.

Lemma sched_inv_timeupdate user fuel m t :
  sched_inv m → sched_inv (state (timeupdate user fuel m t)).
Proof.
  apply timeupdate_preserves.
  - apply sched_inv_perform.
  - intros m' q Hinv. exact Hinv.
  - intros m' q Hinv. exact Hinv.
Qed.

Lemma sched_inv_run user fuel ops :
  ∀ m, sched_inv m → sched_inv (cue_run user fuel m ops).
Proof.
  induction ops as [| op ops IH]; intros m Hinv; [exact Hinv |].
  cbn. apply IH. destruct op; cbn.
  - apply sched_inv_addCue, Hinv.
  - apply sched_inv_removeCue, Hinv.
  - apply sched_inv_clearCues.
  - apply sched_inv_timeupdate, Hinv.
Qed.

(** C4. In every state a handle reaches from its constructor through
    [addCue], [removeCue], [clearCues] and time-updates, whatever the cue
    callbacks do in between, the subscription is
    installed exactly when the cue list is non-empty.  [addCue] on a handle
    without subscription installs it; a [removeCue] that leaves the list
    empty, such as the removal of the only cue, uninstalls it; [clearCues]
    empties the list and uninstalls it in every case. *)
Theorem cue_subscription_invariant :
  (∀ user fuel ops, let m := cue_run user fuel new_MediaElement ops in
     (subscribed m ↔ _cues m ≠ []) ∧ (elt_ontimeupdate m = None ↔ _cues m = []))
  ∧ (∀ m t cb v, elt_ontimeupdate m = None → subscribed (addCue m t cb v).2)
  ∧ (∀ m id, _cues (removeCue m id) = [] →
       elt_ontimeupdate (removeCue m id) = None)
  ∧ (∀ m c, _cues m = [c] →
       _cues (removeCue m (cue_id c)) = []
       ∧ elt_ontimeupdate (removeCue m (cue_id c)) = None)
  ∧ (∀ m, _cues (clearCues m) = [] ∧ elt_ontimeupdate (clearCues m) = None).
Proof.
  split; [| split; [| split; [| split]]].
  - intros user fuel ops. cbn zeta. unfold subscribed.
    destruct (sched_inv_run user fuel ops _ sched_inv_new)
      as [[Hsub Hne] | [Hnone Hnil]].
    + unfold subscribed in Hsub.
      split; split; intros H; try assumption; [congruence | contradiction].
    + split; split; intros H; try assumption; [congruence | contradiction].
  - intros m t cb v Hnone. unfold addCue, subscribed. cbn.
    rewrite Hnone. reflexivity.
  - intros m id. unfold removeCue. cbn.
    destruct (removeCue_loop id [] (_cues m)); [reflexivity | discriminate].
  - intros m c Hc. unfold removeCue. cbn. rewrite Hc. cbn.
    rewrite Nat.eqb_refl. cbn. split; reflexivity.
  - intros m. split; reflexivity.
Qed.

Lemma cue_subscription_invariant_witness :
  subscribed (addCue new_MediaElement (1 # 2) 7 JUndefined).2
  ∧ elt_ontimeupdate
      (removeCue (addCue new_MediaElement (1 # 2) 7 JUndefined).2 0) = None.
Proof.
  split.
  - apply (proj1 (proj2 cue_subscription_invariant)). reflexivity.
  - apply (proj1 (proj2 (proj2 cue_subscription_invariant))). reflexivity.
Defined.

End CueSubscription.

(** ** Playback rate *)

Section PlaybackRate.

Import Media.

(** Before the metadata has loaded, [speed(v)] leaves the host's rate
    alone and buffers [v]. *)
Lemma speed_set_buffers m v :
  loadedmetadata m = false →
  elt_playbackRate (speed_set m v) = elt_playbackRate m
  ∧ presetPlaybackRate (speed_set m v) = Some v.
Proof. intros Hmeta. unfold speed_set. rewrite Hmeta. split; reflexivity. Qed.

(** Once it has, [speed(v)] sets the host's rate at once. *)
Lemma speed_set_immediate m v :
  loadedmetadata m = true → elt_playbackRate (speed_set m v) = v.
Proof. intros Hmeta. unfold speed_set. rewrite Hmeta. reflexivity. Qed.

(** A buffered rate other than 0 is applied and dropped when the
    listener of [createMedia] runs. *)
Lemma preset_flushed_nonzero m v :
  presetPlaybackRate m = Some v → ¬ (v == 0)%Q →
  elt_playbackRate (createMedia_onloadedmetadata m) = v
  ∧ presetPlaybackRate (createMedia_onloadedmetadata m) = None
  ∧ loadedmetadata (createMedia_onloadedmetadata m) = true.
Proof.
  intros Hpre Hnz. unfold createMedia_onloadedmetadata, num_truthy.
  rewrite Hpre. apply num_eq_false_iff in Hnz. rewrite Hnz. repeat split.
Qed.

(** C6. [speed(0)] on a handle of [createVideo] before the metadata has
    loaded buffers 0; when the metadata arrives the listener's test
    [if (c.presetPlaybackRate)] takes 0 for no preset: the host's rate
    stays 1 and the preset stays in place.  On a handle of [createCapture]
    the listener never applies a preset, here 2. *)
Theorem speed_zero_preset_not_applied :
  let m1 := speed_set new_MediaElement 0 in
  let m2 := createMedia_onloadedmetadata m1 in
  let c2 := createCapture_onloadedmetadata (speed_set new_MediaElement 2) in
  (elt_playbackRate m1 = 1%Q ∧ presetPlaybackRate m1 = Some 0%Q)
  ∧ (loadedmetadata m2 = true ∧ elt_playbackRate m2 = 1%Q
     ∧ presetPlaybackRate m2 = Some 0%Q)
  ∧ (loadedmetadata c2 = true ∧ elt_playbackRate c2 = 1%Q
     ∧ presetPlaybackRate c2 = Some 2%Q)
  ∧ elt_playbackRate (speed_set m2 0) = 0%Q.
Proof. repeat split. Qed.

(** C10. While a buffered rate other than 0 is held, [speed()] returns
    it, whatever the host's rate is; this is the state [speed(v)] leaves
    before the metadata has loaded.  Without a preset (none, or 0) it
    returns the host's rate. *)
Theorem speed_get_prefers_preset (m : MediaElement) :
  (∀ v, presetPlaybackRate m = Some v → ¬ (v == 0)%Q → speed_get m = v)
  ∧ (∀ v, loadedmetadata m = false → ¬ (v == 0)%Q →
       speed_get (speed_set m v) = v
       ∧ elt_playbackRate (speed_set m v) = elt_playbackRate m)
  ∧ (presetPlaybackRate m = None → speed_get m = elt_playbackRate m)
  ∧ (∀ v, presetPlaybackRate m = Some v → (v == 0)%Q →
       speed_get m = elt_playbackRate m).
Proof.
  split; [| split; [| split]].
  - intros v Hpre Hnz. unfold speed_get, num_truthy. rewrite Hpre.
    apply num_eq_false_iff in Hnz. rewrite Hnz. reflexivity.
  - intros v Hmeta Hnz. unfold speed_get, speed_set, num_truthy.
    rewrite Hmeta. cbn [presetPlaybackRate elt_playbackRate set_presetPlaybackRate].
    apply num_eq_false_iff in Hnz. rewrite Hnz. split; reflexivity.
  - intros Hpre. unfold speed_get. rewrite Hpre. reflexivity.
  - intros v Hpre Hz. unfold speed_get, num_truthy. rewrite Hpre.
    apply num_eq_iff in Hz. rewrite Hz. reflexivity.
Qed.

(** A handle playing at rate 1 with a buffered rate of 2. *)
Lemma speed_get_prefers_preset_witness :
  let m := speed_set new_MediaElement 2 in
  speed_get m = 2%Q ∧ elt_playbackRate m = 1%Q.
Proof.
  intros m. split; [| reflexivity].
  apply (proj1 (speed_get_prefers_preset m) 2%Q); [reflexivity |].
  intros H. discriminate H.
Defined.

End PlaybackRate.

(** ** play() *)

Section Play.

Import Media.

(** [play()] rewinds exactly when the position equals the duration, then
    plays, after a reload unless the host's [readyState] is above 1. *)
Lemma play_calls m :
  let r := play m in
  (at_end m = true → elt_currentTime r.2 = 0%Q)
  ∧ (at_end m = false → r.2 = m)
  ∧ (1 < elt_readyState m → r.1 = [HostPlay])
  ∧ (elt_readyState m ≤ 1 → r.1 = [HostLoad; HostPlay]).
Proof.
  cbn zeta. unfold play.
  destruct (at_end m) eqn:Hend; cbn [elt_readyState set_currentTime].
  - destruct (Nat.ltb_spec 1 (elt_readyState m));
      (split; [reflexivity | split; [discriminate | split]]);
      intros; first [reflexivity | lia].
  - destruct (Nat.ltb_spec 1 (elt_readyState m));
      (split; [discriminate | split; [reflexivity | split]]);
      intros; first [reflexivity | lia].
Qed.

(** A rejection that is not a permission denial is logged. *)
Lemma play_rejection_logged name :
  name ≠ "NotAllowedError" → play_settled (Rejected name) = Some (ConsoleError name).
Proof.
  intros Hne. cbn. unfold play_catch.
  destruct (String.eqb_spec name "NotAllowedError"); [contradiction | reflexivity].
Qed.

(** With [this] bound to the handle, as in an arrow function, the denial
    would reach the friendly warning. *)
Lemma play_catch_bound src :
  play_catch (ThisObject src) "NotAllowedError" = FriendlyAutoplayError src.
Proof. reflexivity. Qed.

(** C7. When the host rejects playback with [NotAllowedError], the
    handler reads [this.src] with [this] undefined: a [TypeError] is raised
    inside the handler and [p5._friendlyAutoplayError] is not called. *)
Theorem play_autoplay_denial_not_reported :
  play_settled (Rejected "NotAllowedError") = Some ThrewTypeError
  ∧ ∀ src, play_settled (Rejected "NotAllowedError")
           ≠ Some (FriendlyAutoplayError src).
Proof. split; [reflexivity | intros src; discriminate]. Qed.

End Play.

(** ** Removal and the registry *)

Section Removal.

Import Media Element.

#[local] Arguments indexOf : simpl never.
#[local] Arguments deregister : simpl never.

(** Stopping a stopped track changes nothing. *)
Lemma stop_stop (ts : list Track) : stop <$> (stop <$> ts) = stop <$> ts.
Proof. rewrite <- list_fmap_compose. reflexivity. Qed.

Lemma deregister_twice events ls :
  deregister events (deregister events ls) = deregister events ls.
Proof.
  unfold deregister. induction ls as [| l ls IH]; [reflexivity |].
  cbn. destruct (negb (bool_decide (events !! l.1 = Some l.2))) eqn:Hl.
  - cbn. rewrite Hl, IH. reflexivity.
  - exact IH.
Qed.

Lemma indexOf_None_iff (l : list RegEntry) x : indexOf l x = None ↔ x ∉ l.
Proof.
  unfold indexOf. rewrite fmap_None, list_find_None, Forall_forall.
  split.
  - intros H Hin. exact (H x Hin eq_refl).
  - intros H y Hin ->. exact (H Hin).
Qed.

(** After the first occurrence is cut out of a list without repetition,
    the entry is gone. *)
Lemma indexOf_delete (l : list RegEntry) x i :
  NoDup l → indexOf l x = Some i → indexOf (delete i l) x = None.
Proof.
  intros Hnd Hidx. unfold indexOf in Hidx.
  apply fmap_Some in Hidx as ([j y] & Hfind & ->). cbn.
  apply list_find_Some in Hfind as (Hj & -> & _).
  apply indexOf_None_iff.
  intros Hin. apply list_elem_of_lookup in Hin as [k Hk].
  destruct (decide (k < j)) as [Hlt | Hge].
  - rewrite list_lookup_delete_lt in Hk by exact Hlt.
    pose proof (NoDup_lookup _ _ _ _ Hnd Hk Hj). lia.
  - rewrite list_lookup_delete_ge in Hk by lia.
    pose proof (NoDup_lookup _ _ _ _ Hnd Hk Hj). lia.
Qed.

(** Where [remove] returns, and the registry lists no handle twice, a
    second [remove] returns the same world: nothing is taken off the
    registry again. *)
Lemma remove_twice w this w' :
  NoDup (_elements w) → remove w this = Returned w' →
  remove w' this = Returned w'.
Proof.
  intros Hnd Hrem. unfold remove in Hrem.
  destruct (handles w !! this) as [h |] eqn:Hh; [| discriminate].
  assert (Hreg : ∀ els, els = match indexOf (_elements w) (Wrapped this) with
                              | Some index => delete index (_elements w)
                              | None => _elements w
                              end → indexOf els (Wrapped this) = None).
  { intros els ->. destruct (indexOf (_elements w) (Wrapped this)) eqn:Hidx.
    - eapply indexOf_delete; eassumption.
    - exact Hidx. }
  destruct (is_media h) eqn:Hmedia.
  - destruct (srcObject h) as [tracks |] eqn:Hsrc; [| discriminate].
    injection Hrem as <-. unfold remove. cbn.
    rewrite lookup_insert_eq. cbn.
    rewrite (Hreg _ eq_refl), stop_stop, deregister_twice, insert_insert_eq.
    reflexivity.
  - injection Hrem as <-. unfold remove. cbn.
    rewrite lookup_insert_eq. cbn.
    rewrite (Hreg _ eq_refl), deregister_twice, insert_insert_eq.
    reflexivity.
Qed.

(** A media handle without stream cannot be removed: the read of
    [this.elt.srcObject.getTracks] fails on [null]. *)
Lemma remove_media_null_stream w this h :
  handles w !! this = Some h → is_media h = true → srcObject h = None →
  remove w this = Threw "TypeError" w.
Proof.
  intros Hh Hmedia Hsrc. unfold remove. rewrite Hh, Hmedia, Hsrc. reflexivity.
Qed.

(** C8. A handle made by [createVideo] has no stream: [elt.srcObject] is
    [null].  [remove()] on it raises a [TypeError] at
    [this.elt.srcObject.getTracks()], the first statement, so the handle
    stays on the registry and every later call raises again. *)
Theorem remove_media_without_stream_throws :
  let w := addElement (mkWorld ∅ ∅ []) 0 100 true false in
  remove w 0 = Threw "TypeError" w ∧ _elements w = [Wrapped 0].
Proof. split; vm_compute; reflexivity. Qed.

Lemma delete_length_le {A} (l : list A) : ∀ i, length (delete i l) ≤ length l.
Proof.
  induction l as [| x l IH]; intros [| i]; simpl; try lia.
  specialize (IH i). lia.
Qed.

Lemma remove_not_OutOfFuel w this : remove w this ≠ OutOfFuel.
Proof.
  unfold remove. destruct (handles w !! this) as [h |]; [| discriminate].
  destruct (is_media h); [destruct (srcObject h) |]; discriminate.
Qed.

(** [remove] never makes the registry longer. *)
Lemma remove_length w this w' :
  remove w this = Returned w' → length (_elements w') ≤ length (_elements w).
Proof.
  unfold remove. destruct (handles w !! this) as [h |]; [| discriminate].
  assert (Hlen : length match indexOf (_elements w) (Wrapped this) with
                        | Some index => delete index (_elements w)
                        | None => _elements w
                        end ≤ length (_elements w)).
  { destruct (indexOf (_elements w) (Wrapped this)); [| lia].
    apply delete_length_le. }
  destruct (is_media h); [destruct (srcObject h) |];
    intros H; try discriminate H; injection H as <-; exact Hlen.
Qed.

(** The loop of [removeElements] ends: with fuel for every entry from
    [i] on, it runs to its exit or to an exception. *)
Lemma removeElements_loop_ends fuel : ∀ i w,
  length (_elements w) ≤ i + fuel → removeElements_loop fuel i w ≠ OutOfFuel.
Proof.
  induction fuel as [| fuel IH]; intros i w Hlen; cbn [removeElements_loop].
  - rewrite lookup_ge_None_2 by lia. discriminate.
  - destruct (_elements w !! i) as [[h | n] |]; [| | discriminate].
    + destruct (handles w !! h) as [hd |]; [| discriminate].
      destruct (is_canvas hd); [apply IH; lia |].
      destruct (remove w h) as [w' | e w' |] eqn:Hrem.
      * apply IH. apply remove_length in Hrem. lia.
      * discriminate.
      * exact (False_ind _ (remove_not_OutOfFuel _ _ Hrem)).
    + apply IH. cbn. lia.
Qed.

Lemma removeElements_ends w : removeElements w ≠ OutOfFuel.
Proof. apply removeElements_loop_ends. lia. Qed.

(** C9. The example of the documentation: a canvas, a div and a
    paragraph are registered in this order; [removeElements()] removes the
    div, the registry closes up, and the next index is already past the
    paragraph, which stays registered and attached to the page.  The same
    with two divs and no canvas: the second stays. *)
Theorem removeElements_skips_next :
  let w0 := mkWorld ∅ ∅ [] in
  let page := 100 in
  let w3 := addElement (addElement (addElement w0 0 page false true)
                          1 page false false) 2 page false false in
  let w2 := addElement (addElement w0 1 page false false) 2 page false false in
  (∃ w', removeElements w3 = Returned w'
         ∧ _elements w' = [Wrapped 0; Wrapped 2]
         ∧ handles w' !! 2 = Some (mkHandle false false None ∅ [] (Some page)))
  ∧ (∃ w', removeElements w2 = Returned w'
           ∧ _elements w' = [Wrapped 2]
           ∧ handles w' !! 2 = Some (mkHandle false false None ∅ [] (Some page))).
Proof.
  split; eexists; (split; [vm_compute; reflexivity |]);
    split; vm_compute; reflexivity.
Qed.

End Removal.

(** ** The dispatcher *)

Section Dispatcher.

Import Dispatch.

Lemma input_or_label_iff c :
  input_or_label c = true ↔ tagName c = "INPUT" ∨ tagName c = "LABEL".
Proof.
  unfold input_or_label. rewrite orb_true_iff, !String.eqb_eq. reflexivity.
Qed.

(** The test of the radio branch, in words: at least one child, and every
    child an input or a label. *)
Lemma radio_test_iff (cs : list Node) :
  (0 <? length cs) && forallb input_or_label cs = true
  ↔ cs ≠ [] ∧ Forall (λ c, tagName c = "INPUT" ∨ tagName c = "LABEL") cs.
Proof.
  rewrite andb_true_iff, Nat.ltb_lt, forallb_forall, Forall_forall.
  split; intros [Hne Hall]; split.
  - intros ->. cbn in Hne. lia.
  - intros c Hc. apply input_or_label_iff, Hall, list_elem_of_In, Hc.
  - destruct cs; [contradiction | cbn; lia].
  - intros c Hc. apply input_or_label_iff, Hall, list_elem_of_In, Hc.
Qed.

(** C3. [_wrapElement] decides in this order, the first match winning:
    an input of type checkbox gets the checkbox capability; an audio or
    video node a media handle; a select node the select capability, on the
    node itself; a node with at least one child, all of whose children are
    inputs or labels, the radio-group capability; any other node a plain
    handle.  In every case the handle wraps the node given. *)
Theorem wrapElement_decision_order (N : Node) :
  let h := _wrapElement N in
  let checkbox := tagName N = "INPUT" ∧ type N = "checkbox" in
  let media := tagName N = "VIDEO" ∨ tagName N = "AUDIO" in
  let select := tagName N = "SELECT" in
  let radio := children N ≠ []
               ∧ Forall (λ c, tagName c = "INPUT" ∨ tagName c = "LABEL")
                   (children N) in
  elt h = N
  ∧ (checkbox → capability h = Checkbox)
  ∧ (¬ checkbox → media → capability h = MediaHandle)
  ∧ (¬ checkbox → ¬ media → select → capability h = Select)
  ∧ (¬ checkbox → ¬ media → ¬ select → radio → capability h = RadioGroup)
  ∧ (¬ checkbox → ¬ media → ¬ select → ¬ radio →
       capability h = PlainElement).
Proof.
  cbn zeta. unfold _wrapElement, createSelect, createRadio, new_Element,
    new_MediaElement.
  pose proof (radio_test_iff (children N)) as Hradio.
  destruct ((0 <? length (children N)) && forallb input_or_label (children N)).
  all: destruct (String.eqb_spec (tagName N) "INPUT") as [Hin | Hin];
    destruct (String.eqb_spec (type N) "checkbox") as [Hcb | Hcb];
    destruct (String.eqb_spec (tagName N) "VIDEO") as [Hv | Hv];
    destruct (String.eqb_spec (tagName N) "AUDIO") as [Ha | Ha];
    destruct (String.eqb_spec (tagName N) "SELECT") as [Hs | Hs];
    cbn [andb orb elt capability];
    try rewrite Hs; cbn [String.eqb Ascii.eqb Bool.eqb elt capability];
    (split; [try rewrite <- Hs; reflexivity |]).
  all: repeat split; intros; try reflexivity; try congruence;
    try (exfalso; intuition congruence).
  all: try (exfalso; destruct Hradio as [H1 H2]; intuition congruence).
Qed.

(** A container with a radio input and its label is taken for a radio
    group; a select with the same children is still a select. *)
Lemma wrapElement_decision_order_witness :
  let kids := [mkNode "INPUT" "radio" []; mkNode "LABEL" "" []] in
  capability (_wrapElement (mkNode "DIV" "" kids)) = RadioGroup
  ∧ capability (_wrapElement (mkNode "SELECT" "select-one" kids)) = Select
  ∧ capability (_wrapElement (mkNode "INPUT" "checkbox" [])) = Checkbox.
Proof.
  intros kids. split; [| split].
  - apply (wrapElement_decision_order (mkNode "DIV" "" kids)).
    + intros [H _]. discriminate H.
    + intros [H | H]; discriminate H.
    + intros H. discriminate H.
    + split; [discriminate |].
      constructor; [left; reflexivity |].
      constructor; [right; reflexivity |]. constructor.
  - apply (wrapElement_decision_order (mkNode "SELECT" "select-one" kids)).
    + intros [H _]. discriminate H.
    + intros [H | H]; discriminate H.
    + reflexivity.
  - apply (wrapElement_decision_order (mkNode "INPUT" "checkbox" [])).
    split; reflexivity.
Defined.

End Dispatcher.

(** ** The radio group *)

Section RadioGroup.

Import RadioCap.

Lemma set_checked_twice c b b' : set_checked (set_checked c b) b' = set_checked c b'.
Proof. reflexivity. Qed.

Lemma matches_set_checked v c b : matches v (set_checked c b) = matches v c.
Proof. reflexivity. Qed.

Lemma same_group_set_checked_l e d b :
  same_group (set_checked e b) d = same_group e d.
Proof. reflexivity. Qed.

Lemma same_group_set_checked_r e d b :
  same_group e (set_checked d b) = same_group e d.
Proof. reflexivity. Qed.

(** What the host does to the marks changes no group and no value. *)
Lemma rival_unchecked_l v c d e :
  rival v (if same_group c d then set_checked d false else d) e = rival v d e.
Proof. destruct (same_group c d); reflexivity. Qed.

Lemma rival_unchecked_r v c d e :
  rival v d (if same_group c e then set_checked e false else e) = rival v d e.
Proof. destruct (same_group c e); reflexivity. Qed.

Lemma existsb_rival_uncheck_group v c d l :
  existsb (rival v d) (uncheck_group c l) = existsb (rival v d) l.
Proof.
  unfold uncheck_group. induction l as [| e l IH]; [reflexivity |].
  cbn [fmap list_fmap existsb]. rewrite rival_unchecked_r.
  f_equal. exact IH.
Qed.

Lemma existsb_rival_touched v c d l :
  existsb (rival v (if same_group c d then set_checked d false else d)) l
  = existsb (rival v d) l.
Proof. destruct (same_group c d); reflexivity. Qed.

Lemma check_loop_length v rounds : ∀ done todo,
  length (check_loop v rounds done todo) = length done + length todo.
Proof.
  induction rounds as [| rounds IH]; intros done todo; cbn [check_loop].
  - destruct todo; apply length_app.
  - destruct todo as [| c todo]; [apply length_app |].
    destruct (matches v c); rewrite IH.
    + unfold uncheck_group. rewrite length_app, !length_fmap. cbn. lia.
    + rewrite length_app. cbn. lia.
Qed.

(** A child behind the loop's position keeps its mark unless an input
    child with the value [v] still to come is a button of its group. *)
Lemma check_loop_done v rounds : ∀ done todo i d,
  length todo ≤ rounds → done !! i = Some d →
  check_loop v rounds done todo !! i
  = Some (if existsb (rival v d) todo then set_checked d false else d).
Proof.
  induction rounds as [| rounds IH]; intros done todo i d Hlen Hi;
    cbn [check_loop].
  - destruct todo; [| cbn in Hlen; lia].
    rewrite app_nil_r. exact Hi.
  - destruct todo as [| c todo]; [rewrite app_nil_r; exact Hi |].
    cbn in Hlen. cbn [existsb]. destruct (matches v c) eqn:Hc.
    + rewrite (IH _ _ i (if same_group c d then set_checked d false else d)).
      * rewrite existsb_rival_touched, existsb_rival_uncheck_group.
        unfold rival at 2. rewrite Hc. cbn [andb].
        destruct (same_group c d); cbn [orb]; [| reflexivity].
        destruct (existsb (rival v d) todo); reflexivity.
      * unfold uncheck_group. rewrite length_fmap. lia.
      * rewrite lookup_app_l
          by (unfold uncheck_group; rewrite length_fmap;
              eapply lookup_lt_Some; exact Hi).
        unfold uncheck_group. rewrite list_lookup_fmap, Hi. reflexivity.
    + rewrite (IH _ _ i d).
      * unfold rival at 2. rewrite Hc. reflexivity.
      * lia.
      * rewrite lookup_app_l by (eapply lookup_lt_Some; exact Hi). exact Hi.
Qed.

(** A child from the loop's position on: an input child with the value
    [v] ends up checked unless a later one is a button of its group; any
    other child loses its mark when an input child with the value [v] is
    a button of its group, and is as it was otherwise. *)
Lemma check_loop_todo v rounds : ∀ done todo i d,
  length todo ≤ rounds → todo !! i = Some d →
  check_loop v rounds done todo !! (length done + i)
  = Some (if matches v d
          then set_checked d (negb (existsb (rival v d) (drop (S i) todo)))
          else if existsb (rival v d) todo then set_checked d false else d).
Proof.
  induction rounds as [| rounds IH]; intros done todo i d Hlen Hi.
  - destruct todo; [discriminate Hi | cbn in Hlen; lia].
  - destruct todo as [| c todo]; [discriminate Hi |].
    cbn in Hlen. cbn [check_loop]. destruct i as [| i].
    + injection Hi as ->. rewrite Nat.add_0_r.
      change (drop 1 (d :: todo)) with todo. cbn [existsb].
      destruct (matches v d) eqn:Hd.
      * rewrite (check_loop_done v _ _ _ (length done) (set_checked d true)).
        -- rewrite existsb_rival_uncheck_group.
           change (rival v (set_checked d true)) with (rival v d).
           destruct (existsb (rival v d) todo); reflexivity.
        -- unfold uncheck_group. rewrite length_fmap. lia.
        -- rewrite lookup_app_r
             by (unfold uncheck_group; rewrite length_fmap; lia).
           unfold uncheck_group. rewrite length_fmap, Nat.sub_diag.
           reflexivity.
      * rewrite (check_loop_done v _ _ _ (length done) d).
        -- unfold rival at 2. rewrite Hd. reflexivity.
        -- lia.
        -- rewrite lookup_app_r by lia. rewrite Nat.sub_diag. reflexivity.
    + change (todo !! i = Some d) in Hi.
      change (drop (S (S i)) (c :: todo)) with (drop (S i) todo).
      cbn [existsb].
      destruct (matches v c) eqn:Hc.
      * specialize (IH (uncheck_group c done ++ [set_checked c true])
                      (uncheck_group c todo) i
                      (if same_group c d then set_checked d false else d)).
        replace (length (uncheck_group c done ++ [set_checked c true]) + i)
          with (length done + S i) in IH
          by (unfold uncheck_group; rewrite length_app, length_fmap; cbn; lia).
        rewrite IH.
        -- unfold uncheck_group at 1. rewrite <- fmap_drop.
           fold (uncheck_group c (drop (S i) todo)).
           rewrite !existsb_rival_touched, !existsb_rival_uncheck_group.
           replace (rival v d c) with (same_group c d)
             by (unfold rival; rewrite Hc; reflexivity).
           destruct (same_group c d) eqn:Hg; cbn [orb].
           ++ rewrite matches_set_checked.
              destruct (matches v d); [reflexivity |].
              destruct (existsb (rival v d) todo); reflexivity.
           ++ reflexivity.
        -- unfold uncheck_group. rewrite length_fmap. lia.
        -- unfold uncheck_group. rewrite list_lookup_fmap, Hi. reflexivity.
      * specialize (IH (done ++ [c]) todo i d).
        replace (length (done ++ [c]) + i) with (length done + S i) in IH
          by (rewrite length_app; cbn; lia).
        rewrite IH by (lia || exact Hi).
        replace (rival v d c) with false
          by (unfold rival; rewrite Hc; reflexivity).
        reflexivity.
Qed.

(** The reading loop returns the value of the first checked input child;
    children that are not inputs are passed over. *)
Lemma first_checked_split (pre post : list Child) c :
  tagName c = "INPUT" → checked c = true →
  (∀ d, d ∈ pre → tagName d = "INPUT" → checked d = false) →
  first_checked (_getInputChildrenArray (pre ++ c :: post)) = Some (value c).
Proof.
  intros Htag Hchk. unfold first_checked, _getInputChildrenArray.
  induction pre as [| d pre IH]; intros Hpre; cbn.
  - rewrite Htag. cbn. rewrite Hchk. reflexivity.
  - destruct (String.eqb_spec (tagName d) "INPUT") as [Hd | Hd].
    + cbn. rewrite (Hpre d) by (try left; assumption). cbn.
      apply IH. intros d' Hd'. apply Hpre. right. exact Hd'.
    + apply IH. intros d' Hd'. apply Hpre. right. exact Hd'.
Qed.

Lemma first_checked_none (children : list Child) :
  (∀ c, c ∈ children → tagName c = "INPUT" → checked c = false) →
  first_checked (_getInputChildrenArray children) = None.
Proof.
  unfold first_checked, _getInputChildrenArray.
  induction children as [| d children IH]; intros Hall; [reflexivity |]. cbn.
  destruct (String.eqb_spec (tagName d) "INPUT") as [Hd | Hd].
  - cbn. rewrite (Hall d) by (try left; assumption). cbn.
    apply IH. intros c Hc. apply Hall. right. exact Hc.
  - apply IH. intros c Hc. apply Hall. right. exact Hc.
Qed.

(** C5, as the code has it.  With a truthy argument [v], [selected(v)]
    and [value(v)] assign [checked = true] to every input child whose
    value equals [v], in order, and return the handle; the host unchecks
    the other radio buttons of the same name at each assignment.
    Afterwards an input child whose value equals [v] is checked unless a
    later input child with the value [v] is a button of its group; any
    other child is unchecked when an input child with the value [v] is a
    button of its group, and is as it was otherwise.  With no argument, or
    a falsy one such as the empty string, they mark nothing and return the
    value of the first checked input child, children that are not inputs
    being passed over; when no input child is checked, [value] returns the
    empty string and [selected] returns [undefined]. *)
Theorem radio_selected_value (children : list Child) :
  (∀ v, truthy v = true →
     ∃ children',
       self_selected children (Some v) = (RetThis, children')
       ∧ self_value children (Some v) = (RetThis, children')
       ∧ length children' = length children
       ∧ ∀ i c, children !! i = Some c →
           children' !! i
           = Some (if matches v c
                   then set_checked c
                          (negb (existsb (rival v c) (drop (S i) children)))
                   else if existsb (rival v c) children
                        then set_checked c false else c))
  ∧ (∀ arg, truthy (default JUndefined arg) = false →
       (∀ pre c post, children = pre ++ c :: post →
          tagName c = "INPUT" → checked c = true →
          (∀ d, d ∈ pre → tagName d = "INPUT" → checked d = false) →
          self_selected children arg = (RetValue (JStr (value c)), children)
          ∧ self_value children arg = (RetValue (JStr (value c)), children))
       ∧ ((∀ c, c ∈ children → tagName c = "INPUT" → checked c = false) →
          self_selected children arg = (RetValue JUndefined, children)
          ∧ self_value children arg = (RetValue (JStr ""), children))).
Proof.
  split.
  - intros v Hv. exists (check_matching v children).
    unfold self_selected, self_value. cbn. rewrite Hv.
    repeat split.
    + unfold check_matching. rewrite check_loop_length. reflexivity.
    + intros i c Hi. unfold check_matching.
      exact (check_loop_todo v (length children) [] children i c
               (Nat.le_refl _) Hi).
  - intros arg Harg. unfold self_selected, self_value. rewrite Harg. split.
    + intros pre c post -> Htag Hchk Hpre.
      rewrite (first_checked_split pre post c Htag Hchk Hpre).
      split; reflexivity.
    + intros Hall. rewrite (first_checked_none children Hall).
      split; reflexivity.
Qed.

(** A group of three options as [option] makes them, the second checked:
    [selected('3')] checks the third, the host unchecks the second, and
    the handle is returned; [value()] before that reads "2", skipping the
    label between; on a group with nothing checked [selected()] is
    [undefined]. *)
Lemma radio_selected_value_witness :
  let group := [mkChild "INPUT" "radio" "defaultradio0" "1" false;
                mkChild "LABEL" "" "" "" false;
                mkChild "INPUT" "radio" "defaultradio0" "2" true;
                mkChild "INPUT" "radio" "defaultradio0" "3" false] in
  (∃ children', self_selected group (Some (JStr "3")) = (RetThis, children')
                ∧ children' !! 2
                  = Some (mkChild "INPUT" "radio" "defaultradio0" "2" false)
                ∧ children' !! 3
                  = Some (mkChild "INPUT" "radio" "defaultradio0" "3" true))
  ∧ self_value group None = (RetValue (JStr "2"), group)
  ∧ self_selected [mkChild "INPUT" "radio" "defaultradio0" "1" false] None
    = (RetValue JUndefined,
       [mkChild "INPUT" "radio" "defaultradio0" "1" false]).
Proof.
  intros group. split; [| split].
  - destruct (proj1 (radio_selected_value group) (JStr "3") eq_refl)
      as (children' & Hsel & _ & _ & Hmark).
    exists children'. split; [exact Hsel |]. split.
    + exact (Hmark 2 (mkChild "INPUT" "radio" "defaultradio0" "2" true) eq_refl).
    + exact (Hmark 3 (mkChild "INPUT" "radio" "defaultradio0" "3" false) eq_refl).
  - refine (proj2 (proj1 (proj2 (radio_selected_value group) None eq_refl)
              [mkChild "INPUT" "radio" "defaultradio0" "1" false;
               mkChild "LABEL" "" "" "" false]
              (mkChild "INPUT" "radio" "defaultradio0" "2" true)
              [mkChild "INPUT" "radio" "defaultradio0" "3" false]
              eq_refl eq_refl eq_refl _)).
    intros d Hd Htag.
    apply elem_of_cons in Hd as [-> | Hd]; [reflexivity |].
    apply elem_of_cons in Hd as [-> | Hd]; [discriminate Htag |].
    apply elem_of_nil in Hd. contradiction.
  - refine (proj1 (proj2 (proj2 (radio_selected_value
              [mkChild "INPUT" "radio" "defaultradio0" "1" false]) None eq_refl) _)).
    intros c Hc _.
    apply elem_of_cons in Hc as [-> | Hc]; [reflexivity |].
    apply elem_of_nil in Hc. contradiction.
Defined.

(** The claim as worded fails for a falsy argument: [selected('')] and
    [value('')] on a group whose only option has the value [''] check
    nothing and hand back a value, not the handle.  And with a truthy
    argument not every input child of that value stays marked: of two
    options with the value "2", [selected('2')] leaves only the second
    checked. *)
Lemma radio_empty_string_argument :
  let group := [mkChild "INPUT" "radio" "defaultradio0" "" false] in
  let twins := [mkChild "INPUT" "radio" "defaultradio0" "2" false;
                mkChild "INPUT" "radio" "defaultradio0" "2" false] in
  self_selected group (Some (JStr "")) = (RetValue JUndefined, group)
  ∧ self_value group (Some (JStr "")) = (RetValue (JStr ""), group)
  ∧ self_selected group (Some (JStr ""))
    ≠ (RetThis, [mkChild "INPUT" "radio" "defaultradio0" "" true])
  ∧ self_value group (Some (JStr ""))
    ≠ (RetThis, [mkChild "INPUT" "radio" "defaultradio0" "" true])
  ∧ self_selected twins (Some (JStr "2"))
    = (RetThis, [mkChild "INPUT" "radio" "defaultradio0" "2" false;
                 mkChild "INPUT" "radio" "defaultradio0" "2" true]).
Proof. repeat split; discriminate. Qed.

(** [selected('2')] and then [selected('3')] on three options: only the
    third is checked, and [value()] reads "3". *)
Example radio_select_twice :
  let group := [mkChild "INPUT" "radio" "defaultradio0" "1" false;
                mkChild "INPUT" "radio" "defaultradio0" "2" false;
                mkChild "INPUT" "radio" "defaultradio0" "3" false] in
  let after := (self_selected (self_selected group (Some (JStr "2"))).2
                  (Some (JStr "3"))).2 in
  checked <$> after = [false; false; true]
  ∧ (self_value after None).1 = RetValue (JStr "3").
Proof. split; reflexivity. Qed.

End RadioGroup.

(** ** The select capability *)

Section SelectOptions.

Import SelectCap.

Variable readback : string → string.

Lemma first_match_find opts name i o :
  first_match opts name i o ↔
  list_find (λ o, innerHTML o = name) opts = Some (i, o).
Proof. unfold first_match. rewrite list_find_Some. reflexivity. Qed.

Lemma no_match_find opts name :
  (∀ o, o ∈ opts → innerHTML o ≠ name) ↔
  list_find (λ o, innerHTML o = name) opts = None.
Proof. rewrite list_find_None, Forall_forall. reflexivity. Qed.

Lemma gone_after_delete w i o :
  wf w → options w !! i = Some o →
  gone (node o) (mkWorld (delete i (options w)) (next_node w) (_elements w)).
Proof.
  intros [Hnd Hlt] Hi. split; cbn.
  - rewrite Forall_forall in Hlt. apply Hlt.
    apply list_elem_of_lookup. eauto.
  - rewrite <- (take_drop_middle _ _ _ Hi) in Hnd.
    rewrite fmap_app, fmap_cons in Hnd.
    apply NoDup_app in Hnd as (_ & Hpre & Hpost).
    apply NoDup_cons in Hpost as [Hpost _].
    rewrite delete_take_drop, fmap_app. intros Hin.
    apply elem_of_app in Hin as [Hin | Hin].
    + apply (Hpre _ Hin). left.
    + exact (Hpost Hin).
Qed.

Lemma gone_self_option k w name arg :
  gone k w → gone k (self_option readback w name arg).
Proof.
  intros [Hlt Hnot]. unfold self_option.
  destruct (list_find _ (options w)) as [[i o] |] eqn:Hfind.
  - apply list_find_Some in Hfind as (Hi & _ & _).
    assert (Hins : ∀ l v, k ∉ node <$> <[i := mkOption (node o) l v]> (options w)).
    { intros l v. rewrite list_fmap_insert. cbn.
      rewrite list_insert_id; [exact Hnot |].
      rewrite list_lookup_fmap, Hi. reflexivity. }
    destruct (strict_eq _ _); [| destruct (String.eqb _ _)];
      split; cbn; try exact Hlt; try apply Hins.
    intros Hin. apply Hnot.
    apply list_elem_of_fmap in Hin as (x & -> & Hx).
    apply list_elem_of_fmap_2. eapply list_elem_of_delete_inv, Hx.
  - split; cbn; [lia |].
    rewrite fmap_app. cbn. intros Hin.
    apply elem_of_app in Hin as [Hin | Hin]; [exact (Hnot Hin) |].
    apply list_elem_of_singleton in Hin. lia.
Qed.

Lemma gone_option_calls calls :
  ∀ k w, gone k w → gone k (option_calls readback w calls).
Proof.
  induction calls as [| c calls IH]; intros k w Hgone; [exact Hgone |].
  cbn. apply IH, gone_self_option, Hgone.
Qed.

(** X30. [option(name, value)] looks for the first option whose [innerHTML]
    reads [name].  If there is one and [value] is [false], that option is
    removed.  If there is one and [value] is anything else, its value
    becomes [value], and its label too exactly when [innerHTML] and value
    were the same before; the other options are untouched.  If there is
    none, a new option node is appended whose [innerHTML] is what the host
    reads back for [name], its value being [value], or [name] when the
    call had no second argument.  A removed option node never comes back
    among the options, whatever [option] calls follow. *)
Theorem option_first_match (w : World) (name : string) :
  (∀ i o, first_match (options w) name i o →
     options (self_option readback w name (Some (JBool false)))
     = delete i (options w)
     ∧ ∀ arg, arg ≠ Some (JBool false) →
         let v := default JUndefined arg in
         options (self_option readback w name arg)
         = <[i := mkOption (node o)
                    (if decide (innerHTML o = value o)
                     then readback (to_innerHTML v) else innerHTML o)
                    (to_DOMString v)]> (options w))
  ∧ ((∀ o, o ∈ options w → innerHTML o ≠ name) →
       ∀ arg, options (self_option readback w name arg)
              = options w ++ [mkOption (next_node w) (readback name)
                                match arg with
                                | Some v => to_DOMString v
                                | None => name
                                end])
  ∧ (wf w → ∀ i o, first_match (options w) name i o → ∀ calls,
       node o ∉ node <$> options
                  (option_calls readback
                     (self_option readback w name (Some (JBool false))) calls)).
Proof.
  split; [| split].
  - intros i o Hfirst. pose proof Hfirst as Hfind.
    apply first_match_find in Hfind. unfold self_option. rewrite Hfind.
    split; [reflexivity |].
    intros arg Harg. cbn zeta.
    assert (Hv : strict_eq (default JUndefined arg) (JBool false) = false).
    { destruct arg as [[| | [] |] |]; try reflexivity. congruence. }
    rewrite Hv.
    destruct (String.eqb_spec (innerHTML o) (value o)) as [Heq | Hne].
    + rewrite decide_True by exact Heq. reflexivity.
    + rewrite decide_False by exact Hne. reflexivity.
  - intros Hnone arg. apply no_match_find in Hnone.
    unfold self_option. rewrite Hnone. reflexivity.
  - intros Hwf i o Hfirst calls. pose proof Hfirst as Hfind.
    apply first_match_find in Hfind.
    apply (gone_option_calls calls (node o)).
    unfold self_option. rewrite Hfind. cbn.
    apply gone_after_delete; [exact Hwf | apply Hfirst].
Qed.

(** C2. On a host that reads the label [a&b] back from [innerHTML] as
    [a&amp;b], as hosts do, [option('a&b')] followed by
    [option('a&b', 'x')] leaves two options: the scan compares
    [a&amp;b] with [a&b], finds no option of this name, and the second
    call appends a new node instead of giving the first the value [x]. *)
Theorem option_escaped_label_not_found :
  readback "a&b" = "a&amp;b" →
  options (option_calls readback (empty_select 0)
             [("a&b", None); ("a&b", Some (JStr "x"))])
  = [mkOption 0 "a&amp;b" "a&b"; mkOption 1 "a&amp;b" "x"].
Proof.
  intros Hrb. cbn [option_calls foldl fst snd].
  unfold self_option at 2. cbn [empty_select options list_find next_node
    _elements app node].
  unfold self_option. cbn [options next_node _elements].
  rewrite Hrb. reflexivity.
Qed.

(** Every select built by [option] calls is well formed. *)
Lemma wf_self_option w name arg : wf w → wf (self_option readback w name arg).
Proof.
  intros [Hnd Hlt]. unfold self_option, wf.
  destruct (list_find _ (options w)) as [[i o] |] eqn:Hfind.
  - apply list_find_Some in Hfind as (Hi & _ & _).
    assert (Hins : ∀ l v,
      node <$> <[i := mkOption (node o) l v]> (options w) = node <$> options w).
    { intros l v. rewrite list_fmap_insert. cbn. apply list_insert_id.
      rewrite list_lookup_fmap, Hi. reflexivity. }
    assert (Hnode : node o < next_node w).
    { rewrite Forall_forall in Hlt. apply Hlt, list_elem_of_lookup. eauto. }
    destruct (strict_eq _ _); [| destruct (String.eqb _ _)]; cbn.
    + split.
      * eapply sublist_NoDup; [exact Hnd | apply fmap_sublist, sublist_delete].
      * apply Forall_delete. exact Hlt.
    + rewrite Hins. split; [exact Hnd |]. apply Forall_insert; assumption.
    + rewrite Hins. split; [exact Hnd |]. apply Forall_insert; assumption.
  - cbn. split.
    + rewrite fmap_app. cbn. apply NoDup_app. split; [exact Hnd |].
      split; [| apply NoDup_singleton].
      intros k Hk Hk'. apply list_elem_of_singleton in Hk' as ->.
      apply list_elem_of_fmap in Hk as (o & Ho & Hin).
      rewrite Forall_forall in Hlt. specialize (Hlt o Hin). lia.
    + apply Forall_app. split.
      * eapply Forall_impl; [exact Hlt |]. cbn. intros. lia.
      * constructor; [cbn; lia | constructor].
Qed.

Lemma wf_option_calls calls :
  ∀ n, wf (option_calls readback (empty_select n) calls).
Proof.
  intros n. assert (Hwf : wf (empty_select n)).
  { split; cbn; constructor. }
  revert Hwf. generalize (empty_select n).
  induction calls as [| c calls IH]; intros w Hwf; [exact Hwf |].
  cbn. apply IH, wf_self_option, Hwf.
Qed.

End SelectOptions.

(** The text serialisation reads [a&b] back as [a&amp;b]. *)
Lemma option_escaped_label_not_found_witness :
  SelectCap.options
    (SelectCap.option_calls SelectCap.escape_text (SelectCap.empty_select 0)
       [("a&b", None); ("a&b", Some (JStr "x"))])
  = [SelectCap.mkOption 0 "a&amp;b" "a&b"; SelectCap.mkOption 1 "a&amp;b" "x"].
Proof.
  apply (option_escaped_label_not_found SelectCap.escape_text). reflexivity.
Defined.

Section SelectExamples.

Import SelectCap.

(** [option('a', 'x')] made one option; removing it by
    [option('a', false)] leaves none, [option('b')] appends an option whose
    value is its label, and [option('a', 'y')] after the removal does not
    bring node 0 back. *)
Lemma option_first_match_witness :
  let w := self_option escape_text (empty_select 0) "a" (Some (JStr "x")) in
  options (self_option escape_text w "a" (Some (JBool false))) = []
  ∧ options (self_option escape_text w "a" (Some (JStr "z")))
    = [mkOption 0 "a" "z"]
  ∧ options (self_option escape_text w "b" None)
    = [mkOption 0 "a" "x"; mkOption 1 "b" "b"]
  ∧ 0 ∉ node <$> options
          (option_calls escape_text
             (self_option escape_text w "a" (Some (JBool false)))
             [("a", Some (JStr "y"))]).
Proof.
  intros w.
  assert (Hfirst : first_match (options w) "a" 0 (mkOption 0 "a" "x")).
  { split; [reflexivity | split; [reflexivity |]]. intros j o' _ Hlt. lia. }
  split; [| split; [| split]].
  - exact (proj1 (proj1 (option_first_match escape_text w "a") 0 _ Hfirst)).
  - refine (proj2 (proj1 (option_first_match escape_text w "a") 0 _ Hfirst)
              (Some (JStr "z")) _).
    discriminate.
  - refine (proj1 (proj2 (option_first_match escape_text w "b")) _ None).
    intros o Ho. apply list_elem_of_singleton in Ho as ->. discriminate.
  - refine (proj2 (proj2 (option_first_match escape_text w "a")) _ 0 _ Hfirst
              [("a", Some (JStr "y"))]).
    split.
    + apply NoDup_singleton.
    + constructor; [cbn; lia | constructor].
Defined.

(** The labels and values through the calls [option('a', 'x')],
    [option('a', false)], [option('a', 'y')]: the last call makes a new
    node. *)
Example option_add_remove_add :
  options (option_calls escape_text (empty_select 0)
             [("a", Some (JStr "x")); ("a", Some (JBool false));
              ("a", Some (JStr "y"))])
  = [mkOption 1 "a" "y"].
Proof. reflexivity. Qed.

(** With two options labelled alike, the first is the one acted on. *)
Example option_duplicate_labels :
  let w := mkWorld [mkOption 0 "a" "1"; mkOption 1 "a" "2"] 2 [] in
  options (self_option escape_text w "a" (Some (JStr "9")))
  = [mkOption 0 "a" "9"; mkOption 1 "a" "2"]
  ∧ options (self_option escape_text w "a" (Some (JBool false)))
    = [mkOption 1 "a" "2"].
Proof. split; reflexivity. Qed.

(** Label and value, when alike, change together. *)
Example option_label_follows_value :
  options (option_calls escape_text (empty_select 0)
             [("a", None); ("a", Some (JStr "b"))])
  = [mkOption 0 "b" "b"].
Proof. reflexivity. Qed.

End SelectExamples.

(** ** More on removal and bulk cleanup *)

Section Cleanup.

Import Media Element Cleanup.

#[local] Arguments indexOf : simpl never.
#[local] Arguments deregister : simpl never.

Lemma indexOf_middle (l1 l2 : list RegEntry) x :
  x ∉ l1 → indexOf (l1 ++ x :: l2) x = Some (length l1).
Proof.
  intros Hx. unfold indexOf.
  assert (H : list_find (λ y, y = x) (l1 ++ x :: l2) = Some (length l1, x)).
  { apply list_find_Some. split; [| split; [reflexivity |]].
    - rewrite lookup_app_r by lia. rewrite Nat.sub_diag. reflexivity.
    - intros j y Hj Hlt ->. rewrite lookup_app_l in Hj by exact Hlt.
      apply Hx. apply list_elem_of_lookup. eauto. }
  rewrite H. reflexivity.
Qed.

Lemma delete_middle {A} (l1 l2 : list A) x :
  delete (length l1) (l1 ++ x :: l2) = l1 ++ l2.
Proof. induction l1 as [| y l1 IH]; simpl; [reflexivity | f_equal; exact IH]. Qed.

(** What a returning [remove] does to the world. *)
Lemma remove_returns w this hd :
  handles w !! this = Some hd → removable hd →
  remove w this
  = Returned
      (mkWorld
         (<[this := mkHandle (is_media hd) (is_canvas hd)
                      (if is_media hd then stop_all (srcObject hd)
                       else srcObject hd)
                      (_events hd) (deregister (_events hd) (listeners hd))
                      None]> (handles w))
         (attached_raw w)
         match indexOf (_elements w) (Wrapped this) with
         | Some index => delete index (_elements w)
         | None => _elements w
         end).
Proof.
  intros Hh Hrem. unfold remove. rewrite Hh. unfold removable in Hrem.
  destruct (is_media hd); [| reflexivity].
  destruct (srcObject hd); [reflexivity |]. exfalso. exact (Hrem eq_refl eq_refl).
Qed.

Lemma Wrapped_elem_of h (hs : list nat) : Wrapped h ∈ Wrapped <$> hs ↔ h ∈ hs.
Proof.
  rewrite list_elem_of_fmap. split.
  - intros (x & Heq & Hx). injection Heq as ->. exact Hx.
  - intros Hh. exists h. split; [reflexivity | exact Hh].
Qed.

Lemma survivors_subseteq_step canvas (hs : list nat) :
  (∀ x, x ∈ survivors canvas hs → x ∈ hs)
  ∧ (∀ h x, x ∈ survivors canvas (h :: hs) → x ∈ h :: hs).
Proof.
  induction hs as [| h' rest [IH1 IH2]].
  - split; [intros x Hx; exact Hx |].
    intros h x Hx. cbn in Hx. destruct (canvas h); [exact Hx |].
    apply elem_of_nil in Hx. contradiction.
  - split; [apply IH2 |].
    intros h x Hx. cbn [survivors] in Hx. destruct (canvas h).
    + apply elem_of_cons in Hx as [-> | Hx]; [left | right].
      apply IH2, Hx.
    + apply elem_of_cons in Hx as [-> | Hx]; [right; left | right; right].
      apply IH1, Hx.
Qed.

Lemma survivors_subseteq canvas (hs : list nat) :
  ∀ x, x ∈ survivors canvas hs → x ∈ hs.
Proof. apply survivors_subseteq_step. Qed.

Lemma removeElements_loop_survivors (w0 : World) : ∀ fuel kept rest w,
  _elements w = Wrapped <$> (kept ++ rest) →
  NoDup (kept ++ rest) →
  length rest ≤ fuel →
  (∀ h, h ∈ rest → ∃ hd, handles w !! h = Some hd ∧ removable hd
                          ∧ is_canvas hd = canvas_in w0 h) →
  ∃ w', removeElements_loop fuel (length kept) w = Returned w'
        ∧ _elements w' = Wrapped <$> (kept ++ survivors (canvas_in w0) rest)
        ∧ ∀ h, h ∈ kept ++ survivors (canvas_in w0) rest →
               handles w' !! h = handles w !! h.
Proof.
  induction fuel as [| fuel IH]; intros kept rest w Hreg Hnd Hlen Hall.
  - destruct rest; [| cbn in Hlen; lia]. cbn [removeElements_loop survivors].
    rewrite Hreg, list_lookup_fmap, lookup_ge_None_2 by (rewrite app_nil_r; lia).
    exists w. rewrite Hreg. repeat split.
  - destruct rest as [| h r].
    { cbn [removeElements_loop survivors].
      rewrite Hreg, list_lookup_fmap, lookup_ge_None_2 by (rewrite app_nil_r; lia).
      exists w. rewrite Hreg. repeat split. }
    cbn [removeElements_loop]. rewrite Hreg, list_lookup_fmap.
    rewrite lookup_app_r, Nat.sub_diag by lia. cbn [lookup list_lookup fmap option_fmap option_map].
    destruct (Hall h) as (hd & Hh & Hrem & Hcan); [left |].
    rewrite Hh.
    assert (Hkept : h ∉ kept).
    { apply NoDup_app in Hnd as (_ & Hdisj & _). intros Hin.
      apply (Hdisj h Hin). left. }
    cbn [survivors]. rewrite <- Hcan.
    destruct (is_canvas hd) eqn:Hc.
    + destruct (IH (kept ++ [h]) r w) as (w' & Hloop & Hreg' & Hsame).
      * rewrite <- app_assoc. exact Hreg.
      * rewrite <- app_assoc. exact Hnd.
      * cbn in Hlen. lia.
      * intros x Hx. apply Hall. right. exact Hx.
      * rewrite length_app, Nat.add_1_r in Hloop.
        exists w'. rewrite <- app_assoc in Hreg', Hsame.
        split; [exact Hloop | split; [exact Hreg' | exact Hsame]].
    + rewrite (remove_returns w h hd Hh Hrem).
      rewrite Hreg, fmap_app, fmap_cons.
      rewrite indexOf_middle
        by (intros Hin; rewrite Wrapped_elem_of in Hin; exact (Hkept Hin)).
      rewrite delete_middle, <- fmap_app.
      set (w1 := mkWorld _ _ _).
      assert (Hnd' : NoDup (kept ++ r)).
      { apply NoDup_app in Hnd as (Hk & Hdisj & Hr).
        apply NoDup_cons in Hr as [_ Hr]. apply NoDup_app.
        split; [exact Hk | split; [| exact Hr]].
        intros x Hx Hx'. apply (Hdisj x Hx). right. exact Hx'. }
      assert (Hr : h ∉ r).
      { apply NoDup_app in Hnd as (_ & _ & Hr).
        apply NoDup_cons in Hr as [Hr _]. exact Hr. }
      destruct r as [| h' r'].
      * exists w1. cbn [removeElements_loop].
        assert (Hnone : _elements w1 !! S (length kept) = None).
        { subst w1. cbn [_elements].
          rewrite list_lookup_fmap, lookup_ge_None_2 by (rewrite app_nil_r; lia).
          reflexivity. }
        destruct fuel; cbn [removeElements_loop]; rewrite Hnone.
        all: split; [reflexivity | split; [reflexivity |]].
        all: intros x Hx; subst w1; cbn [handles];
          rewrite app_nil_r in Hx; apply lookup_insert_ne; congruence.
      * destruct (IH (kept ++ [h']) r' w1) as (w' & Hloop & Hreg' & Hsame).
        -- subst w1. cbn [_elements]. rewrite <- app_assoc. reflexivity.
        -- rewrite <- app_assoc. exact Hnd'.
        -- cbn in Hlen. lia.
        -- intros x Hx. destruct (Hall x) as (xd & Hxd & Hxr & Hxc);
             [right; right; exact Hx |].
           exists xd. subst w1. cbn [handles].
           rewrite lookup_insert_ne; [auto |].
           intros ->. apply Hr. right. exact Hx.
        -- rewrite length_app, Nat.add_1_r in Hloop.
           exists w'. rewrite <- app_assoc in Hreg', Hsame.
           split; [exact Hloop | split; [exact Hreg' |]].
           intros x Hx. rewrite (Hsame x Hx). subst w1. cbn [handles].
           apply lookup_insert_ne. intros ->.
           apply elem_of_app in Hx as [Hx | Hx]; [exact (Hkept Hx) |].
           cbn in Hx. apply Hr.
           apply elem_of_cons in Hx as [-> | Hx]; [left |].
           right. eapply survivors_subseteq, Hx.
Qed.

Lemma survivors_length_step (hs : list nat) :
  length (survivors (λ _, false) hs) = length hs / 2
  ∧ ∀ h, length (survivors (λ _, false) (h :: hs)) = S (length hs) / 2.
Proof.
  assert (Hdiv : ∀ n, S (S n) / 2 = S (n / 2)).
  { intros n. replace (S (S n)) with (n + 1 * 2) by lia.
    rewrite Nat.div_add by lia. lia. }
  induction hs as [| h' rest [IH1 IH2]].
  - split; [reflexivity | intros h; reflexivity].
  - split; [apply IH2 |].
    intros h. cbn [survivors length]. rewrite IH1, Hdiv. reflexivity.
Qed.

Lemma survivors_ext c1 c2 (hs : list nat) :
  (∀ h, h ∈ hs → c1 h = c2 h) → survivors c1 hs = survivors c2 hs.
Proof.
  revert hs.
  assert (H : ∀ hs, ((∀ h, h ∈ hs → c1 h = c2 h) →
                      survivors c1 hs = survivors c2 hs)
                    ∧ ∀ h0, (∀ h, h ∈ h0 :: hs → c1 h = c2 h) →
                        survivors c1 (h0 :: hs) = survivors c2 (h0 :: hs)).
  { induction hs as [| h' rest [IH1 IH2]].
    - split; [reflexivity |]. intros h0 Hc. cbn.
      rewrite (Hc h0) by left. reflexivity.
    - split; [apply IH2 |]. intros h0 Hc. cbn [survivors].
      rewrite (Hc h0) by left. destruct (c2 h0).
      + f_equal. apply IH2. intros h Hh. apply Hc. right. exact Hh.
      + f_equal. apply IH1. intros h Hh. apply Hc. right. right. exact Hh. }
  intros hs. apply H.
Qed.

(** X1. On a registry of distinct handles, each of them a canvas or
    removable, [removeElements] returns and leaves exactly the [survivors]:
    every canvas that is reached, and the handle that follows each removed
    one.  The survivors are untouched: still attached, listeners in
    place. *)
Theorem removeElements_survivors (w : World) (hs : list nat) :
  _elements w = Wrapped <$> hs → NoDup hs →
  (∀ h, h ∈ hs → ∃ hd, handles w !! h = Some hd ∧ removable hd) →
  ∃ w', removeElements w = Returned w'
        ∧ _elements w' = Wrapped <$> survivors (canvas_in w) hs
        ∧ ∀ h, h ∈ survivors (canvas_in w) hs →
               handles w' !! h = handles w !! h.
Proof.
  intros Hreg Hnd Hall. unfold removeElements.
  apply (removeElements_loop_survivors w (length (_elements w)) [] hs w).
  - exact Hreg.
  - exact Hnd.
  - rewrite Hreg, length_fmap. lia.
  - intros h Hh. destruct (Hall h Hh) as (hd & Hhd & Hrem).
    exists hd. unfold canvas_in. rewrite Hhd. auto.
Qed.

Lemma removeElements_survivors_witness :
  let w0 := mkWorld ∅ ∅ [] in
  let w := addElement (addElement (addElement (addElement w0 0 9 false true)
             1 9 false false) 2 9 false false) 3 9 false false in
  ∃ w', removeElements w = Returned w'
        ∧ _elements w' = [Wrapped 0; Wrapped 2].
Proof.
  intros w0 w.
  destruct (removeElements_survivors w [0; 1; 2; 3]) as (w' & Hrun & Hreg & _).
  - reflexivity.
  - repeat (apply NoDup_cons; split; [intros H; repeat (apply elem_of_cons in H as [H | H]; [discriminate H |]); apply elem_of_nil in H; exact H |]).
    apply NoDup_nil. exact I.
  - intros h Hh.
    repeat (apply elem_of_cons in Hh as [-> | Hh];
            [eexists; split; [vm_compute; reflexivity | intros H; discriminate H] |]).
    apply elem_of_nil in Hh. contradiction.
  - exists w'. split; [exact Hrun | exact Hreg].
Defined.

(** X2. With no canvas among [n] distinct removable handles,
    [removeElements] leaves [n / 2] of them registered: it clears the
    registry only when there is at most one handle. *)
Theorem removeElements_leaves_half (w : World) (hs : list nat) :
  _elements w = Wrapped <$> hs → NoDup hs →
  (∀ h, h ∈ hs → ∃ hd, handles w !! h = Some hd ∧ removable hd
                        ∧ is_canvas hd = false) →
  ∃ w', removeElements w = Returned w'
        ∧ length (_elements w') = length hs / 2.
Proof.
  intros Hreg Hnd Hall. unfold removeElements.
  destruct (removeElements_loop_survivors w (length (_elements w)) [] hs w)
    as (w' & Hrun & Hreg' & _); try assumption.
  { rewrite Hreg, length_fmap. lia. }
  { intros h Hh. destruct (Hall h Hh) as (hd & Hhd & Hrem & _).
    exists hd. unfold canvas_in. rewrite Hhd. auto. }
  exists w'. split; [exact Hrun |]. cbn [app] in Hreg'.
  rewrite Hreg', length_fmap.
  rewrite (survivors_ext (canvas_in w) (λ _, false)).
  - apply survivors_length_step.
  - intros h Hh. destruct (Hall h Hh) as (hd & Hhd & _ & Hc).
    unfold canvas_in. rewrite Hhd. exact Hc.
Qed.

Lemma removeElements_leaves_half_witness :
  let w0 := mkWorld ∅ ∅ [] in
  let w := addElement (addElement (addElement w0 1 9 false false)
             2 9 false false) 3 9 false false in
  ∃ w', removeElements w = Returned w' ∧ length (_elements w') = 1.
Proof.
  intros w0 w.
  destruct (removeElements_leaves_half w [1; 2; 3]) as (w' & Hrun & Hlen).
  - reflexivity.
  - repeat (apply NoDup_cons; split; [intros H; repeat (apply elem_of_cons in H as [H | H]; [discriminate H |]); apply elem_of_nil in H; exact H |]).
    apply NoDup_nil. exact I.
  - intros h Hh.
    repeat (apply elem_of_cons in Hh as [-> | Hh];
            [eexists; split; [vm_compute; reflexivity |];
             split; [intros H; discriminate H | reflexivity] |]).
    apply elem_of_nil in Hh. contradiction.
  - exists w'. split; [exact Hrun | exact Hlen].
Defined.

(** X3. When the first entry of the registry is a media handle without
    stream that is not a canvas, [removeElements] raises a [TypeError] at
    once and leaves the world as it was: no handle is taken off the
    registry, no node is detached. *)
Theorem removeElements_throws_on_streamless_media (w : World) h hd rest :
  _elements w = Wrapped h :: rest → handles w !! h = Some hd →
  is_canvas hd = false → is_media hd = true → srcObject hd = None →
  removeElements w = Threw "TypeError" w.
Proof.
  intros Hreg Hh Hc Hm Hsrc. unfold removeElements. rewrite Hreg.
  cbn [length removeElements_loop]. rewrite Hreg. cbn [lookup list_lookup].
  rewrite Hh, Hc. unfold remove. rewrite Hh, Hm, Hsrc. reflexivity.
Qed.

Lemma removeElements_throws_on_streamless_media_witness :
  removeElements
    (addElement (addElement (mkWorld ∅ ∅ []) 1 9 true false) 2 9 false false)
  = Threw "TypeError"
      (addElement (addElement (mkWorld ∅ ∅ []) 1 9 true false) 2 9 false false).
Proof.
  apply (removeElements_throws_on_streamless_media _ 1
           (mkHandle true false None ∅ [] (Some 9)) [Wrapped 2]);
    reflexivity.
Defined.

(** A div, a paragraph and a video without stream: the walk removes the
    div, steps over the paragraph, and raises at the video; the removal
    made before stays. *)
Example removeElements_throws_mid_walk :
  let w := addElement (addElement (addElement (mkWorld ∅ ∅ []) 1 9 false false)
             2 9 false false) 3 9 true false in
  ∃ w', removeElements w = Threw "TypeError" w'
        ∧ _elements w' = [Wrapped 2; Wrapped 3]
        ∧ parentNode <$> handles w' !! 1 = Some None
        ∧ parentNode <$> handles w' !! 3 = Some (Some 9).
Proof. eexists. split; [vm_compute; reflexivity |]. repeat split. Qed.

Lemma delete_first_filter (l : list RegEntry) x :
  NoDup l →
  match indexOf l x with
  | Some index => delete index l
  | None => l
  end = filter (λ e, e ≠ x) l.
Proof.
  intros Hnd. induction l as [| y l IH].
  - reflexivity.
  - apply NoDup_cons in Hnd as [Hy Hnd]. rewrite filter_cons.
    unfold indexOf in *. cbn [list_find].
    destruct (decide (y = x)) as [-> | Hne].
    + cbn. rewrite decide_False by (intros H; exact (H eq_refl)).
      clear IH. induction l as [| z l IHl]; [reflexivity |].
      apply not_elem_of_cons in Hy as [Hz Hy].
      apply NoDup_cons in Hnd as [_ Hnd].
      rewrite filter_cons, decide_True by congruence.
      f_equal. apply IHl; assumption.
    + rewrite decide_True by exact Hne. specialize (IH Hnd).
      destruct (list_find (λ y0, y0 = x) l) as [[i z] |]; cbn in *.
      * f_equal. exact IH.
      * f_equal. exact IH.
Qed.

(** X4. Where [remove] returns, on a registry without repetition: the
    handle is off the registry and the other entries keep their order; its
    node is unlinked from its parent; no handler of its [_events] table is
    left among the node's listeners, and no listener was added; the tracks
    of a media handle are all stopped; no other handle is touched. *)
Theorem remove_effect (w : World) (this : nat) (hd : Handle) :
  NoDup (_elements w) → handles w !! this = Some hd → removable hd →
  ∃ w' hd',
    remove w this = Returned w' ∧ handles w' !! this = Some hd'
    ∧ _elements w' = filter (λ e, e ≠ Wrapped this) (_elements w)
    ∧ parentNode hd' = None
    ∧ (∀ ev f, _events hd !! ev = Some f → (ev, f) ∉ listeners hd')
    ∧ (∀ l, l ∈ listeners hd' → l ∈ listeners hd)
    ∧ (is_media hd = true →
       ∃ ts, srcObject hd' = Some ts ∧ Forall (λ t, track_stopped t = true) ts)
    ∧ (∀ h, h ≠ this → handles w' !! h = handles w !! h).
Proof.
  intros Hnd Hh Hrem. rewrite (remove_returns w this hd Hh Hrem).
  eexists _, _. split; [reflexivity |]. cbn [handles _elements].
  split; [apply lookup_insert_eq |]. cbn [parentNode listeners srcObject].
  split; [apply delete_first_filter, Hnd |].
  split; [reflexivity |].
  split; [| split; [| split]].
  - intros ev f Hev Hin. unfold deregister in Hin.
    apply list_elem_of_In, filter_In in Hin as [_ Hin]. cbn in Hin.
    rewrite bool_decide_eq_true_2 in Hin by exact Hev. discriminate Hin.
  - intros l Hl. unfold deregister in Hl.
    apply list_elem_of_In, filter_In in Hl as [Hl _].
    apply list_elem_of_In, Hl.
  - intros Hm. rewrite Hm. unfold removable in Hrem.
    destruct (srcObject hd) as [ts |]; [| exfalso; exact (Hrem Hm eq_refl)].
    exists (stop <$> ts). split; [reflexivity |].
    apply Forall_fmap, Forall_true. intros t. reflexivity.
  - intros h Hne. apply lookup_insert_ne. congruence.
Qed.

Lemma remove_effect_witness :
  let w := addElement (addElement (mkWorld ∅ ∅ []) 1 9 false false)
             2 9 false false in
  ∃ w', remove w 1 = Returned w' ∧ _elements w' = [Wrapped 2].
Proof.
  intros w.
  destruct (remove_effect w 1 (mkHandle false false None ∅ [] (Some 9)))
    as (w' & hd' & Hrun & _ & Hreg & _).
  - repeat (apply NoDup_cons; split; [intros H; repeat (apply elem_of_cons in H as [H | H]; [discriminate H |]); apply elem_of_nil in H; exact H |]).
    apply NoDup_nil. exact I.
  - reflexivity.
  - intros H. discriminate H.
  - exists w'. split; [exact Hrun | exact Hreg].
Defined.

(** X5. [remove()] can be called again: where a first call returns, on
    a registry without repetition, a second call returns too and leaves the
    world exactly as the first left it; the registry is not cut a second
    time. *)
Theorem remove_again_changes_nothing (w w' : World) (this : nat) :
  NoDup (_elements w) → remove w this = Returned w' →
  remove w' this = Returned w' ∧ Wrapped this ∉ _elements w'.
Proof.
  intros Hnd Hrem. split; [exact (remove_twice w this w' Hnd Hrem) |].
  unfold remove in Hrem.
  destruct (handles w !! this) as [hd |]; [| discriminate Hrem].
  assert (Hout : Wrapped this ∉ match indexOf (_elements w) (Wrapped this) with
                                | Some index => delete index (_elements w)
                                | None => _elements w
                                end).
  { rewrite delete_first_filter by exact Hnd. intros Hin.
    apply list_elem_of_filter in Hin as [Hne _]. exact (Hne eq_refl). }
  destruct (is_media hd); [destruct (srcObject hd) |];
    try discriminate Hrem; injection Hrem as <-; exact Hout.
Qed.

Lemma remove_again_changes_nothing_witness :
  let w := addElement (addElement (mkWorld ∅ ∅ []) 1 9 false false)
             2 9 false false in
  ∃ w', remove w 1 = Returned w' ∧ remove w' 1 = Returned w'.
Proof.
  intros w. eexists. split; [vm_compute; reflexivity |].
  apply (remove_again_changes_nothing w _ 1); [| vm_compute; reflexivity].
  repeat (apply NoDup_cons; split; [intros H; repeat (apply elem_of_cons in H as [H | H]; [discriminate H |]); apply elem_of_nil in H; exact H |]).
  apply NoDup_nil. exact I.
Defined.

End Cleanup.

(** ** More on the cue scheduler *)

Section CueIdentifiers.

Import Media CueIds.

Lemma cue_ids_inv_new : cue_ids_inv new_MediaElement.
Proof. split; cbn; constructor. Qed.

Lemma cue_ids_inv_addCue m t cb v :
  cue_ids_inv m → cue_ids_inv (addCue m t cb v).2.
Proof.
  intros [Hnd Hlt]. unfold cue_ids_inv.
  assert (Hc : _cues (addCue m t cb v).2
               = _cues m ++ [mkCue cb t (_cueIDCounter m) v])
    by (unfold addCue; cbn; destruct (elt_ontimeupdate m); reflexivity).
  assert (Hn : _cueIDCounter (addCue m t cb v).2 = S (_cueIDCounter m))
    by (unfold addCue; cbn; destruct (elt_ontimeupdate m); reflexivity).
  rewrite Hc, Hn. clear Hc Hn. split.
  - rewrite fmap_app. cbn. apply NoDup_app. split; [exact Hnd |].
    split; [| apply NoDup_singleton].
    intros k Hk Hk'. apply list_elem_of_singleton in Hk' as ->.
    apply list_elem_of_fmap in Hk as (c & Hc & Hin).
    rewrite Forall_forall in Hlt. specialize (Hlt c Hin). lia.
  - apply Forall_app. split.
    + eapply Forall_impl; [exact Hlt |]. cbn. intros. lia.
    + constructor; [cbn; lia | constructor].
Qed.

Lemma cue_ids_inv_removeCue m id : cue_ids_inv m → cue_ids_inv (removeCue m id).
Proof.
  intros [Hnd Hlt]. unfold removeCue. cbn [set_cues _cues].
  assert (Hloop : removeCue_loop id [] (_cues m)
                  = filter (λ c, cue_id c ≠ id) (_cues m)).
  { rewrite removeCue_loop_unique by exact Hnd. reflexivity. }
  assert (Hinv : NoDup (cue_id <$> removeCue_loop id [] (_cues m))
                 ∧ Forall (λ c, cue_id c < _cueIDCounter m)
                     (removeCue_loop id [] (_cues m))).
  { rewrite Hloop. split.
    - eapply sublist_NoDup; [exact Hnd |]. apply fmap_sublist, sublist_filter.
    - rewrite Forall_forall in Hlt |- *. intros c Hc.
      apply list_elem_of_filter in Hc as [_ Hc]. apply Hlt, Hc. }
  destruct (removeCue_loop id [] (_cues m)); exact Hinv.
Qed.

Lemma cue_ids_inv_perform m a : cue_ids_inv m → cue_ids_inv (perform m a).
Proof.
  intros Hinv. destruct a; cbn [perform].
  - apply cue_ids_inv_addCue, Hinv.
  - apply cue_ids_inv_removeCue, Hinv.
  - split; cbn; constructor.
Qed.

Lemma cue_ids_inv_step user fuel m op :
  cue_ids_inv m → cue_ids_inv (cue_step user fuel m op).
Proof.
  intros Hinv. destruct op as [t cb v | id | | t]; cbn [cue_step].
  - apply cue_ids_inv_addCue, Hinv.
  - apply cue_ids_inv_removeCue, Hinv.
  - split; cbn; constructor.
  - apply timeupdate_preserves.
    + apply cue_ids_inv_perform.
    + intros m' q H. exact H.
    + intros m' q H. exact H.
    + exact Hinv.
Qed.

Lemma cue_ids_inv_run user fuel ops :
  ∀ m, cue_ids_inv m → cue_ids_inv (cue_run user fuel m ops).
Proof.
  induction ops as [| op ops IH]; intros m Hinv; [exact Hinv |].
  cbn. apply IH, cue_ids_inv_step, Hinv.
Qed.

(** No call on the scheduler lowers the counter. *)
Lemma counter_perform n m a :
  n ≤ _cueIDCounter m → n ≤ _cueIDCounter (perform m a).
Proof.
  intros Hn. destruct a as [t cb v | id |]; cbn [perform].
  - unfold addCue. cbn. destruct (elt_ontimeupdate m); cbn; lia.
  - unfold removeCue. cbn. destruct (removeCue_loop id [] (_cues m)); cbn; lia.
  - cbn. lia.
Qed.

(** X6. Cue ids are never reused.  In every state a handle reaches from
    its constructor, whatever the cue callbacks do in between, the ids of
    its cues are distinct; the id [addCue]
    returns is the counter's value, belongs to no cue of the list, and the
    counter never goes down, not even across [clearCues]. *)
Theorem cue_ids_never_reused (user : UserCode) (fuel : nat)
    (ops : list CueOp) :
  let m := cue_run user fuel new_MediaElement ops in
  NoDup (cue_id <$> _cues m)
  ∧ (∀ t cb v, (addCue m t cb v).1 = _cueIDCounter m
               ∧ (addCue m t cb v).1 ∉ cue_id <$> _cues m)
  ∧ (∀ op, _cueIDCounter m ≤ _cueIDCounter (cue_step user fuel m op)).
Proof.
  cbn zeta.
  destruct (cue_ids_inv_run user fuel ops _ cue_ids_inv_new) as [Hnd Hlt].
  split; [exact Hnd | split].
  - intros t cb v. split; [reflexivity |]. cbn. intros Hin.
    apply list_elem_of_fmap in Hin as (c & Hc & Hin).
    rewrite Forall_forall in Hlt. specialize (Hlt c Hin). lia.
  - intros op. generalize (cue_run user fuel new_MediaElement ops). intros m.
    destruct op as [t cb v | id | | t]; cbn [cue_step].
    + unfold addCue. cbn. destruct (elt_ontimeupdate m); cbn; lia.
    + unfold removeCue. cbn. destruct (removeCue_loop id [] (_cues m)); cbn; lia.
    + cbn. lia.
    + apply (timeupdate_preserves (λ m', _cueIDCounter m ≤ _cueIDCounter m')).
      * intros m' a. apply counter_perform.
      * intros m' q H. exact H.
      * intros m' q H. exact H.
      * lia.
Qed.

(** X7. In every state a handle reaches from its constructor, whatever
    the cue callbacks do in between,
    [removeCue(id)] removes the cue of that id, if there is one, and keeps
    every other cue, in order. *)
Theorem removeCue_removes_that_cue (user : UserCode) (fuel : nat)
    (ops : list CueOp) (id : nat) :
  let m := cue_run user fuel new_MediaElement ops in
  _cues (removeCue m id) = filter (λ c, cue_id c ≠ id) (_cues m).
Proof.
  cbn zeta.
  destruct (cue_ids_inv_run user fuel ops _ cue_ids_inv_new) as [Hnd _].
  unfold removeCue. cbn [set_cues _cues].
  rewrite removeCue_loop_unique by exact Hnd. cbn [app].
  destruct (filter _ _); reflexivity.
Qed.

End CueIdentifiers.

(** ** Successive time-updates *)

Section ForwardUpdates.

Import Media.

Lemma window_split prev t t' (l : list Cue) :
  (prev <= t)%Q → (t <= t')%Q →
  filter (in_window prev t) l ++ filter (in_window t t') l
  ≡ₚ filter (in_window prev t') l.
Proof.
  intros H1 H2. induction l as [| c l IH]; [reflexivity |].
  rewrite !filter_cons.
  destruct (decide (in_window prev t c)) as [[Ha Hb] | Hn1].
  - rewrite decide_False
      by (intros [Hc _]; exact (Qlt_not_le _ _ Hc Hb)).
    rewrite decide_True
      by (split; [exact Ha | eapply Qle_trans; eassumption]).
    cbn. apply Permutation_skip, IH.
  - destruct (decide (in_window t t' c)) as [[Ha Hb] | Hn2].
    + rewrite decide_True
        by (split; [eapply Qle_lt_trans; eassumption | exact Hb]).
      rewrite <- Permutation_middle. apply Permutation_skip, IH.
    + rewrite decide_False; [exact IH |].
      intros [Ha Hb].
      destruct (Qlt_le_dec t (cue_time c)) as [Hlt | Hle].
      * apply Hn2. split; assumption.
      * apply Hn1. split; assumption.
Qed.

(** X8. On a handle whose cue callbacks return normally and make no
    call of [addCue], [removeCue] or [clearCues], two time-updates that
    move forward, from the watermark to [t] and on to [t'], make between
    them the same callback invocations as one update from the watermark to
    [t'] would, each once, and every handler run returns: stepping through
    an interval neither loses a cue nor fires one twice. *)
Theorem forward_updates_compose (user : UserCode) (fuel : nat)
    (m : MediaElement) (t t' : Q) :
  quiet user (_cues m) → length (_cues m) ≤ fuel →
  (_prevTime m <= t)%Q → (t <= t')%Q →
  calls (timeupdate user fuel m t)
    ++ calls (timeupdate user fuel (state (timeupdate user fuel m t)) t')
  ≡ₚ calls (timeupdate user fuel m t')
  ∧ ending (timeupdate user fuel m t) = Completed
  ∧ ending (timeupdate user fuel (state (timeupdate user fuel m t)) t')
    = Completed
  ∧ ending (timeupdate user fuel m t') = Completed.
Proof.
  intros Hquiet Hfuel H1 H2.
  destruct (elt_ontimeupdate m) as [[| f] |] eqn:Hh.
  - rewrite !(timeupdate_fires_window user fuel m) by assumption.
    cbn [calls state ending].
    rewrite timeupdate_fires_window by assumption.
    cbn [calls ending _prevTime _cues set_prevTime set_currentTime].
    rewrite <- fmap_app.
    split; [| repeat split].
    apply fmap_Permutation. apply window_split; [exact H1 | exact H2].
  - unfold timeupdate. cbn [elt_ontimeupdate set_currentTime].
    rewrite Hh. cbn [calls state ending elt_ontimeupdate set_currentTime].
    rewrite Hh. cbn [calls ending]. split; [reflexivity | repeat split].
  - unfold timeupdate. cbn [elt_ontimeupdate set_currentTime].
    rewrite Hh. cbn [calls state ending elt_ontimeupdate set_currentTime].
    rewrite Hh. cbn [calls ending]. split; [reflexivity | repeat split].
Qed.

Lemma forward_updates_compose_witness :
  let user : UserCode := λ _ _ _, inert in
  let m := (addCue (addCue new_MediaElement 2 20 JUndefined).2
              (1 # 2) 10 JUndefined).2 in
  calls (timeupdate user 2 m 1)
    ++ calls (timeupdate user 2 (state (timeupdate user 2 m 1)) 3)
  ≡ₚ calls (timeupdate user 2 m 3).
Proof.
  intros user m.
  apply (forward_updates_compose user 2 m 1 3).
  - intros c m' _. reflexivity.
  - cbn. lia.
  - discriminate.
  - discriminate.
Defined.

End ForwardUpdates.

(** ** More on the playback rate and on play() *)

Section RateAndPlay.

Import Media.



(** [play()] on a handle that has run to its end and holds data. *)
Lemma play_calls_witness :
  let m := mkMedia 7 (Some 7%Q) 4 1 None None 7 0 [] true None in
  elt_currentTime (play m).2 = 0%Q ∧ (play m).1 = [HostPlay].
Proof.
  intros m. split.
  - apply (proj1 (play_calls m)). reflexivity.
  - apply (proj1 (proj2 (proj2 (play_calls m)))). cbn. lia.
Defined.

End RateAndPlay.

(** ** attribute() and removeAttribute() *)

Section AttributeFacts.

Import Attributes.

Variable valid_name : string → bool.
Variable type_property : string → gmap string string → option string.

Lemma set_on_children_elements attr v (cs : list ChildNode) :
  valid_name attr = true → Forall is_element cs →
  set_on_children valid_name attr v cs
  = (LoopDone, with_attr (lower attr) v <$> cs).
Proof.
  intros Hvalid. induction 1 as [| c cs Hc _ IH]; [reflexivity |].
  destruct c as [tag attrs | d]; [| contradiction].
  cbn [set_on_children]. unfold host_setAttribute. rewrite Hvalid, IH.
  reflexivity.
Qed.

Lemma remove_on_children_elements attr (cs : list ChildNode) :
  Forall is_element cs →
  remove_on_children attr cs = (LoopDone, without_attr (lower attr) <$> cs).
Proof.
  induction 1 as [| c cs Hc _ IH]; [reflexivity |].
  destruct c as [tag attrs | d]; [| contradiction].
  cbn [remove_on_children]. rewrite IH. reflexivity.
Qed.

(** The loops stop at the first node that is no element. *)
Lemma set_on_children_text attr v (pre post : list ChildNode) d :
  valid_name attr = true → Forall is_element pre →
  set_on_children valid_name attr v (pre ++ TextChild d :: post)
  = (LoopTypeError, (with_attr (lower attr) v <$> pre) ++ TextChild d :: post).
Proof.
  intros Hvalid. induction 1 as [| c pre Hc _ IH]; [reflexivity |].
  destruct c as [tag attrs | ?]; [| contradiction].
  cbn [app set_on_children]. unfold host_setAttribute. rewrite Hvalid, IH.
  reflexivity.
Qed.

Lemma remove_on_children_text attr (pre post : list ChildNode) d :
  Forall is_element pre →
  remove_on_children attr (pre ++ TextChild d :: post)
  = (LoopTypeError, (without_attr (lower attr) <$> pre) ++ TextChild d :: post).
Proof.
  induction 1 as [| c pre Hc _ IH]; [reflexivity |].
  destruct c as [tag attrs | ?]; [| contradiction].
  cbn [app remove_on_children]. rewrite IH. reflexivity.
Qed.

(** A name the host refuses: the write raises at the first node it
    reaches, and nothing is changed. *)
Lemma attribute_invalid_name (e : Elt) (attr : string) (value : jsval) :
  valid_name attr = false → value ≠ JUndefined →
  attribute valid_name type_property e attr value
  = ThrewInvalidCharacterError e.
Proof.
  intros Hvalid Hval. unfold attribute.
  destruct (option_container type_property e) eqn:Hoc.
  - unfold option_container in Hoc. destruct e as [o cs].
    cbn [childNodes own] in *.
    destruct cs as [| [tag attrs | d] cs]; try discriminate Hoc.
    cbn [set_on_children]. unfold host_setAttribute. rewrite Hvalid.
    destruct value; try contradiction; reflexivity.
  - unfold host_setAttribute. rewrite Hvalid.
    destruct value; try contradiction; reflexivity.
Qed.

(** X10. Writing an attribute under a name the host accepts and reading
    it back, under the same name in any mix of upper and lower case, gives
    the value written, as a string: on a plain node, and on a checkbox or
    radio container whose child nodes are all elements when the attribute
    is not [type].  (The host's [type] property of a node follows its
    [type] attribute alone.) *)
Theorem attribute_round_trip (e : Elt) (attr : string) (value : jsval) :
  (∀ tag attrs k v, k ≠ "type" →
     is_option_type (type_property tag (<[k := v]> attrs))
     = is_option_type (type_property tag attrs)) →
  valid_name attr = true →
  (option_container type_property e = true →
   Forall is_element (childNodes e) ∧ lower attr ≠ "type") →
  value ≠ JUndefined →
  ∃ r e', attribute valid_name type_property e attr value = Returned r e'
          ∧ ∀ attr', lower attr' = lower attr →
              attribute valid_name type_property e' attr' JUndefined
              = Returned (RetAttr (Some (to_DOMString value))) e'.
Proof.
  intros Htype Hvalid Hel Hval. unfold attribute at 1.
  destruct (option_container type_property e) eqn:Hoc.
  - destruct (Hel eq_refl) as [Hall Hne].
    rewrite (set_on_children_elements attr _ _ Hvalid Hall). cbn [fst snd].
    exists RetUndefined,
      (mkElt (own e) (with_attr (lower attr) (to_DOMString value)
                        <$> childNodes e)).
    split; [destruct value; try contradiction; reflexivity |].
    intros attr' Hattr'. unfold attribute, option_container in *.
    cbn [childNodes].
    destruct (childNodes e) as [| [tag attrs | d] cs]; try discriminate Hoc.
    cbn [fmap list_fmap with_attr].
    rewrite (Htype tag attrs _ _ Hne), Hoc.
    unfold first_child_attribute, host_getAttribute. cbn [childNodes].
    rewrite Hattr', lookup_insert_eq. reflexivity.
  - unfold host_setAttribute. rewrite Hvalid.
    exists RetThis,
      (mkElt (<[lower attr := to_DOMString value]> (own e)) (childNodes e)).
    split; [destruct value; try contradiction; reflexivity |].
    intros attr' Hattr'. unfold attribute, option_container in *.
    cbn [childNodes]. rewrite Hoc.
    unfold host_getAttribute. cbn [own].
    rewrite Hattr', lookup_insert_eq. reflexivity.
Qed.

(** X11. On a checkbox or radio container whose child nodes are all
    elements, [attribute(attr, value)] with a name the host accepts writes
    the attribute, under its lower-case name, on every child node and not
    on the container itself, and it returns nothing: the call cannot be
    chained. *)
Theorem attribute_on_option_container (e : Elt) (attr : string) (value : jsval) :
  option_container type_property e = true → Forall is_element (childNodes e) →
  valid_name attr = true → value ≠ JUndefined →
  ∃ cs', attribute valid_name type_property e attr value
         = Returned RetUndefined (mkElt (own e) cs')
         ∧ length cs' = length (childNodes e)
         ∧ ∀ i c, childNodes e !! i = Some c →
             ∃ tag attrs, c = ElementChild tag attrs
               ∧ cs' !! i = Some (ElementChild tag
                                    (<[lower attr := to_DOMString value]> attrs)).
Proof.
  intros Hoc Hel Hvalid Hval. unfold attribute. rewrite Hoc.
  rewrite (set_on_children_elements attr _ _ Hvalid Hel). cbn [fst snd].
  exists (with_attr (lower attr) (to_DOMString value) <$> childNodes e).
  split; [destruct value; try contradiction; reflexivity |].
  split; [apply length_fmap |].
  intros i c Hi. rewrite list_lookup_fmap, Hi.
  rewrite Forall_forall in Hel.
  pose proof (Hel c (list_elem_of_lookup_2 _ _ _ Hi)) as Hc.
  destruct c as [tag attrs | d]; [| contradiction].
  exists tag, attrs. split; reflexivity.
Qed.

(** X12. After [removeAttribute(attr)] the attribute reads as [null],
    under the same name in any mix of upper and lower case, on a plain
    node and on a checkbox or radio container whose child nodes are all
    elements; of the node's own attributes the one stored under the
    lower-case name is gone and the others are as before.  The call
    returns the handle. *)
Theorem removeAttribute_then_read (e : Elt) (attr : string) :
  (option_container type_property e = true → Forall is_element (childNodes e)) →
  ∃ e', removeAttribute type_property e attr = Returned RetThis e'
        ∧ (∀ attr', lower attr' = lower attr →
             attribute valid_name type_property e' attr' JUndefined
             = Returned (RetAttr None) e')
        ∧ own e' !! lower attr = None
        ∧ ∀ k, k ≠ lower attr → own e' !! k = own e !! k.
Proof.
  intros Hel. unfold removeAttribute.
  destruct (option_container type_property e) eqn:Hoc.
  - rewrite (remove_on_children_elements attr _ (Hel eq_refl)). cbn [fst snd].
    eexists. split; [reflexivity |]. cbn [own]. unfold host_removeAttribute.
    split; [| split; [apply lookup_delete_eq |
                      intros k Hk; apply lookup_delete_ne; congruence]].
    intros attr' Hattr'. unfold attribute.
    destruct (option_container type_property (mkElt _ _)) eqn:Hoc'.
    + unfold first_child_attribute, host_getAttribute. cbn [childNodes].
      destruct (childNodes e) as [| [tag attrs | d] cs]; [reflexivity | |
        reflexivity].
      cbn [fmap list_fmap without_attr].
      rewrite Hattr', lookup_delete_eq. reflexivity.
    + unfold host_getAttribute. cbn [own].
      rewrite Hattr', lookup_delete_eq. reflexivity.
  - eexists. split; [reflexivity |]. cbn [own]. unfold host_removeAttribute.
    split; [| split; [apply lookup_delete_eq |
                      intros k Hk; apply lookup_delete_ne; congruence]].
    intros attr' Hattr'. unfold attribute. unfold option_container in *.
    cbn [childNodes]. rewrite Hoc. unfold host_getAttribute. cbn [own].
    rewrite Hattr', lookup_delete_eq. reflexivity.
Qed.

(** X13. When a node that is no element (a text node) sits among the
    child nodes of a checkbox or radio container, [attribute(attr, value)]
    with a name the host accepts and [removeAttribute(attr)] raise a
    [TypeError] at it: the element children before it have the attribute
    written, or removed, the text node and what follows are untouched, and
    [removeAttribute] has not reached the container's own attribute. *)
Theorem attribute_text_child_throws (e : Elt) (attr : string) (value : jsval)
    (pre post : list ChildNode) (d : string) :
  option_container type_property e = true →
  childNodes e = pre ++ TextChild d :: post → Forall is_element pre →
  valid_name attr = true → value ≠ JUndefined →
  attribute valid_name type_property e attr value
  = ThrewTypeError
      (mkElt (own e)
         ((with_attr (lower attr) (to_DOMString value) <$> pre)
          ++ TextChild d :: post))
  ∧ removeAttribute type_property e attr
    = ThrewTypeError
        (mkElt (own e)
           ((without_attr (lower attr) <$> pre) ++ TextChild d :: post)).
Proof.
  intros Hoc Hcs Hpre Hvalid Hval. unfold attribute, removeAttribute.
  rewrite Hoc, Hcs.
  rewrite (remove_on_children_text attr pre post d Hpre).
  rewrite (set_on_children_text attr _ pre post d Hvalid Hpre).
  split; [| reflexivity].
  destruct value; try contradiction; reflexivity.
Qed.

End AttributeFacts.

Section AttributeWitnesses.

Import Attributes.

(** The [type] property of an input follows its [type] attribute
    alone. *)
Lemma input_type_property_reflects tag (attrs : gmap string string) k v :
  k ≠ "type" →
  is_option_type (input_type_property tag (<[k := v]> attrs))
  = is_option_type (input_type_property tag attrs).
Proof.
  intros Hk. unfold input_type_property.
  rewrite lookup_insert_ne by exact Hk. reflexivity.
Qed.

Lemma attribute_round_trip_witness :
  ∃ r e', attribute nonempty_name input_type_property checkbox_box
            "disabled" (JBool true) = Returned r e'
          ∧ attribute nonempty_name input_type_property e' "DISABLED" JUndefined
            = Returned (RetAttr (Some "true")) e'.
Proof.
  destruct (attribute_round_trip nonempty_name input_type_property
              checkbox_box "disabled" (JBool true))
    as (r & e' & Hrun & Hread).
  - apply input_type_property_reflects.
  - reflexivity.
  - intros _. split; [repeat constructor | discriminate].
  - discriminate.
  - exists r, e'. split; [exact Hrun | apply Hread; reflexivity].
Defined.

Lemma attribute_on_option_container_witness :
  ∃ cs', attribute nonempty_name input_type_property checkbox_box
           "Name" (JStr "n")
         = Returned RetUndefined (mkElt {[ "title" := "t" ]} cs')
         ∧ cs' !! 1 = Some (ElementChild "LABEL" {[ "name" := "n" ]}).
Proof.
  destruct (attribute_on_option_container nonempty_name input_type_property
              checkbox_box "Name" (JStr "n"))
    as (cs' & Hrun & _ & Hat).
  - reflexivity.
  - repeat constructor.
  - reflexivity.
  - discriminate.
  - exists cs'. split; [exact Hrun |].
    destruct (Hat 1 (ElementChild "LABEL" ∅) eq_refl)
      as (tag & attrs & Hc & Hcs').
    injection Hc as <- <-. exact Hcs'.
Defined.

Lemma removeAttribute_then_read_witness :
  ∃ e', removeAttribute input_type_property checkbox_box "TITLE"
        = Returned RetThis e'
        ∧ attribute nonempty_name input_type_property e' "title" JUndefined
          = Returned (RetAttr None) e'
        ∧ own e' !! "title" = None.
Proof.
  destruct (removeAttribute_then_read nonempty_name input_type_property
              checkbox_box "TITLE")
    as (e' & Hrun & Hread & Hown & _).
  - intros _. repeat constructor.
  - exists e'. split; [exact Hrun |]. split; [apply Hread; reflexivity |].
    exact Hown.
Defined.

Lemma attribute_text_child_throws_witness :
  let box := mkElt {[ "title" := "t" ]}
               [ElementChild "INPUT" {[ "type" := "checkbox" ]};
                TextChild "note"; ElementChild "LABEL" ∅] in
  attribute nonempty_name input_type_property box "title" (JStr "u")
  = ThrewTypeError
      (mkElt {[ "title" := "t" ]}
         [ElementChild "INPUT" (<[ "title" := "u" ]> {[ "type" := "checkbox" ]});
          TextChild "note"; ElementChild "LABEL" ∅]).
Proof.
  intros box.
  refine (proj1 (attribute_text_child_throws nonempty_name input_type_property
                   box "title" (JStr "u")
                   [ElementChild "INPUT" {[ "type" := "checkbox" ]}]
                   [ElementChild "LABEL" ∅] "note"
                   eq_refl eq_refl _ eq_refl _)).
  - repeat constructor.
  - discriminate.
Defined.

(** Writing [type] on a checkbox container turns its first child into a
    text input: the next read goes to the container's own attributes, and
    finds none. *)
Example attribute_type_on_checkbox :
  ∃ e', attribute nonempty_name input_type_property checkbox_box
          "type" (JStr "text") = Returned RetUndefined e'
        ∧ option_container input_type_property e' = false
        ∧ attribute nonempty_name input_type_property e' "type" JUndefined
          = Returned (RetAttr None) e'.
Proof. eexists. repeat split. Qed.

End AttributeWitnesses.

(** ** The select capability: selected() and disable() *)

Section SelectSelection.

Import SelectCap SelectMore.

Lemma selected_loop_none v : ∀ opts i sel,
  (∀ o, o ∈ opts → value o ≠ v) → selected_loop v i opts sel = sel.
Proof.
  induction opts as [| o opts IH]; intros i sel Hnone; [reflexivity |].
  cbn. destruct (String.eqb_spec v (value o)) as [Heq | _].
  - exfalso. apply (Hnone o); [left | congruence].
  - apply IH. intros o' Ho'. apply Hnone. right. exact Ho'.
Qed.

Lemma selected_loop_last v : ∀ pre o post i sel,
  value o = v → (∀ o', o' ∈ post → value o' ≠ v) →
  selected_loop v i (pre ++ o :: post) sel = [i + length pre].
Proof.
  induction pre as [| p pre IH]; intros o post i sel Hv Hpost.
  - cbn. rewrite <- Hv, String.eqb_refl, Nat.add_0_r.
    apply selected_loop_none. rewrite Hv. exact Hpost.
  - cbn. rewrite (IH o post (S i)) by assumption. f_equal. lia.
Qed.

Lemma last_match_split (v : string) (opts : list OptionNode) :
  (∃ o, o ∈ opts ∧ value o = v) →
  ∃ pre o post, opts = pre ++ o :: post ∧ value o = v
                ∧ ∀ o', o' ∈ post → value o' ≠ v.
Proof.
  induction opts as [| x opts IH]; intros (o & Ho & Hv).
  - apply elem_of_nil in Ho. contradiction.
  - destruct (decide (Exists (λ o', value o' = v) opts)) as [Hex | Hno].
    + apply Exists_exists in Hex as (o' & Ho' & Hv').
      destruct IH as (pre & o'' & post & -> & Hv'' & Hpost); [eauto |].
      exists (x :: pre), o'', post. auto.
    + exists [], x, opts. split; [reflexivity |].
      assert (Hpost : ∀ o', o' ∈ opts → value o' ≠ v).
      { intros o' Ho' Hv'. apply Hno, Exists_exists. eauto. }
      split; [| exact Hpost].
      apply elem_of_cons in Ho as [-> | Ho]; [exact Hv |].
      exfalso. exact (Hpost o Ho Hv).
Qed.

(** X14. [selected(v)] with a string selects the last option whose
    value is [v], whatever was selected before, and leaves the selection
    alone when no option has that value; it returns the handle and does not
    touch the options. *)
Theorem selected_picks_last_match (s : Select) (v : string) :
  ∃ s', self_selected s (Some (JStr v)) = Returned RetThis s'
        ∧ sel_options s' = sel_options s
        ∧ (∀ pre o post, sel_options s = pre ++ o :: post → value o = v →
             (∀ o', o' ∈ post → value o' ≠ v) → selection s' = [length pre])
        ∧ ((∀ o, o ∈ sel_options s → value o ≠ v) →
             selection s' = selection s).
Proof.
  unfold self_selected. destruct (sel_options s) as [| o0 opts] eqn:Hopts.
  - exists s. split; [reflexivity | split; [exact Hopts |]]. split.
    + intros pre o post Heq. destruct pre; discriminate Heq.
    + reflexivity.
  - cbn [toString]. eexists. split; [reflexivity |]. cbn [sel_options selection].
    split; [reflexivity |]. split.
    + intros pre o post Heq Hv Hpost. rewrite Heq.
      apply (selected_loop_last v pre o post 0); assumption.
    + intros Hnone. apply selected_loop_none. exact Hnone.
Qed.

Lemma selected_picks_last_match_witness :
  let s := mkSelect [mkOption 0 "a" "x"; mkOption 1 "b" "y"; mkOption 2 "c" "x"]
             None [0] ∅ false in
  ∃ s', self_selected s (Some (JStr "x")) = Returned RetThis s'
        ∧ selection s' = [2].
Proof.
  intros s.
  destruct (selected_picks_last_match s "x") as (s' & Hrun & _ & Hlast & _).
  exists s'. split; [exact Hrun |].
  apply (Hlast [mkOption 0 "a" "x"; mkOption 1 "b" "y"] (mkOption 2 "c" "x") []).
  - reflexivity.
  - reflexivity.
  - intros o' Ho'. apply elem_of_nil in Ho'. contradiction.
Defined.

(** X15. When some option has the value [v], [selected(v)] followed by
    [selected()] reads [v] back: as the string [v] on a single select, as
    the one-element array on a select whose [multiple] attribute is a
    non-empty string. *)
Theorem selected_round_trip (s : Select) (v : string) :
  (∃ o, o ∈ sel_options s ∧ value o = v) →
  ∃ s', self_selected s (Some (JStr v)) = Returned RetThis s'
        ∧ multiple_attr s' = multiple_attr s
        ∧ self_selected s' None
          = Returned (match multiple_attr s with
                      | Some a => if String.eqb a "" then RetString v
                                  else RetArray [v]
                      | None => RetString v
                      end) s'.
Proof.
  intros Hex.
  destruct (last_match_split v _ Hex) as (pre & o & post & Hopts & Hv & Hpost).
  assert (Hsel : selected_loop v 0 (sel_options s) (selection s) = [length pre]).
  { rewrite Hopts. apply (selected_loop_last v pre o post 0); assumption. }
  assert (Hlook : sel_options s !! length pre = Some o).
  { rewrite Hopts, lookup_app_r, Nat.sub_diag by lia. reflexivity. }
  unfold self_selected at 1.
  destruct (sel_options s) as [| o0 rest] eqn:Hs;
    [destruct pre; discriminate Hopts |].
  cbn [toString]. eexists. split; [reflexivity |]. split; [reflexivity |].
  unfold self_selected, elt_value, selectedOptions_values.
  cbn [multiple_attr selection sel_options]. rewrite Hsel. cbn [omap list_omap].
  rewrite Hlook. cbn. rewrite Hv.
  destruct (multiple_attr s) as [a |]; [destruct (String.eqb a "") |];
    reflexivity.
Qed.

Lemma selected_round_trip_witness :
  let s := mkSelect [mkOption 0 "a" "x"; mkOption 1 "b" "y"] (Some "true") []
             ∅ false in
  ∃ s', self_selected s (Some (JStr "y")) = Returned RetThis s'
        ∧ self_selected s' None = Returned (RetArray ["y"]) s'.
Proof.
  intros s.
  destruct (selected_round_trip s "y") as (s' & Hset & _ & Hget).
  - exists (mkOption 1 "b" "y"). split; [right; left | reflexivity].
  - exists s'. split; [exact Hset | exact Hget].
Defined.

(** [selected(undefined)] and [selected(null)] raise a [TypeError]
    on a select that has an option, at [value.toString()], and return the
    handle on a select without options, where the loop body never runs. *)
Theorem selected_undefined_throws (s : Select) (v : jsval) :
  v = JUndefined ∨ v = JNull →
  (sel_options s ≠ [] → self_selected s (Some v) = ThrewTypeError s)
  ∧ (sel_options s = [] → self_selected s (Some v) = Returned RetThis s).
Proof.
  intros Hv. unfold self_selected. split; intros Hopts.
  - destruct (sel_options s); [contradiction |].
    destruct Hv as [-> | ->]; reflexivity.
  - rewrite Hopts. reflexivity.
Qed.

Lemma selected_undefined_throws_witness :
  let s := mkSelect [mkOption 0 "a" "x"] None [] ∅ false in
  self_selected s (Some JUndefined) = ThrewTypeError s.
Proof.
  intros s. apply (selected_undefined_throws s JUndefined).
  - left. reflexivity.
  - discriminate.
Defined.

(** [disable(v)] with a string disables the options whose value is
    [v], and only adds to the disabled options; it never disables the
    control.  [disable()] disables the control and no option.  With an
    argument that is not a string, [disable] does nothing and returns
    nothing. *)
Theorem disable_cases (s : Select) :
  (∀ v, let r := self_disable s (Some (JStr v)) in
        r.1 = RetThis ∧ elt_disabled r.2 = elt_disabled s
        ∧ ∀ o, o ∈ sel_options s →
            (node o ∈ disabled_options r.2
             ↔ node o ∈ disabled_options s
               ∨ ∃ o', o' ∈ sel_options s ∧ node o' = node o ∧ value o' = v))
  ∧ (let r := self_disable s None in
     r.1 = RetThis ∧ elt_disabled r.2 = true
     ∧ disabled_options r.2 = disabled_options s)
  ∧ (∀ a, (∀ v, a ≠ JStr v) → self_disable s (Some a) = (RetUndefined, s)).
Proof.
  split; [| split].
  - intros v. cbn. split; [reflexivity | split; [reflexivity |]].
    intros o Ho. rewrite elem_of_union. unfold nodes_of_value.
    rewrite elem_of_list_to_set, list_elem_of_fmap.
    split; intros [H | H]; auto; right.
    + destruct H as (o' & Hn & Hin).
      apply list_elem_of_In, filter_In in Hin as [Hin Hv].
      apply String.eqb_eq in Hv. exists o'.
      split; [apply list_elem_of_In, Hin | auto].
    + destruct H as (o' & Hin & Hn & Hv). exists o'. split; [auto |].
      apply list_elem_of_In, filter_In. split; [apply list_elem_of_In, Hin |].
      apply String.eqb_eq, Hv.
  - cbn. auto.
  - intros a Ha. destruct a as [| | b | v]; try reflexivity.
    exfalso. exact (Ha v eq_refl).
Qed.

Lemma disable_cases_witness :
  let s := mkSelect [mkOption 0 "a" "x"; mkOption 1 "b" "y"] None [] ∅ false in
  self_disable s (Some (JBool true)) = (RetUndefined, s).
Proof.
  intros s. apply (proj2 (proj2 (disable_cases s))). intros v. discriminate.
Defined.

End SelectSelection.

(** ** The sources of a media node *)

Section MediaSources.

Import MediaSrc.

Variable resolve : string → string.
Variable href : string.

Lemma remove_children_loop_odd : ∀ rest kept,
  remove_children_loop kept rest = kept ++ odd_indexed rest
  ∧ ∀ c, remove_children_loop kept (c :: rest) = kept ++ odd_indexed (c :: rest).
Proof.
  induction rest as [| c' rest IH]; intros kept.
  - split; [cbn; rewrite app_nil_r; reflexivity |].
    intros c. cbn. rewrite app_nil_r. reflexivity.
  - split; [apply IH |].
    intros c. cbn [remove_children_loop odd_indexed].
    rewrite (proj1 (IH (kept ++ [c']))), <- app_assoc. reflexivity.
Qed.

Lemma odd_indexed_lookup {A} : ∀ (l : list A) i,
  (odd_indexed l !! i = l !! (2 * i + 1))
  ∧ ∀ x, odd_indexed (x :: l) !! i = (x :: l) !! (2 * i + 1).
Proof.
  induction l as [| y l IH]; intros i.
  - split; [reflexivity |]. intros x. cbn. destruct i; reflexivity.
  - split; [apply IH |].
    intros x. cbn [odd_indexed]. destruct i as [| i]; [reflexivity |].
    replace (2 * S i + 1) with (S (S (2 * i + 1))) by lia.
    exact (proj1 (IH i)).
Qed.

Lemma odd_indexed_length {A} : ∀ (l : list A),
  length (odd_indexed l) = length l / 2
  ∧ ∀ x, length (odd_indexed (x :: l)) = S (length l) / 2.
Proof.
  assert (Hdiv : ∀ n, S (S n) / 2 = S (n / 2)).
  { intros n. replace (S (S n)) with (n + 1 * 2) by lia.
    rewrite Nat.div_add by lia. lia. }
  induction l as [| y l [IH1 IH2]].
  - split; [reflexivity | intros x; reflexivity].
  - split; [apply IH2 |].
    intros x. cbn [odd_indexed length]. rewrite IH1, Hdiv. reflexivity.
Qed.

(** X16. On a media node with at most one child, setting [src] and
    reading it back gives the address set, resolved by the host; an address
    that resolves to the page's own reads as the empty string. *)
Theorem src_round_trip (m : MediaNode) (v : string) :
  length (children m) ≤ 1 →
  get_src resolve href (set_src m v)
  = Some (if String.eqb (resolve v) href then "" else resolve v).
Proof.
  intros Hlen. unfold set_src, get_src.
  cbn [children elt_src read_src].
  destruct (children m) as [| c [| c' cs]]; [| | cbn in Hlen; lia].
  all: cbn; destruct (String.eqb (resolve v) href); reflexivity.
Qed.

(** X17. The setter of [src] walks the live child collection by index
    while removing: of [n] children the ones at the odd indices stay, so
    afterwards the node has [n / 2 + 1] children, the new source last.
    With two or more children before, [src] then reads the address of what
    was the second child, not the one just set (unless that child's address
    is the page's own). *)
Theorem src_setter_leaves_sources (m : MediaNode) (v : string) :
  children (set_src m v) = odd_indexed (children m) ++ [Some v]
  ∧ length (children (set_src m v)) = length (children m) / 2 + 1
  ∧ (∀ i, i < length (children m) / 2 →
       children (set_src m v) !! i = children m !! (2 * i + 1))
  ∧ (∀ c, children m !! 1 = Some c →
       read_src resolve c ≠ href →
       get_src resolve href (set_src m v) = Some (read_src resolve c)).
Proof.
  assert (Hch : children (set_src m v) = odd_indexed (children m) ++ [Some v]).
  { unfold set_src. cbn [children].
    rewrite (proj1 (remove_children_loop_odd (children m) [])). reflexivity. }
  split; [exact Hch |]. rewrite Hch. split; [| split].
  - rewrite length_app, (proj1 (odd_indexed_length _)). reflexivity.
  - intros i Hi. rewrite lookup_app_l
      by (rewrite (proj1 (odd_indexed_length _)); exact Hi).
    apply odd_indexed_lookup.
  - intros c Hc Hne. unfold get_src. rewrite Hch.
    destruct (children m) as [| c0 [| c1 cs]]; try discriminate Hc.
    injection Hc as ->. cbn.
    destruct (String.eqb_spec (read_src resolve c) href); [contradiction |].
    reflexivity.
Qed.

End MediaSources.

Lemma src_round_trip_witness :
  let resolve := λ u : string, if String.eqb u "" then "http://h/" else u in
  MediaSrc.get_src resolve "http://h/"
    (MediaSrc.set_src (MediaSrc.createMedia_sources [""]) "http://h/a.mp4")
  = Some "http://h/a.mp4".
Proof.
  intros resolve.
  apply (src_round_trip resolve "http://h/"
           (MediaSrc.createMedia_sources [""]) "http://h/a.mp4").
  cbn. lia.
Defined.

Lemma src_setter_leaves_sources_witness :
  let resolve := λ u : string, if String.eqb u "" then "http://h/" else u in
  let m := MediaSrc.createMedia_sources ["http://h/a.webm"; "http://h/a.mp4"] in
  MediaSrc.get_src resolve "http://h/" (MediaSrc.set_src m "http://h/b.mp4")
  = Some "http://h/a.mp4".
Proof.
  intros resolve m.
  apply (proj2 (proj2 (proj2
           (src_setter_leaves_sources resolve "http://h/" m "http://h/b.mp4")))
           (Some "http://h/a.mp4")).
  - reflexivity.
  - discriminate.
Defined.

(** ** The arguments of createCapture *)

Section CaptureArguments.

Import Capture.

Lemma parse_flags : ∀ args p,
  useVideo (foldl parse_step p args)
  = useVideo p && negb (existsb (is_string "audio") args)
  ∧ useAudio (foldl parse_step p args)
    = useAudio p && negb (existsb (is_string "video") args).
Proof.
  induction args as [| a args IH]; intros p.
  - cbn. rewrite !andb_true_r. split; reflexivity.
  - cbn [foldl existsb]. destruct (IH (parse_step p a)) as [-> ->].
    destruct a as [s | c | | f |]; cbn [parse_step is_string orb negb];
      try (split; reflexivity).
    destruct (String.eqb_spec s "video") as [-> | Hv].
    + cbn. split; [reflexivity |]. rewrite andb_false_r. reflexivity.
    + destruct (String.eqb_spec s "audio") as [-> | Ha]; cbn.
      * split; [rewrite andb_false_r; reflexivity | reflexivity].
      * split; reflexivity.
Qed.

Lemma parse_constraints_none : ∀ args p,
  forallb (λ a, negb (is_object a)) args = true →
  constraints (foldl parse_step p args) = constraints p.
Proof.
  induction args as [| a args IH]; intros p Hno; [reflexivity |].
  cbn in Hno. apply andb_true_iff in Hno as [Ha Hno].
  cbn [foldl]. rewrite IH by exact Hno.
  destruct a as [s | c | | f |]; try discriminate Ha; cbn; try reflexivity.
  destruct (String.eqb s "video"); [reflexivity |].
  destruct (String.eqb s "audio"); reflexivity.
Qed.

(** X18. What [createCapture] asks of [getUserMedia].  When the last
    object among the arguments is a constraints object, it is passed on as
    it is, whatever strings were given.  When no object is given, video is
    asked for unless ['audio'] is among the arguments, and audio unless
    ['video'] is: with both strings, neither is asked for. *)
Theorem createCapture_requested (args : list Arg) :
  (∀ pre c post, args = pre ++ ArgObject c :: post →
     forallb (λ a, negb (is_object a)) post = true →
     requested args = Given c)
  ∧ (forallb (λ a, negb (is_object a)) args = true →
       requested args
       = Flags (negb (existsb (is_string "audio") args))
           (negb (existsb (is_string "video") args))).
Proof.
  unfold requested, parse_arguments. split.
  - intros pre c post -> Hpost. rewrite foldl_app. cbn [foldl].
    rewrite parse_constraints_none by exact Hpost. reflexivity.
  - intros Hno. rewrite parse_constraints_none by exact Hno. cbn [constraints].
    destruct (parse_flags args (mkParsed true true None None)) as [-> ->].
    reflexivity.
Qed.

Lemma createCapture_requested_witness :
  requested [ArgString "video"; ArgFunction 0; ArgString "audio"]
  = Flags false false
  ∧ requested [ArgString "video"; ArgObject 7] = Given 7.
Proof.
  split.
  - apply (proj2 (createCapture_requested
                    [ArgString "video"; ArgFunction 0; ArgString "audio"])).
    reflexivity.
  - apply (proj1 (createCapture_requested [ArgString "video"; ArgObject 7])
             [ArgString "video"] 7 []); reflexivity.
Defined.

End CaptureArguments.

(** ** Files *)

Section FileFacts.

Import File.

Variable JSON : Type.
Variable XML : Type.
Variable JSON_parse : string → option JSON.
Variable parseFromString : string → XML.

Lemma split_slash_nonempty s : split_slash s ≠ [].
Proof.
  destruct s as [| c s]; cbn [split_slash]; [discriminate |].
  destruct (String.eqb (String c "") "/"); [discriminate |].
  destruct (split_slash s); discriminate.
Qed.

Lemma one_char_eqb c d : String.eqb (String c "") (String d "") = Ascii.eqb c d.
Proof. cbn. destruct (Ascii.eqb c d); reflexivity. Qed.

Lemma append_cons c p s : String c p +:+ s = String c (p +:+ s).
Proof. reflexivity. Qed.

Lemma append_nil s : "" +:+ s = s.
Proof. reflexivity. Qed.

(** A piece without slash in front of a slash is the first piece. *)
Lemma split_slash_head p s :
  slash_free p = true →
  split_slash (p +:+ "/" +:+ s) = p :: split_slash s.
Proof.
  induction p as [| c p IH]; intros Hp; [reflexivity |].
  cbn [slash_free] in Hp. apply andb_true_iff in Hp as [Hc Hp].
  apply negb_true_iff in Hc.
  rewrite append_cons. cbn [split_slash]. rewrite Hc.
  rewrite IH by exact Hp. reflexivity.
Qed.

Lemma split_slash_whole s : slash_free s = true → split_slash s = [s].
Proof.
  induction s as [| c s IH]; intros Hs; [reflexivity |].
  cbn [slash_free] in Hs. apply andb_true_iff in Hs as [Hc Hs].
  apply negb_true_iff in Hc.
  cbn [split_slash]. rewrite Hc.
  rewrite IH by exact Hs. reflexivity.
Qed.

(** The first piece has no slash; further pieces exist exactly when the
    string goes on with a slash after it. *)
Lemma split_slash_first s :
  ∃ h tl, split_slash s = h :: tl ∧ slash_free h = true
          ∧ (tl = [] → s = h)
          ∧ (tl ≠ [] → ∃ r, s = h +:+ "/" +:+ r).
Proof.
  induction s as [| c s (h & tl & Hs & Hh & Hnil & Hcons)].
  - exists "", []. repeat split; try reflexivity. intros H. contradiction.
  - cbn [split_slash].
    destruct (String.eqb (String c "") "/") eqn:Hc.
    + exists "", (split_slash s). repeat split.
      * intros H. exfalso. exact (split_slash_nonempty s H).
      * intros _. exists s. apply String.eqb_eq in Hc. injection Hc as ->.
        reflexivity.
    + rewrite Hs. exists (String c h), tl. split; [reflexivity |].
      split; [cbn [slash_free]; rewrite Hc, Hh; reflexivity |]. split.
      * intros Htl. rewrite <- (Hnil Htl). reflexivity.
      * intros Htl. destruct (Hcons Htl) as (r & ->). exists r. reflexivity.
Qed.

Lemma prefix_append p s : String.prefix p (p +:+ s) = true.
Proof.
  induction p as [| c p IH]; [destruct s; reflexivity |].
  rewrite append_cons. cbn [String.prefix].
  destruct (Ascii.ascii_dec c c); [exact IH | contradiction].
Qed.

Lemma prefix_split p t :
  String.prefix p t = true → ∃ s, t = p +:+ s.
Proof.
  revert t. induction p as [| c p IH]; intros t Hp.
  - exists t. reflexivity.
  - destruct t as [| d t]; [discriminate Hp |]. cbn in Hp.
    destruct (Ascii.ascii_dec c d) as [-> | _]; [| discriminate Hp].
    destruct (IH t Hp) as (s & ->). exists s. reflexivity.
Qed.

Lemma append_assoc_slash p r :
  (p +:+ "/") +:+ r = p +:+ "/" +:+ r.
Proof.
  induction p as [| c p IH]; [reflexivity |].
  rewrite !append_cons, IH. reflexivity.
Qed.

(** The test [/^p\//] on a type and the constructor's split agree. *)
Lemma prefix_slash_iff p t :
  slash_free p = true →
  String.prefix (p +:+ "/") t = true
  ↔ split_slash t !! 0 = Some p ∧ split_slash t !! 1 ≠ None.
Proof.
  intros Hp. split.
  - intros Hpre. apply prefix_split in Hpre as (r & ->).
    rewrite append_assoc_slash, split_slash_head by exact Hp.
    split; [reflexivity |]. cbn.
    destruct (split_slash r) eqn:Hr; [exact (False_ind _ (split_slash_nonempty r Hr)) |].
    discriminate.
  - intros [H0 H1].
    destruct (split_slash_first t) as (h & tl & Hs & _ & _ & Hcons).
    rewrite Hs in H0, H1. cbn in H0, H1. injection H0 as ->.
    destruct Hcons as (r & ->); [intros ->; exact (H1 eq_refl) |].
    rewrite <- append_assoc_slash. apply prefix_append.
Qed.

(** X19. The way [_load] takes agrees with the type fields of the
    [p5.File] the callback receives: the file is handed over at once with
    an object URL exactly when its [type] is ['video'] or ['audio'] and it
    has a [subtype]; it is read as text exactly when its [type] is ['text']
    with a [subtype], or its full type is ['application/json']; every other
    file is read as a data URL. *)
Theorem load_route_by_type (f : RawFile) :
  let p := new_File JSON XML f in
  (route f = ReadAsText
   ↔ (type p = "text" ∧ subtype p ≠ None) ∨ raw_type f = "application/json")
  ∧ (route f = ObjectURL
     ↔ (type p = "video" ∨ type p = "audio") ∧ subtype p ≠ None).
Proof.
  cbn zeta. unfold route, new_File. cbn [type subtype].
  assert (Ht : String.prefix "text/" (raw_type f) = true
               ↔ split_slash (raw_type f) !! 0 = Some "text"
                 ∧ split_slash (raw_type f) !! 1 ≠ None)
    by exact (prefix_slash_iff "text" (raw_type f) eq_refl).
  assert (Hv : String.prefix "video/" (raw_type f) = true
               ↔ split_slash (raw_type f) !! 0 = Some "video"
                 ∧ split_slash (raw_type f) !! 1 ≠ None)
    by exact (prefix_slash_iff "video" (raw_type f) eq_refl).
  assert (Ha : String.prefix "audio/" (raw_type f) = true
               ↔ split_slash (raw_type f) !! 0 = Some "audio"
                 ∧ split_slash (raw_type f) !! 1 ≠ None)
    by exact (prefix_slash_iff "audio" (raw_type f) eq_refl).
  destruct (split_slash (raw_type f)) as [| h tl] eqn:Hs;
    [exact (False_ind _ (split_slash_nonempty _ Hs)) |].
  cbn [lookup list_lookup default] in *.
  assert (Hjson : String.eqb (raw_type f) "application/json" = true
                  → h = "application") .
  { intros Hj. apply String.eqb_eq in Hj. rewrite Hj in Hs.
    cbn in Hs. injection Hs as <- _. reflexivity. }
  destruct (String.prefix "text/" (raw_type f)) eqn:Hpt.
  - destruct (proj1 Ht eq_refl) as [Hh Htl]. injection Hh as ->.
    cbn. split; split; try discriminate; auto.
    intros [[H | H] _]; discriminate H.
  - assert (Hnt : ¬ (h = "text" ∧ tl !! 0 ≠ None)).
    { intros [-> Htl]. assert (false = true) as Hc by (apply Ht; auto).
      discriminate Hc. }
    destruct (String.eqb_spec (raw_type f) "application/json") as [Hj | Hj].
    + cbn. specialize (Hjson eq_refl). subst h.
      split; split; try discriminate; auto.
      intros [[H | H] _]; discriminate H.
    + cbn [orb].
      destruct (String.prefix "video/" (raw_type f)) eqn:Hpv.
      * destruct (proj1 Hv eq_refl) as [Hh Htl]. injection Hh as ->. cbn.
        split; split; try discriminate; auto.
        intros [[H _] | H]; [discriminate H | contradiction].
      * destruct (String.prefix "audio/" (raw_type f)) eqn:Hpa.
        -- destruct (proj1 Ha eq_refl) as [Hh Htl]. injection Hh as ->. cbn.
           split; split; try discriminate; auto.
           intros [[H _] | H]; [discriminate H | contradiction].
        -- cbn. split; split; try discriminate.
           ++ intros [H | H]; [contradiction | contradiction].
           ++ intros [[-> | ->] Htl]; exfalso.
              ** assert (false = true) as Hc by (apply Hv; auto).
                 discriminate Hc.
              ** assert (false = true) as Hc by (apply Ha; auto).
                 discriminate Hc.
Qed.

(** X20. The callback of [_load] is called once with the file, except
    for a file of type ['application/json'] whose text is not JSON: then
    the handler raises and the callback is never called.  A file read as a
    data URL is never parsed: its [data] is the data URL as read.  A file of
    type ['text/xml'] is read as text and parsed. *)
Theorem load_callback_and_data (f : RawFile) (as_text as_data_url : string) :
  let loaded := _load JSON XML JSON_parse parseFromString f as_text as_data_url in
  (loaded = None
   ↔ raw_type f = "application/json" ∧ JSON_parse as_text = None)
  ∧ (route f = ReadAsDataURL →
       loaded = Some (set_data JSON XML (new_File JSON XML f)
                        (DataResult as_data_url)))
  ∧ (raw_type f = "text/xml" →
       loaded = Some (set_data JSON XML (new_File JSON XML f)
                        (DataXML (parseFromString as_text)))).
Proof.
  cbn zeta. unfold _load, route, loader_onload. cbn [file new_File raw_type].
  destruct (String.eqb_spec (raw_type f) "application/json") as [Hj | Hj].
  - rewrite Hj. cbn. destruct (JSON_parse as_text).
    + split; [split; [discriminate | intros [_ H]; discriminate H] |].
      split; intros H; discriminate H.
    + split; [split; auto |]. split; intros H; discriminate H.
  - rewrite orb_false_r.
    destruct (String.eqb_spec (raw_type f) "text/xml") as [Hx | Hx].
    + rewrite Hx. cbn. rewrite <- Hx.
      split; [split; [discriminate | intros [H _]; congruence] |].
      split; [intros H; discriminate H | reflexivity].
    + destruct (String.prefix "text/" (raw_type f)).
      * split; [split; [discriminate | intros [H _]; congruence] |].
        split; [intros H; discriminate H | intros H; congruence].
      * destruct (negb _).
        -- split; [split; [discriminate | intros [H _]; congruence] |].
           split; [reflexivity | intros H; congruence].
        -- split; [split; [discriminate | intros [H _]; congruence] |].
           split; [intros H; discriminate H | intros H; congruence].
Qed.

(** X21. The type fields of a [p5.File]: for a host type [a/b] with no
    further slash, [type] is [a] and [subtype] is [b]; for a host type
    without slash, such as the empty type of an unknown file, [type] is the
    whole string and [subtype] is undefined. *)
Theorem file_type_split (f : RawFile) :
  (∀ a b, raw_type f = a +:+ "/" +:+ b →
     slash_free a = true → slash_free b = true →
     type (new_File JSON XML f) = a ∧ subtype (new_File JSON XML f) = Some b)
  ∧ (slash_free (raw_type f) = true →
       type (new_File JSON XML f) = raw_type f
       ∧ subtype (new_File JSON XML f) = None).
Proof.
  unfold new_File. cbn [type subtype]. split.
  - intros a b -> Ha Hb.
    rewrite split_slash_head, (split_slash_whole b) by assumption.
    split; reflexivity.
  - intros Hs. rewrite split_slash_whole by exact Hs. split; reflexivity.
Qed.

End FileFacts.

Lemma load_route_by_type_witness :
  File.route (File.mkRaw "video/mp4" "clip.mp4" 10) = File.ObjectURL
  ∧ File.route (File.mkRaw "application/json" "a.json" 2) = File.ReadAsText.
Proof.
  split.
  - apply (proj2 (load_route_by_type unit unit
                    (File.mkRaw "video/mp4" "clip.mp4" 10))).
    split; [left; reflexivity | discriminate].
  - apply (proj1 (load_route_by_type unit unit
                    (File.mkRaw "application/json" "a.json" 2))).
    right. reflexivity.
Defined.

Lemma load_callback_and_data_witness :
  File._load unit unit (λ _, None) (λ _, tt)
    (File.mkRaw "application/json" "a.json" 2) "{" "data:"
  = None
  ∧ File.data <$> File._load unit unit (λ _, None) (λ _, tt)
      (File.mkRaw "image/png" "a.png" 2) "" "data:image/png;base64,AA"
    = Some (File.DataResult "data:image/png;base64,AA").
Proof.
  split.
  - apply (proj1 (load_callback_and_data unit unit (λ _, None) (λ _, tt)
                    (File.mkRaw "application/json" "a.json" 2) "{" "data:")).
    split; reflexivity.
  - rewrite (proj1 (proj2 (load_callback_and_data unit unit (λ _, None)
                             (λ _, tt) (File.mkRaw "image/png" "a.png" 2) ""
                             "data:image/png;base64,AA")) eq_refl).
    reflexivity.
Defined.

Lemma file_type_split_witness :
  File.type (File.new_File unit unit (File.mkRaw "image/png" "a.png" 2)) = "image"
  ∧ File.subtype (File.new_File unit unit (File.mkRaw "image/png" "a.png" 2))
    = Some "png".
Proof.
  apply (proj1 (file_type_split unit unit (File.mkRaw "image/png" "a.png" 2))
           "image" "png"); reflexivity.
Defined.

(** ** connect() and disconnect() *)

Section AudioRoutingFacts.

Import AudioRouting.

(** X22. [disconnect()] raises ['nothing to disconnect'] on a handle
    that was never connected.  Once a [connect] has returned, [disconnect]
    returns, leaves the source node without connection, and returns again
    when repeated. *)
Theorem disconnect_after_connect (sound : bool) (h h1 : Handle)
    (obj : option AudioObject) :
  (audioSourceNode h = None →
     disconnect h = Threw "nothing to disconnect")
  ∧ (connect sound h obj = Returned h1 →
       disconnect h1 = Returned (mkHandle (Some ∅))
       ∧ disconnect (mkHandle (Some ∅)) = Returned (mkHandle (Some ∅))).
Proof.
  split.
  - intros Hnone. unfold disconnect. rewrite Hnone. reflexivity.
  - unfold connect. destruct (negb _); [discriminate |].
    intros H. injection H as <-. split; [| reflexivity].
    unfold disconnect, connect_to.
    destruct h as [[cs |]], obj as [[n c [i |]] |]; reflexivity.
Qed.

Lemma disconnect_after_connect_witness :
  disconnect (mkHandle None) = Threw "nothing to disconnect"
  ∧ ∃ h1, connect true (mkHandle None) None = Returned h1
          ∧ disconnect h1 = Returned (mkHandle (Some ∅)).
Proof.
  split.
  - apply (proj1 (disconnect_after_connect true (mkHandle None)
                    (mkHandle None) None)). reflexivity.
  - exists (mkHandle (Some ({[None]} ∪ {[None]}))). split; [reflexivity |].
    exact (proj1 (proj2 (disconnect_after_connect true (mkHandle None)
                           (mkHandle (Some ({[None]} ∪ {[None]}))) None)
                    eq_refl)).
Defined.

(** X23. The first [connect(obj)] on a handle routes its sound to the
    master output as well as to [obj]; a [connect(obj)] after a
    [disconnect()] routes it to [obj] alone, because the source node is
    still there and the master output is connected only when the node is
    made. *)
Theorem connect_master_only_first (sound : bool) (obj : option AudioObject) :
  (sound || match obj with Some o => has_context o | None => false end) = true →
  connect sound (mkHandle None) obj
  = Returned (mkHandle (Some ({[None]} ∪ {[target_of obj]})))
  ∧ ∀ h0 h1, disconnect h0 = Returned h1 →
      connect sound h1 obj
      = Returned (mkHandle (Some (∅ ∪ {[target_of obj]}))).
Proof.
  intros Hctx. split.
  - unfold connect. rewrite Hctx. cbn [negb audioSourceNode].
    destruct obj as [[n c [i |]] |]; reflexivity.
  - intros h0 h1 Hdis. unfold disconnect in Hdis.
    destruct (audioSourceNode h0); [| discriminate Hdis].
    injection Hdis as <-. unfold connect. rewrite Hctx.
    cbn [negb audioSourceNode].
    destruct obj as [[n c [i |]] |]; reflexivity.
Qed.

Lemma connect_master_only_first_witness :
  let synth := mkAudio 5 true (Some 6) in
  connect false (mkHandle None) (Some synth)
  = Returned (mkHandle (Some ({[None]} ∪ {[Some 6]}))).
Proof.
  intros synth.
  apply (proj1 (connect_master_only_first false (Some synth) eq_refl)).
Defined.

(** Without p5.sound, [connect] raises its message exactly when no
    audio context can be read from the argument: no argument, or one
    without [context]; the handle is then left as it was, not even a source
    node is made. *)
Theorem connect_without_context (h : Handle) (obj : option AudioObject) :
  (∃ m, connect false h obj = Threw m)
  ↔ obj = None ∨ ∃ o, obj = Some o ∧ has_context o = false.
Proof.
  unfold connect. cbn [orb]. split.
  - intros [m Hm]. destruct obj as [o |]; [| auto].
    right. exists o. split; [reflexivity |].
    destruct (has_context o); [discriminate Hm | reflexivity].
  - intros [-> | (o & -> & Ho)]; [| rewrite Ho]; cbn; eauto.
Qed.

Lemma connect_without_context_witness :
  ∃ m, connect false (mkHandle None) None = Threw m.
Proof.
  apply (proj2 (connect_without_context (mkHandle None) None)).
  left. reflexivity.
Defined.

End AudioRoutingFacts.

(** ** createRadio: the group name and option() *)

Section RadioCreation.

Import RadioCreate.

Lemma transitions_cons a b l :
  transitions (a :: b :: l)
  = (if decide (a = b) then 0 else 1) + transitions (b :: l).
Proof.
  unfold transitions. cbn [tail zip zip_with List.filter fst snd].
  destruct (decide (a = b)) as [Heq | Hne].
  - rewrite bool_decide_eq_true_2 by exact Heq. reflexivity.
  - rewrite bool_decide_eq_false_2 by exact Hne. reflexivity.
Qed.

Lemma count_loop_transitions : ∀ rest prev c,
  count_loop prev rest c = c + transitions (prev :: rest).
Proof.
  induction rest as [| cur rest IH]; intros prev c.
  - cbn. unfold transitions. cbn. lia.
  - cbn [count_loop]. rewrite IH, transitions_cons.
    destruct (decide (prev = cur)); lia.
Qed.

Lemma radio_count_cons a l : radio_count (a :: l) = S (transitions (a :: l)).
Proof.
  destruct l as [| b l]; [reflexivity |].
  unfold radio_count. rewrite count_loop_transitions. reflexivity.
Qed.

(** X24. The [count] of [createRadio] is 0 on a page without radio
    inputs and otherwise one more than the number of places, in document
    order, where a radio's name differs from the name of the next. *)
Theorem radio_count_transitions (radios : list RadioName) :
  radio_count radios
  = match radios with
    | [] => 0
    | _ :: _ => S (transitions radios)
    end.
Proof. destruct radios as [| a l]; [reflexivity | apply radio_count_cons]. Qed.

Lemma radio_count_same a l : radio_count (a :: a :: l) = radio_count (a :: l).
Proof.
  rewrite !radio_count_cons, transitions_cons, decide_True by reflexivity.
  reflexivity.
Qed.

Lemma radio_count_other a b l :
  a ≠ b → radio_count (a :: b :: l) = S (radio_count (b :: l)).
Proof.
  intros Hne. rewrite !radio_count_cons, transitions_cons, decide_False by exact Hne.
  reflexivity.
Qed.

Lemma radio_count_block a n l :
  (∀ b, b ∈ l → a ≠ b) →
  radio_count (replicate n a ++ l)
  = (if decide (n = 0) then 0 else 1) + radio_count l.
Proof.
  intros Hl. destruct n as [| n]; [reflexivity |]. cbn [decide].
  rewrite decide_False by lia.
  induction n as [| n IH].
  - cbn [replicate app]. destruct l as [| b l]; [reflexivity |].
    rewrite radio_count_other; [reflexivity |]. apply Hl. left.
  - cbn [replicate app] in IH |- *. rewrite radio_count_same. exact IH.
Qed.

Lemma group_names_elem groups b :
  b ∈ group_names groups → b ∈ fst <$> groups.
Proof.
  unfold group_names. induction groups as [| [a n] groups IH]; cbn.
  - intros H. exact H.
  - intros H. apply elem_of_app in H as [H | H].
    + apply elem_of_replicate in H as [-> _]. left.
    + right. apply IH, H.
Qed.

(** X25. On a page made of groups with distinct names, each group's
    radios standing together, the [count] is the number of groups that have
    at least one radio: a group still without option is not counted, so the
    group made next gets the number of a group that exists already. *)
Theorem radio_count_groups (groups : list (RadioName * nat)) :
  NoDup (fst <$> groups) →
  radio_count (group_names groups)
  = length (List.filter (λ g : RadioName * nat, negb (g.2 =? 0)) groups).
Proof.
  induction groups as [| [a n] groups IH]; intros Hnd; [reflexivity |].
  rewrite fmap_cons in Hnd. apply NoDup_cons in Hnd as [Ha Hnd].
  unfold group_names. rewrite fmap_cons. cbn [concat fst snd].
  fold (group_names groups).
  rewrite radio_count_block.
  - rewrite IH by exact Hnd. cbn [List.filter snd].
    destruct n as [| n]; reflexivity.
  - intros b Hb ->. apply Ha, group_names_elem, Hb.
Qed.

Lemma radio_count_groups_witness :
  radio_count (group_names [(DefaultRadio 0, 3); (DefaultRadio 1, 0)]) = 1.
Proof.
  apply (radio_count_groups [(DefaultRadio 0, 3); (DefaultRadio 1, 0)]).
  apply NoDup_cons. split.
  - intros H. apply list_elem_of_singleton in H. discriminate H.
  - apply NoDup_singleton.
Defined.

Lemma option_calls_children : ∀ calls r,
  count (option_calls r calls) = count r
  ∧ input_names (elt_children (option_calls r calls))
    = input_names (elt_children r)
      ++ replicate (length calls) (DefaultRadio (count r))
  ∧ input_values (elt_children (option_calls r calls))
    = input_values (elt_children r)
      ++ ((λ c : jsval * jsval,
             if truthy c.2 then to_input_value c.2 else to_input_value c.1)
          <$> calls)
  ∧ input_ids (elt_children (option_calls r calls))
    = input_ids (elt_children r)
      ++ ((λ t, (count r, t))
          <$> seq (next_times r)
                (length (List.filter (λ c : jsval * jsval, truthy c.1) calls))).
Proof.
  induction calls as [| [name value] calls IH]; intros r.
  - cbn. rewrite !app_nil_r. auto.
  - change (option_calls r ((name, value) :: calls))
      with (option_calls (self_option r name value) calls).
    destruct (IH (self_option r name value)) as (Hc & Hn & Hv & Hi).
    rewrite Hc, Hn, Hv, Hi. clear IH Hc Hn Hv Hi.
    unfold self_option, input_names, input_values, input_ids.
    cbn [List.filter fst snd length]. destruct (truthy name);
      cbn [count next_times elt_children];
      rewrite !omap_app; cbn [omap list_omap app replicate length seq fmap list_fmap];
      rewrite <- !app_assoc; auto.
Qed.

(** X26. Every [option] call of a group adds one radio input, in call
    order.  All inputs carry the group name that was fixed when the group
    was made; an input's value is the [value] argument when that is truthy
    and the [name] argument otherwise, as the host's [value] setter
    converts it ([null] gives the empty string, [undefined] the string
    "undefined"); the inputs of the calls with a
    truthy [name] get the ids 0, 1, 2, ... of the group, no two alike. *)
Theorem radio_options (page : list RadioName) (calls : list (jsval * jsval)) :
  let r := option_calls (createRadio page) calls in
  count r = radio_count page
  ∧ input_names (elt_children r)
    = replicate (length calls) (DefaultRadio (radio_count page))
  ∧ input_values (elt_children r)
    = (λ c : jsval * jsval,
         if truthy c.2 then to_input_value c.2 else to_input_value c.1) <$> calls
  ∧ input_ids (elt_children r)
    = (λ t, (radio_count page, t))
      <$> seq 0 (length (List.filter (λ c : jsval * jsval, truthy c.1) calls))
  ∧ NoDup (input_ids (elt_children r)).
Proof.
  cbn zeta.
  destruct (option_calls_children calls (createRadio page)) as (Hc & Hn & Hv & Hi).
  cbn [createRadio count next_times elt_children input_names input_values
       input_ids omap list_omap app] in *.
  repeat split; try assumption.
  rewrite Hi. apply NoDup_fmap_2; [| apply NoDup_seq].
  intros x y H. injection H as ->. reflexivity.
Qed.

(** [option(null)] makes an input whose value is the empty string and no
    label; [option('a', null)] takes the name for the value. *)
Example radio_option_null :
  elt_children (option_calls (createRadio [])
                  [(JNull, JUndefined); (JStr "a", JNull)])
  = [RadioInput (DefaultRadio 0) "" None;
     RadioInput (DefaultRadio 0) "a" (Some (0, 0)); Label (0, 0) "a"].
Proof. reflexivity. Qed.

End RadioCreation.

(** ** The radio group: selecting, then reading *)

Section RadioRoundTrip.

Import RadioCap.

(** A list on which the test holds somewhere splits at the last place
    where it holds. *)
Lemma last_true_split {A} (f : A → bool) (l : list A) :
  existsb f l = true →
  ∃ pre c post, l = pre ++ c :: post ∧ f c = true ∧ existsb f post = false.
Proof.
  induction l as [| x l IH]; intros Hex; [discriminate Hex |].
  cbn [existsb] in Hex. destruct (existsb f l) eqn:Hl.
  - destruct (IH eq_refl) as (pre & c & post & -> & Hc & Hpost).
    exists (x :: pre), c, post. repeat split; assumption.
  - rewrite orb_false_r in Hex. exists [], x, l. repeat split; assumption.
Qed.

(** Where some input child is checked and every checked input child has
    the value [s], the reading loop finds [s]. *)
Lemma first_checked_all s (l : list Child) :
  (∃ d, d ∈ l ∧ tagName d = "INPUT" ∧ checked d = true) →
  (∀ d, d ∈ l → tagName d = "INPUT" → checked d = true → value d = s) →
  first_checked (_getInputChildrenArray l) = Some s.
Proof.
  unfold first_checked, _getInputChildrenArray.
  induction l as [| c l IH]; intros (d & Hd & Htag & Hchk) Hall.
  - apply elem_of_nil in Hd. contradiction.
  - assert (Hall' : ∀ d, d ∈ l → tagName d = "INPUT" → checked d = true
                         → value d = s).
    { intros d' Hd'. apply Hall. right. exact Hd'. }
    cbn [List.filter].
    destruct (String.eqb_spec (tagName c) "INPUT") as [Hc | Hc].
    + cbn [List.find]. destruct (checked c) eqn:Hcc; cbn [Bool.eqb].
      * cbn. f_equal. apply Hall; [left | exact Hc | exact Hcc].
      * apply IH; [| exact Hall'].
        apply elem_of_cons in Hd as [-> | Hd]; [congruence |].
        exists d. repeat split; assumption.
    + apply IH; [| exact Hall'].
      apply elem_of_cons in Hd as [-> | Hd]; [contradiction |].
      exists d. repeat split; assumption.
Qed.

Lemma first_checked_after_check s (children : list Child) :
  (∀ c, c ∈ children → tagName c = "INPUT" → checked c = false) →
  existsb (matches (JStr s)) children = true →
  first_checked (_getInputChildrenArray (check_matching (JStr s) children))
  = Some s.
Proof.
  intros Hun Hex.
  assert (Hat : ∀ i c, children !! i = Some c →
            check_matching (JStr s) children !! i
            = Some (if matches (JStr s) c
                    then set_checked c
                           (negb (existsb (rival (JStr s) c)
                                    (drop (S i) children)))
                    else if existsb (rival (JStr s) c) children
                         then set_checked c false else c)).
  { intros i c Hi.
    exact (check_loop_todo (JStr s) (length children) [] children i c
             (Nat.le_refl _) Hi). }
  assert (Hlen : length (check_matching (JStr s) children) = length children).
  { unfold check_matching. rewrite check_loop_length. reflexivity. }
  apply first_checked_all.
  - destruct (last_true_split _ _ Hex) as (pre & c & post & Hsplit & Hc & Hpost).
    exists (set_checked c true). split; [| split; [| reflexivity]].
    + apply list_elem_of_lookup. exists (length pre).
      rewrite (Hat (length pre) c)
        by (rewrite Hsplit; apply list_lookup_middle; reflexivity).
      rewrite Hc. do 2 f_equal.
      assert (Hdrop : drop (S (length pre)) children = post).
      { rewrite Hsplit. rewrite (cons_middle c pre post), app_assoc.
        rewrite drop_app_length'; [reflexivity |].
        rewrite length_app. cbn. lia. }
      rewrite Hdrop. clear -Hpost.
      induction post as [| e post IH]; [reflexivity |].
      cbn [existsb] in *. apply orb_false_iff in Hpost as [He Hpost].
      unfold rival at 1. rewrite He. cbn. apply IH, Hpost.
    + unfold matches in Hc. apply andb_true_iff in Hc as [Htag _].
      cbn. apply String.eqb_eq. exact Htag.
  - intros d Hd Htag Hchk.
    apply list_elem_of_lookup in Hd as [i Hi].
    assert (Hlt : i < length children)
      by (rewrite <- Hlen; eapply lookup_lt_Some; exact Hi).
    destruct (lookup_lt_is_Some_2 _ _ Hlt) as [c Hc].
    rewrite (Hat i c Hc) in Hi. injection Hi as <-.
    destruct (matches (JStr s) c) eqn:Hm.
    + unfold matches in Hm. apply andb_true_iff in Hm as [_ Hv].
      cbn in Hv |- *. apply String.eqb_eq. exact Hv.
    + assert (Hcc : checked c = false).
      { apply Hun; [eapply list_elem_of_lookup_2; exact Hc |].
        destruct (existsb (rival (JStr s) c) children); exact Htag. }
      destruct (existsb (rival (JStr s) c) children); cbn in Hchk; congruence.
Qed.

(** X27. On a group in which no input is checked, [value()] reads the
    empty string and [selected()] reads [undefined]; after [selected(v)]
    for a non-empty [v] that is the value of one of the inputs, [value()]
    and [selected()] read [v]. *)
Theorem radio_select_then_read (children : list Child) (v : string) :
  v ≠ "" →
  (∀ c, c ∈ children → tagName c = "INPUT" → checked c = false) →
  (∃ c, c ∈ children ∧ tagName c = "INPUT" ∧ value c = v) →
  let children' := (self_selected children (Some (JStr v))).2 in
  (self_value children None).1 = RetValue (JStr "")
  ∧ (self_selected children None).1 = RetValue JUndefined
  ∧ (self_value children' None).1 = RetValue (JStr v)
  ∧ (self_selected children' None).1 = RetValue (JStr v).
Proof.
  intros Hv Hun (c & Hc & Htag & Hval). cbn zeta.
  assert (Htruthy : truthy (JStr v) = true).
  { cbn. destruct (String.eqb_spec v ""); [contradiction | reflexivity]. }
  assert (Hex : existsb (matches (JStr v)) children = true).
  { apply existsb_exists. exists c. split; [apply list_elem_of_In, Hc |].
    unfold matches. rewrite Htag, Hval. cbn [strict_eq].
    rewrite !String.eqb_refl. reflexivity. }
  assert (H1 : self_value children None = (RetValue (JStr ""), children)).
  { unfold self_value. change (default JUndefined None) with JUndefined.
    cbn [truthy]. rewrite (first_checked_none children Hun). reflexivity. }
  assert (H2 : self_selected children None = (RetValue JUndefined, children)).
  { unfold self_selected. change (default JUndefined None) with JUndefined.
    cbn [truthy]. rewrite (first_checked_none children Hun). reflexivity. }
  assert (H3 : self_selected children (Some (JStr v))
               = (RetThis, check_matching (JStr v) children)).
  { unfold self_selected.
    change (default JUndefined (Some (JStr v))) with (JStr v).
    rewrite Htruthy. reflexivity. }
  rewrite H1, H2, H3. cbn [fst snd].
  unfold self_value, self_selected.
  change (default JUndefined None) with JUndefined. cbn [truthy].
  rewrite (first_checked_after_check v children Hun Hex).
  repeat split.
Qed.

Lemma radio_select_then_read_witness :
  let group := [mkChild "INPUT" "radio" "defaultradio0" "1" false;
                mkChild "LABEL" "" "" "" false;
                mkChild "INPUT" "radio" "defaultradio0" "2" false;
                mkChild "LABEL" "" "" "" false] in
  (self_value (self_selected group (Some (JStr "2"))).2 None).1
  = RetValue (JStr "2").
Proof.
  intros group.
  refine (proj1 (proj2 (proj2 (radio_select_then_read group "2" _ _ _)))).
  - discriminate.
  - intros c Hc _.
    repeat (apply elem_of_cons in Hc as [-> | Hc]; [reflexivity |]).
    apply elem_of_nil in Hc. contradiction.
  - exists (mkChild "INPUT" "radio" "defaultradio0" "2" false).
    split; [right; right; left | split; reflexivity].
Defined.

End RadioRoundTrip.

(** ** autoplay() and its watchdog *)

Section AutoplayWatchdog.

Import Autoplay.

Lemma attr_set_not_falsy val :
  val ≠ JStr "" → attr_falsy (Some (to_DOMString val)) = false.
Proof.
  intros Hval. destruct val as [| | [] | str]; try reflexivity.
  cbn. destruct (String.eqb_spec str ""); [congruence | reflexivity].
Qed.

(** X28. Only the first call of [autoplay] can set up the detection.
    After a call with any value but the empty string the attribute is a
    non-empty string, ["false"] after [autoplay(false)], and a later call
    finds it truthy: it changes the attribute and nothing else, so
    [autoplay(false)] followed by [autoplay(true)] sets up no detection. *)
Theorem autoplay_later_calls_set_up_nothing (s : State) (val val' : jsval) :
  val ≠ JStr "" →
  let s1 := autoplay s val in
  autoplay s1 val'
  = mkState (Some (to_DOMString val')) (readyState s1) (canplay_once s1)
      (play_once s1) (timers s1) (next_timer s1) (warnings s1).
Proof.
  intros Hval. cbn zeta.
  assert (Hattr : autoplay_attr (autoplay s val) = Some (to_DOMString val)).
  { unfold autoplay, _setupAutoplayFailDetection.
    destruct (truthy val && attr_falsy (autoplay_attr s));
      [destruct (_ =? 4) |]; reflexivity. }
  unfold autoplay at 1. rewrite Hattr, (attr_set_not_falsy val Hval).
  rewrite andb_false_r. reflexivity.
Qed.

Lemma autoplay_later_calls_set_up_nothing_witness :
  let s := autoplay (autoplay (initial 4) (JBool false)) (JBool true) in
  timers s = [] ∧ canplay_once s = 0 ∧ autoplay_attr s = Some "true".
Proof.
  intros s. unfold s.
  rewrite (autoplay_later_calls_set_up_nothing (initial 4) (JBool false)
             (JBool true)) by discriminate.
  repeat split.
Defined.

Ltac books_done := solve [repeat split; first [reflexivity | assumption]].

Ltac phase_found :=
  first [ books_done
        | left; phase_found
        | right; phase_found
        | split; [assumption | phase_found] ].

Lemma phase_step (s : State) (x : Step) :
  (∀ val, x = Call val → val ≠ JStr "") → phase s → phase (step s x).
Proof.
  intros Hx Hs. destruct s as [a r c po tm nx w].
  unfold phase, books in *. cbn [autoplay_attr next_timer canplay_once timers
    play_once warnings] in Hs.
  destruct x as [val | [| | t | n]]; cbn [step].
  - specialize (Hx val eq_refl). unfold autoplay.
    cbn [autoplay_attr readyState canplay_once play_once timers next_timer
         warnings].
    pose proof (attr_set_not_falsy val Hx) as Hnf.
    destruct Hs as [(-> & -> & -> & -> & -> & ->) | (Ha & Hs)].
    + cbn [attr_falsy]. rewrite andb_true_r.
      destruct (truthy val); [destruct (r =? 4) |]; cbn; phase_found.
    + rewrite Ha, andb_false_r. cbn. phase_found.
  - destruct Hs as [(-> & -> & -> & -> & -> & ->) | (Ha & Hs)];
      [cbn; phase_found |].
    destruct Hs as [H | [H | [H | [H | [H | H]]]]];
      destruct H as (-> & -> & -> & -> & ->); cbn; phase_found.
  - assert (H0 : bool_decide (0 ∈ [0]) = true)
      by (apply bool_decide_eq_true_2; left).
    destruct Hs as [(-> & -> & -> & -> & -> & ->) | (Ha & Hs)];
      [cbn; phase_found |].
    destruct Hs as [H | [H | [H | [H | [H | H]]]]];
      destruct H as (-> & -> & -> & -> & ->); cbn; rewrite ?H0; cbn;
      phase_found.
  - assert (Hnil : bool_decide (t ∈ @nil nat) = false)
      by (apply bool_decide_eq_false_2, not_elem_of_nil).
    destruct Hs as [(-> & -> & -> & -> & -> & ->) | (Ha & Hs)];
      [cbn; rewrite Hnil; cbn; phase_found |].
    destruct Hs as [H | [H | [H | [H | [H | H]]]]];
      destruct H as (-> & -> & -> & -> & ->); cbn; rewrite ?Hnil; cbn;
      try phase_found.
    destruct (decide (t = 0)) as [-> | Hne].
    + rewrite bool_decide_eq_true_2 by left. cbn.
      rewrite bool_decide_eq_true_2 by reflexivity. cbn. phase_found.
    + rewrite bool_decide_eq_false_2
        by (intros H; apply list_elem_of_singleton in H; contradiction).
      cbn. phase_found.
  - cbn. exact Hs.
Qed.

Lemma phase_run xs : ∀ s,
  (∀ val, Call val ∈ xs → val ≠ JStr "") → phase s → phase (run s xs).
Proof.
  induction xs as [| x xs IH]; intros s Hxs Hs; [exact Hs |].
  cbn. apply IH.
  - intros val Hval. apply Hxs. right. exact Hval.
  - apply phase_step; [| exact Hs]. intros val ->. apply Hxs. left.
Qed.

(** X29. Through any session of [autoplay] calls (none with the empty
    string) and host events on a new media node, at most one detection is
    ever set up and the warning is shown at most once; the running timers
    are always among those a [play] event clears, so after a [play] event
    no timer is left to show the warning. *)
Theorem autoplay_watchdog_once (r : nat) (xs : list Step) :
  (∀ val, Call val ∈ xs → val ≠ JStr "") →
  let s := run (initial r) xs in
  next_timer s + canplay_once s ≤ 1
  ∧ warnings s ≤ 1
  ∧ (∀ t, t ∈ timers s → t ∈ play_once s)
  ∧ timers (deliver s Play) = [].
Proof.
  intros Hxs. cbn zeta.
  assert (Hinit : phase (initial r)).
  { left. unfold books. repeat split. }
  pose proof (phase_run xs _ Hxs Hinit) as Hs.
  assert (Hplay : phase (step (run (initial r) xs) (Host Play))).
  { apply phase_step; [intros val H; discriminate H | exact Hs]. }
  cbn [step] in Hplay.
  assert (Hsub : ∀ t, t ∈ timers (run (initial r) xs)
                      → t ∈ play_once (run (initial r) xs)).
  { unfold phase, books in Hs.
    destruct Hs as [(_ & _ & _ & -> & -> & _) | (_ & Hs)]; [auto |].
    destruct Hs as [H | [H | [H | [H | [H | H]]]]];
      destruct H as (_ & _ & -> & -> & _); auto.
    intros t Ht. apply elem_of_nil in Ht. contradiction. }
  split; [| split; [| split; [exact Hsub |]]].
  - unfold phase, books in Hs.
    destruct Hs as [(_ & -> & -> & _) | (_ & Hs)]; [lia |].
    destruct Hs as [H | [H | [H | [H | [H | H]]]]];
      destruct H as (-> & -> & _); lia.
  - unfold phase, books in Hs.
    destruct Hs as [(_ & _ & _ & _ & _ & ->) | (_ & Hs)]; [lia |].
    destruct Hs as [H | [H | [H | [H | [H | H]]]]];
      destruct H as (_ & _ & _ & _ & ->); lia.
  - unfold deliver. cbn [timers].
    induction (timers (run (initial r) xs)) as [| t tm IH]; [reflexivity |].
    cbn [List.filter].
    rewrite bool_decide_eq_true_2 by (apply Hsub; left). cbn [negb].
    apply IH. intros t' Ht'. apply Hsub. right. exact Ht'.
Qed.

Lemma autoplay_watchdog_once_witness :
  let s := run (initial 4) [Call (JBool true); Host Play; Host (Timeout 0)] in
  warnings s ≤ 1 ∧ timers (deliver s Play) = [].
Proof.
  intros s.
  destruct (autoplay_watchdog_once 4
              [Call (JBool true); Host Play; Host (Timeout 0)])
    as (_ & Hw & _ & Hp).
  - intros val Hval.
    apply elem_of_cons in Hval as [Hval | Hval];
      [injection Hval as ->; discriminate |].
    apply elem_of_cons in Hval as [Hval | Hval]; [discriminate Hval |].
    apply elem_of_cons in Hval as [Hval | Hval]; [discriminate Hval |].
    apply elem_of_nil in Hval. contradiction.
  - split; [exact Hw | exact Hp].
Defined.

End AutoplayWatchdog.
